(** * xirvik-tools: torrent content verification and SFTP mirroring

    A shallow embedding of [xirvik/util.py] (piece streaming and hash
    verification) and [xirvik/sftp.py] (recursive remote listing and the
    resumable mirror loop), with the properties of the specification stated
    and settled against it.

    The semantics is that of Python 3: [zip] is lazy and [/] is true
    division. Python integers are [Z], byte strings are [list byte], text
    is [string]. Generators are modelled by the finite sequence of values
    they yield together with the way they end; a consumer that stops pulling
    simply ignores the rest of that sequence. *)

From Stdlib Require Import String Ascii Strings.Byte.
From Stdlib Require Import ZArith List Bool Lia.
Import ListNotations.
Local Open Scope Z_scope.

Abbreviation bytes := (list byte) (only parsing).

(** [len(x)] of a Python sequence. *)
Definition len {A : Type} (l : list A) : Z := Z.of_nat (length l).

(** Truthiness of a byte string: [if buf:] / [if not tmp:]. *)
Definition truthy {A : Type} (l : list A) : bool :=
  match l with [] => false | _ :: _ => true end.

Fixpoint bytes_eqb (a b : bytes) : bool :=
  match a, b with
  | [], [] => true
  | x :: a', y :: b' => Byte.eqb x y && bytes_eqb a' b'
  | _, _ => false
  end.

(** ** [os.path] on POSIX *)

Module Posixpath.

Local Open Scope string_scope.

Definition startswith_sep (s : string) : bool :=
  match s with
  | String c _ => Ascii.eqb c "/"
  | EmptyString => false
  end.

Fixpoint endswith_sep (s : string) : bool :=
  match s with
  | EmptyString => false
  | String c EmptyString => Ascii.eqb c "/"
  | String _ r => endswith_sep r
  end.

Definition is_empty (s : string) : bool :=
  match s with EmptyString => true | _ => false end.

(** [posixpath.join(a, b)]: an absolute [b] discards [a]. *)
Definition join (a b : string) : string :=
  if startswith_sep b then b
  else if is_empty a || endswith_sep a then a ++ b
  else a ++ "/" ++ b.

(** [p.rfind('/') + 1] as a split of [p] into the part up to and including
    the last separator and the part after it. *)
Fixpoint rsplit_sep (p : string) : string * string :=
  match p with
  | EmptyString => (EmptyString, EmptyString)
  | String c r =>
      let (h, t) := rsplit_sep r in
      if is_empty h then
        if Ascii.eqb c "/" then (String c EmptyString, t)
        else (EmptyString, String c t)
      else (String c h, t)
  end.

Fixpoint all_sep (s : string) : bool :=
  match s with
  | EmptyString => true
  | String c r => Ascii.eqb c "/" && all_sep r
  end.

(** [s.rstrip('/')] *)
Fixpoint rstrip_sep (s : string) : string :=
  match s with
  | EmptyString => EmptyString
  | String c r =>
      let r' := rstrip_sep r in
      if is_empty r' && Ascii.eqb c "/" then EmptyString else String c r'
  end.

Definition dirname (p : string) : string :=
  let (head, _) := rsplit_sep p in
  if negb (is_empty head) && negb (all_sep head) then rstrip_sep head
  else head.

Definition basename (p : string) : string := snd (rsplit_sep p).

End Posixpath.

(** ** The local file system as the verifier sees it

    [os.stat(p).st_size] succeeds on every existing entry; [open(p, 'rb')]
    succeeds only on those that can be read ([content] is [Some]);
    [os.path.isdir(p)] is [is_dir]. *)

Record fnode : Type := mk_fnode {
  st_size : Z;
  content : option bytes;
  is_dir : bool
}.

Definition filesystem := string -> option fnode.

Definition regular (c : bytes) : fnode := mk_fnode (len c) (Some c) false.
Definition directory : fnode := mk_fnode 4096 None true.

Definition os_stat (fs : filesystem) (p : string) : option Z :=
  option_map st_size (fs p).

Definition os_open (fs : filesystem) (p : string) : option bytes :=
  match fs p with
  | Some nd => content nd
  | None => None
  end.

Definition isdir (fs : filesystem) (p : string) : bool :=
  match fs p with
  | Some nd => is_dir nd
  | None => false
  end.

(** ** Exceptions and generator traces *)

Inductive pyexc : Type :=
| IOError (msg : string)
| UnboundLocalError (var : string)
| VerificationError (msg : string)
| SocketTimeout
| SFTPError (msg : string)
| OtherError (name : string).

Inductive ending : Type :=
| Stopped
| Raised (e : pyexc).

(** What a generator yields, in order, and how it ends once all of that
    has been pulled. *)
Definition trace (A : Type) : Type := (list A * ending)%type.

Definition yields {A} (t : trace A) : list A := fst t.
Definition finish {A} (t : trace A) : ending := snd t.

Definition emit {A} (ys : list A) (t : trace A) : trace A :=
  (ys ++ fst t, snd t).

Module Util.

(** [_chunks(l, n)]: [l[i:i + n]] for [i] in [range(0, len(l), n)]. *)
Fixpoint chunks_upto {A} (fuel : nat) (l : list A) (n : nat) : list (list A) :=
  match fuel with
  | O => []
  | S fuel' =>
      match l with
      | [] => []
      | _ :: _ => firstn n l :: chunks_upto fuel' (skipn n l) n
      end
  end.

Definition _chunks {A} (l : list A) (n : nat) : list (list A) :=
  chunks_upto (length l) l n.

(** [f.read(n)] on the unread remainder of an open file: a negative [n]
    reads to the end. Returns the bytes read and the new remainder. *)
Definition f_read (rest : bytes) (n : Z) : bytes * bytes :=
  if n <? 0 then (rest, [])
  else (firstn (Z.to_nat n) rest, skipn (Z.to_nat n) rest).

(** The [while True:] loop of [_get_torrent_pieces] over one open file.
    Returns the buffers yielded and the values of [buf] and [p_delta] when
    the loop breaks; [None] when the iteration budget is used up. *)
Fixpoint read_loop (fuel : nat) (piece_length : Z) (rest buf : bytes)
    (p_delta : Z) : option (list bytes * bytes * Z) :=
  match fuel with
  | O => None
  | S fuel' =>
      let (tmp, rest') := f_read rest p_delta in
      let p_delta := p_delta - len tmp in
      if negb (truthy tmp) then Some ([], buf, p_delta)
      else
        let buf := buf ++ tmp in
        if len tmp <? p_delta then Some ([], buf, p_delta)
        else if p_delta <=? 0 then
          match read_loop fuel' piece_length rest' [] piece_length with
          | Some (ys, b, p) => Some (buf :: ys, b, p)
          | None => None
          end
        else read_loop fuel' piece_length rest' buf p_delta
  end.

(** Every iteration that does not break consumes at least one byte, so
    [length c + 1] iterations always suffice (see [read_loop_terminates]). *)
Definition read_file (piece_length : Z) (c buf : bytes) (p_delta : Z)
    : list bytes * bytes * Z :=
  match read_loop (S (length c)) piece_length c buf p_delta with
  | Some r => r
  | None => ([], buf, p_delta)
  end.

(** The [for name in filenames:] loop of [_get_torrent_pieces] followed by
    the final [if buf: yield buf]. [size] is [None] while the local variable
    is still unbound; after a failed [stat] it keeps its previous value. *)
Fixpoint pieces_from (fs : filesystem) (basepath : string) (piece_length : Z)
    (filenames : list string) (buf : bytes) (p_delta : Z) (size : option Z)
    : trace (option bytes) :=
  match filenames with
  | [] => if truthy buf then ([Some buf], Stopped) else ([], Stopped)
  | name :: rest =>
      let name := Posixpath.join basepath name in
      let (placeholder, size) :=
        match os_stat fs name with
        | Some s => ([], Some s)
        | None => ([None], size)
        end in
      emit placeholder
        match size with
        | None => ([], Raised (UnboundLocalError "size"))
        | Some sz =>
            if (sz <=? piece_length) && (p_delta >? sz) then
              match os_open fs name with
              | None => ([], Raised (IOError name))
              | Some tmp =>
                  let p_delta := p_delta - len tmp in
                  let p_delta := if p_delta <=? 0 then piece_length else p_delta in
                  pieces_from fs basepath piece_length rest (buf ++ tmp) p_delta size
              end
            else
              match os_open fs name with
              | None =>
                  emit [None]
                    (pieces_from fs basepath piece_length rest buf p_delta size)
              | Some c =>
                  let '(ys, buf, p_delta) := read_file piece_length c buf p_delta in
                  emit (map Some ys)
                    (pieces_from fs basepath piece_length rest buf p_delta size)
              end
        end
  end.

Definition _get_torrent_pieces (fs : filesystem) (filenames : list string)
    (basepath : string) (piece_length : Z) : trace (option bytes) :=
  pieces_from fs basepath piece_length filenames [] piece_length None.

End Util.

(** ** SHA-1 (FIPS 180-4), the digest behind [hashlib.sha1]

    The verifier is stated over an arbitrary digest function; this one
    instantiates it on concrete inputs. Words are 32-bit, kept in [Z] with
    the wrap-around written out. *)

Module Sha1.

Definition z_of_byte (b : byte) : Z := Z.of_N (Byte.to_N b).

Definition byte_of_z (z : Z) : byte :=
  match Byte.of_N (Z.to_N (z mod 256)) with
  | Some b => b
  | None => x00
  end.

Definition wrap32 (x : Z) : Z := x mod 2 ^ 32.

Definition rotl (n x : Z) : Z :=
  Z.lor (wrap32 (Z.shiftl x n)) (Z.shiftr x (32 - n)).

Definition be64 (n : Z) : list Z :=
  map (fun i => (n / 2 ^ (8 * i)) mod 256) [7; 6; 5; 4; 3; 2; 1; 0].

Definition pad (m : list Z) : list Z :=
  let l := Z.of_nat (length m) in
  m ++ [128] ++ repeat 0 (Z.to_nat ((55 - l) mod 64)) ++ be64 (8 * l).

Fixpoint to_words (l : list Z) : list Z :=
  match l with
  | a :: b :: c :: d :: r =>
      (a * 2 ^ 24 + b * 2 ^ 16 + c * 2 ^ 8 + d) :: to_words r
  | _ => []
  end.

Fixpoint expand (n : nat) (rw : list Z) : list Z :=
  match n with
  | O => rw
  | S n' =>
      let w :=
        rotl 1 (Z.lxor (Z.lxor (nth 2 rw 0) (nth 7 rw 0))
                       (Z.lxor (nth 13 rw 0) (nth 15 rw 0))) in
      expand n' (w :: rw)
  end.

Definition schedule (block : list Z) : list Z := rev (expand 64 (rev block)).

Definition f_round (t b c d : Z) : Z :=
  if t <? 20 then Z.lor (Z.land b c) (Z.land (Z.lxor b (2 ^ 32 - 1)) d)
  else if t <? 40 then Z.lxor (Z.lxor b c) d
  else if t <? 60 then Z.lor (Z.lor (Z.land b c) (Z.land b d)) (Z.land c d)
  else Z.lxor (Z.lxor b c) d.

Definition k_round (t : Z) : Z :=
  if t <? 20 then 0x5A827999
  else if t <? 40 then 0x6ED9EBA1
  else if t <? 60 then 0x8F1BBCDC
  else 0xCA62C1D6.

Definition regs : Type := (Z * Z * Z * Z * Z)%type.

Fixpoint rounds (ws : list Z) (t : Z) (s : regs) : regs :=
  match ws with
  | [] => s
  | w :: ws' =>
      let '(a, b, c, d, e) := s in
      let temp := wrap32 (rotl 5 a + f_round t b c d + e + k_round t + w) in
      rounds ws' (t + 1) (temp, a, rotl 30 b, c, d)
  end.

Definition compress (h : regs) (block : list Z) : regs :=
  let '(a, b, c, d, e) := rounds (schedule block) 0 h in
  let '(h0, h1, h2, h3, h4) := h in
  (wrap32 (h0 + a), wrap32 (h1 + b), wrap32 (h2 + c), wrap32 (h3 + d),
   wrap32 (h4 + e)).

Fixpoint blocks (n : nat) (ws : list Z) (h : regs) : regs :=
  match n with
  | O => h
  | S n' => blocks n' (skipn 16 ws) (compress h (firstn 16 ws))
  end.

Definition be32 (w : Z) : list Z :=
  map (fun i => (w / 2 ^ (8 * i)) mod 256) [3; 2; 1; 0].

Definition sha1 (m : bytes) : bytes :=
  let ws := to_words (pad (map z_of_byte m)) in
  let '(h0, h1, h2, h3, h4) :=
    blocks (length ws / 16) ws
      (0x67452301, 0xEFCDAB89, 0x98BADCFE, 0x10325476, 0xC3D2E1F0) in
  map byte_of_z (be32 h0 ++ be32 h1 ++ be32 h2 ++ be32 h3 ++ be32 h4).

Definition hex (d : bytes) : list Z := map z_of_byte d.

Example sha1_abc :
  hex (sha1 (list_byte_of_string "abc")) =
  [0xa9; 0x99; 0x3e; 0x36; 0x47; 0x06; 0x81; 0x6a; 0xba; 0x3e;
   0x25; 0x71; 0x78; 0x50; 0xc2; 0x6c; 0x9c; 0xd0; 0xd8; 0x9d].
Proof. vm_compute. reflexivity. Qed.

Example sha1_empty :
  hex (sha1 []) =
  [0xda; 0x39; 0xa3; 0xee; 0x5e; 0x6b; 0x4b; 0x0d; 0x32; 0x55;
   0xbf; 0xef; 0x95; 0x60; 0x18; 0x90; 0xaf; 0xd8; 0x07; 0x09].
Proof. vm_compute. reflexivity. Qed.

Example sha1_two_blocks :
  hex (sha1 (list_byte_of_string
    "abcdbcdecdefdefgefghfghighijhijkijkljklmklmnlmnomnopnopq")) =
  [0x84; 0x98; 0x3e; 0x44; 0x1c; 0x3b; 0xd2; 0x6e; 0xba; 0xae;
   0x4a; 0xa1; 0xf9; 0x51; 0x29; 0xe5; 0xe5; 0x46; 0x70; 0xf1].
Proof. vm_compute. reflexivity. Qed.

Lemma sha1_digest_size (m : bytes) : length (sha1 m) = 20%nat.
Proof.
  unfold sha1.
  destruct (blocks _ _ _) as [[[[h0 h1] h2] h3] h4].
  rewrite length_map. reflexivity.
Qed.

End Sha1.

(** ** [verify_torrent_contents] *)

Inductive outcome : Type :=
| Returns
| Raises (e : pyexc).

(** The decoded metadata: [torrent[b'info']] with its required keys;
    [files] is [None] when the [b'files'] key is absent (the [KeyError]
    branch of the verifier). *)
Record torrent_info : Type := mk_torrent {
  name : string;
  piece_length : Z;
  pieces : bytes;
  files : option (list (list string))
}.

Module Torrent.

Import Util.

Local Open Scope string_scope.

Definition unable_to_hash : pyexc :=
  VerificationError "Unable to get hash for piece".

Definition hash_mismatch : pyexc :=
  VerificationError "Computed hash does not match torrent file's hash".

Definition invalid_path : pyexc :=
  IOError "Path specified for torrent data is invalid".

Section Verifier.

(** [lambda piece: sha1(piece).digest()] *)
Variable digest : bytes -> bytes.

(** [sha1().digest_size] *)
Definition digest_size : nat := 20.

(** [hmac.compare_digest] on two byte strings. *)
Definition compare_digest (a b : bytes) : bool := bytes_eqb a b.

(** [for known_hash, piece in zip(piece_hashes, pieces):]; [zip] asks
    [piece_hashes] first and stops as soon as either side is exhausted. *)
Fixpoint compare_pieces (piece_hashes : list bytes)
    (ps : list (option bytes)) (fin : ending) : outcome :=
  match piece_hashes with
  | [] => Returns
  | known_hash :: hs =>
      match ps with
      | [] =>
          match fin with
          | Stopped => Returns
          | Raised e => Raises e
          end
      | None :: _ => Raises unable_to_hash
      | Some piece :: ps' =>
          if compare_digest known_hash (digest piece)
          then compare_pieces hs ps' fin
          else Raises hash_mismatch
      end
  end.

Definition verify_pieces (piece_hashes : list bytes)
    (t : trace (option bytes)) : outcome :=
  compare_pieces piece_hashes (yields t) (finish t).

(** The file names handed to the streamer and the base path they are joined
    to: the [b'files'] entries below [path/name], or, when the key is
    absent, the single name [path/name] below the caller's [path]. *)
Definition torrent_filenames (torrent : torrent_info) (orig_path : string)
    : list string * string :=
  let path := Posixpath.join orig_path (name torrent) in
  match files torrent with
  | Some fl => (map (String.concat "/") fl, path)
  | None => ([path], orig_path)
  end.

(** [pieces = _get_torrent_pieces(filenames, path, piece_length)] *)
Definition torrent_pieces (fs : filesystem) (torrent : torrent_info)
    (orig_path : string) : trace (option bytes) :=
  let '(filenames, path) := torrent_filenames torrent orig_path in
  _get_torrent_pieces fs filenames path (piece_length torrent).

(** [piece_hashes = _chunks(piece_hashes, sha1().digest_size)] *)
Definition piece_hashes (torrent : torrent_info) : list bytes :=
  _chunks (pieces torrent) digest_size.

Definition verify_torrent_contents (fs : filesystem) (torrent : torrent_info)
    (path : string) : outcome :=
  let orig_path := path in
  let path := Posixpath.join path (name torrent) in
  let is_a_file :=
    match os_open fs path with Some _ => true | None => false end in
  if negb (isdir fs path) && negb is_a_file then Raises invalid_path
  else
    verify_pieces (piece_hashes torrent) (torrent_pieces fs torrent orig_path).

End Verifier.

End Torrent.

(** * Properties of the piece streamer *)

Module UtilFacts.

Import Util.

Lemma len_app {A} (a b : list A) : len (a ++ b) = len a + len b.
Proof. unfold len. rewrite length_app. lia. Qed.

Lemma len_nonneg {A} (l : list A) : 0 <= len l.
Proof. unfold len. lia. Qed.

Lemma truthy_false {A} (l : list A) : truthy l = false -> l = [].
Proof. destruct l; simpl; congruence. Qed.

Lemma truthy_true {A} (l : list A) : truthy l = true -> (0 < length l)%nat.
Proof. destruct l; simpl; [congruence | lia]. Qed.

Lemma bytes_eqb_eq (a b : bytes) : bytes_eqb a b = true <-> a = b.
Proof.
  revert b. induction a as [|x a IH]; intros [|y b]; simpl; split;
    try congruence; try reflexivity.
  - intros [Hxy Hab]%andb_true_iff.
    apply Byte.byte_dec_bl in Hxy. apply IH in Hab. congruence.
  - intros [= -> ->]. apply andb_true_iff. split.
    + now apply Byte.byte_dec_lb.
    + now apply IH.
Qed.

Lemma bytes_eqb_refl (a : bytes) : bytes_eqb a a = true.
Proof. now apply bytes_eqb_eq. Qed.

(** *** [_chunks] *)

Lemma chunks_upto_fuel {A} (n : nat) :
  (0 < n)%nat ->
  forall (f f' : nat) (l : list A),
    (length l <= f)%nat -> (length l <= f')%nat ->
    chunks_upto f l n = chunks_upto f' l n.
Proof.
  intros Hn. induction f as [|f IH]; intros f' l Hf Hf'.
  - destruct l; [|simpl in Hf; lia]. destruct f'; reflexivity.
  - destruct l as [|x l]; [destruct f'; reflexivity|].
    destruct f' as [|f']; [simpl in Hf'; lia|].
    cbn [chunks_upto]. f_equal.
    apply IH; rewrite length_skipn; cbn [length] in *; lia.
Qed.

Lemma chunks_nil {A} (n : nat) : _chunks (@nil A) n = [].
Proof. reflexivity. Qed.

Lemma chunks_step {A} (n : nat) (l : list A) :
  (0 < n)%nat -> l <> [] ->
  _chunks l n = firstn n l :: _chunks (skipn n l) n.
Proof.
  intros Hn Hl. unfold _chunks.
  destruct l as [|x l]; [congruence|].
  cbn [length chunks_upto]. f_equal.
  apply chunks_upto_fuel; trivial.
  rewrite length_skipn. cbn [length]. lia.
Qed.

Lemma chunks_short {A} (n : nat) (l : list A) :
  (0 < length l <= n)%nat -> _chunks l n = [l].
Proof.
  intros H. rewrite chunks_step; try lia.
  - rewrite firstn_all2 by lia. rewrite skipn_all2 by lia. reflexivity.
  - destruct l; simpl in H; [lia | congruence].
Qed.

Lemma chunks_full_app {A} (n : nat) (a l : list A) :
  (0 < n)%nat -> length a = n -> _chunks (a ++ l) n = a :: _chunks l n.
Proof.
  intros Hn Ha. rewrite chunks_step; trivial.
  - rewrite firstn_app, skipn_app, Ha, Nat.sub_diag.
    rewrite firstn_all2, skipn_all2 by lia. simpl.
    rewrite app_nil_r. reflexivity.
  - destruct a; simpl in *; [lia | congruence].
Qed.

Lemma chunks_prefix {A} (n : nat) (ys : list (list A)) (l : list A) :
  (0 < n)%nat -> Forall (fun y => length y = n) ys ->
  _chunks (concat ys ++ l) n = ys ++ _chunks l n.
Proof.
  intros Hn Hys. induction Hys as [|y ys Hy _ IH]; simpl; trivial.
  rewrite <- app_assoc, chunks_full_app, IH; trivial.
Qed.

Lemma chunks_concat {A} (n : nat) :
  (0 < n)%nat -> forall l : list A, concat (_chunks l n) = l.
Proof.
  intros Hn l.
  remember (length l) as k eqn:Hk.
  revert l Hk. induction k as [k IH] using lt_wf_ind. intros l Hk.
  destruct l as [|x l]; [reflexivity|].
  rewrite chunks_step by (trivial; congruence).
  cbn [concat]. rewrite (IH (length (skipn n (x :: l)))); trivial.
  - apply firstn_skipn.
  - rewrite length_skipn. subst k. cbn [length]. lia.
Qed.

(** Every chunk is non-empty and at most [n] long; every chunk that has a
    successor is exactly [n] long. *)
Lemma chunks_shape {A} (n : nat) :
  (0 < n)%nat -> forall (l : list A) (i : nat),
    (i < length (_chunks l n))%nat ->
    (0 < length (nth i (_chunks l n) []) <= n)%nat /\
    ((S i < length (_chunks l n))%nat ->
       length (nth i (_chunks l n) []) = n).
Proof.
  intros Hn l.
  remember (length l) as k eqn:Hk.
  revert l Hk. induction k as [k IH] using lt_wf_ind. intros l Hk i Hi.
  destruct l as [|x l]; [simpl in Hi; lia|].
  rewrite chunks_step in * by (trivial; congruence).
  destruct i as [|i].
  - cbn [nth]. rewrite length_firstn. cbn [length]. split; [lia|].
    intros Hnext. cbn [length] in Hnext.
    destruct (skipn n (x :: l)) as [|z zs] eqn:Hs.
    + simpl in Hnext. lia.
    + assert (length (skipn n (x :: l)) = S (length zs)) as Hlen
        by (rewrite Hs; reflexivity).
      rewrite length_skipn in Hlen. cbn [length] in Hlen. lia.
  - cbn [nth length] in *.
    assert (length (skipn n (x :: l)) < k)%nat as Hlt
      by (rewrite length_skipn; subst k; cbn [length]; lia).
    destruct (IH _ Hlt (skipn n (x :: l)) eq_refl i) as [H1 H2]; [lia|].
    split; [exact H1 | intros; apply H2; lia].
Qed.

End UtilFacts.

Module Streamer.

Import Util UtilFacts.

(** The file at [p] exists, has size [len c] and reads back as [c]. *)
Definition holds (fs : filesystem) (p : string) (c : bytes) : Prop :=
  os_stat fs p = Some (len c) /\ os_open fs p = Some c.

(** Every listed name, resolved against [basepath], is such a file. *)
Definition all_hold (fs : filesystem) (basepath : string)
    (filenames : list string) (contents : list bytes) : Prop :=
  Forall2 (fun nm c => holds fs (Posixpath.join basepath nm) c)
    filenames contents.

Lemma firstn_nil_inv {A} (n : nat) (l : list A) :
  (0 < n)%nat -> firstn n l = [] -> l = [].
Proof. destruct n, l; simpl; intros; trivial; try lia; congruence. Qed.

Lemma firstn_short {A} (n : nat) (l : list A) :
  (length (firstn n l) < n)%nat -> firstn n l = l /\ skipn n l = [].
Proof.
  rewrite length_firstn. intros H.
  split; [apply firstn_all2 | apply skipn_all2]; lia.
Qed.

(** The read loop under the streamer's invariant
    [p_delta = piece_length - len buf > 0]: it never exhausts its budget,
    yields only full pieces, and keeps the invariant. *)
Lemma read_loop_spec (pl : Z) :
  0 < pl ->
  forall (fuel : nat) (rest buf : bytes),
    (length rest < fuel)%nat -> len buf < pl ->
    exists ys buf',
      read_loop fuel pl rest buf (pl - len buf) = Some (ys, buf', pl - len buf')
      /\ len buf' < pl
      /\ Forall (fun y => length y = Z.to_nat pl) ys
      /\ buf ++ rest = concat ys ++ buf'.
Proof.
  intros Hpl. unfold len.
  induction fuel as [|fuel IH]; intros rest buf Hfuel Hbuf; [lia|].
  cbn [read_loop]. unfold f_read, len.
  destruct (Z.ltb_spec (pl - Z.of_nat (length buf)) 0) as [|_]; [lia|].
  remember (Z.to_nat (pl - Z.of_nat (length buf))) as k eqn:Ek.
  assert (0 < k)%nat as Hk by lia.
  assert (length (firstn k rest) <= k)%nat as Hle by apply firstn_le_length.
  assert (length rest = length (firstn k rest) + length (skipn k rest))%nat
    as Hsplit by (rewrite <- length_app, firstn_skipn; reflexivity).
  destruct (truthy (firstn k rest)) eqn:Htmp; cbn [negb].
  - (* some bytes were read *)
    apply truthy_true in Htmp.
    destruct (Z.ltb_spec (Z.of_nat (length (firstn k rest)))
                (pl - Z.of_nat (length buf) - Z.of_nat (length (firstn k rest))))
      as [Hlt|Hge].
    + (* short read: end of file inside the piece *)
      destruct (firstn_short k rest) as [Hall _]; [lia|].
      exists [], (buf ++ firstn k rest). rewrite length_app.
      repeat split; try constructor.
      * f_equal. f_equal. lia.
      * lia.
      * simpl. now rewrite Hall.
    + destruct (Z.leb_spec
                  (pl - Z.of_nat (length buf) - Z.of_nat (length (firstn k rest))) 0)
        as [Hz|Hpos].
      * (* the buffer is full: yield it and start the next piece *)
        destruct (IH (skipn k rest) []) as (ys & buf' & Hrun & Hlt' & Hys & Hcat);
          [lia | simpl; lia |].
        replace (pl - Z.of_nat (length (@nil byte))) with pl in Hrun
          by (simpl; lia).
        rewrite Hrun. exists ((buf ++ firstn k rest) :: ys), buf'.
        repeat split; trivial.
        -- constructor; trivial. rewrite length_app. lia.
        -- simpl in Hcat. cbn [concat]. rewrite <- !app_assoc, <- Hcat.
           now rewrite firstn_skipn.
      * (* end of file with the piece still open *)
        destruct (firstn_short k rest) as [Hall Hnil]; [lia|].
        destruct (IH (skipn k rest) (buf ++ firstn k rest))
          as (ys & buf' & Hrun & Hlt' & Hys & Hcat).
        -- lia.
        -- rewrite length_app. lia.
        -- rewrite length_app in Hrun.
           replace (pl - Z.of_nat (length buf)
                    - Z.of_nat (length (firstn k rest)))
             with (pl - Z.of_nat (length buf + length (firstn k rest))) by lia.
           rewrite Hrun. exists ys, buf'. repeat split; trivial.
           rewrite <- Hcat, <- app_assoc, firstn_skipn. reflexivity.
  - (* nothing left to read *)
    apply truthy_false in Htmp. apply firstn_nil_inv in Htmp; trivial. subst rest.
    exists [], buf. rewrite firstn_nil. simpl.
    repeat split; trivial.
    + f_equal. f_equal. lia.
    + now rewrite app_nil_r.
Qed.

(** The loop over one file always terminates within its budget, whatever
    the piece length and the state it starts from: an iteration that does
    not break has read at least one byte. *)
Lemma read_loop_terminates (fuel : nat) (pl : Z) :
  forall (rest buf : bytes) (p_delta : Z),
    (length rest < fuel)%nat ->
    read_loop fuel pl rest buf p_delta <> None.
Proof.
  induction fuel as [|fuel IH]; intros rest buf pd Hfuel; [lia|].
  cbn [read_loop].
  destruct (f_read rest pd) as [tmp rest'] eqn:Hread.
  assert (truthy tmp = true -> (length rest' < fuel)%nat) as Hless.
  { intros Htmp%truthy_true. unfold f_read in Hread.
    destruct (pd <? 0); injection Hread as <- <-.
    - simpl. lia.
    - assert (length rest
              = length (firstn (Z.to_nat pd) rest)
                + length (skipn (Z.to_nat pd) rest))%nat
        by (rewrite <- length_app, firstn_skipn; reflexivity).
      lia. }
  destruct (truthy tmp); cbn [negb]; [|discriminate].
  destruct (len tmp <? pd - len tmp); [discriminate|].
  destruct (pd - len tmp <=? 0).
  - specialize (IH rest' [] pl (Hless eq_refl)).
    destruct (read_loop fuel pl rest' [] pl) as [[[ys b0] p0]|];
      [discriminate | contradiction].
  - apply IH. now apply Hless.
Qed.

Lemma read_file_runs (pl : Z) (c buf : bytes) (p_delta : Z) :
  read_loop (S (length c)) pl c buf p_delta = Some (read_file pl c buf p_delta).
Proof.
  unfold read_file.
  pose proof (read_loop_terminates (S (length c)) pl c buf p_delta) as H.
  destruct (read_loop _ _ _ _ _); [reflexivity|].
  exfalso. apply H; [lia | reflexivity].
Qed.

Lemma read_file_spec (pl : Z) (c buf : bytes) :
  0 < pl -> len buf < pl ->
  exists ys buf',
    read_file pl c buf (pl - len buf) = (ys, buf', pl - len buf')
    /\ len buf' < pl
    /\ Forall (fun y => length y = Z.to_nat pl) ys
    /\ buf ++ c = concat ys ++ buf'.
Proof.
  intros Hpl Hbuf. unfold read_file.
  destruct (read_loop_spec pl Hpl (S (length c)) c buf) as (ys & b & H & Hrest);
    [lia | trivial |].
  rewrite H. now exists ys, b.
Qed.

Lemma app_inj_length {A} (a a' b b' : list A) :
  length a = length a' -> a ++ b = a' ++ b' -> a = a' /\ b = b'.
Proof.
  revert a'. induction a as [|x a IH]; intros [|x' a'] Hlen Heq;
    simpl in *; try lia; [now split|].
  injection Heq as -> Heq. destruct (IH a') as [-> ->]; trivial; [lia|].
  now split.
Qed.

(** A byte string splits in only one way into full pieces followed by a
    remainder shorter than a piece. *)
Lemma full_split_unique {A} (n : nat) (ys ys' : list (list A)) (r r' : list A) :
  Forall (fun y => length y = n) ys -> Forall (fun y => length y = n) ys' ->
  (length r < n)%nat -> (length r' < n)%nat ->
  concat ys ++ r = concat ys' ++ r' -> ys = ys' /\ r = r'.
Proof.
  intros Hys. revert ys'.
  induction Hys as [|y ys Hy _ IH]; intros ys' Hys' Hr Hr' Heq.
  - destruct Hys' as [|y' ys' Hy' _]; [now split|].
    simpl in Heq. subst r. rewrite !length_app in Hr. lia.
  - destruct Hys' as [|y' ys' Hy' Hall'].
    + simpl in Heq. subst r'. rewrite !length_app in Hr'. lia.
    + simpl in Heq. rewrite <- !app_assoc in Heq.
      apply app_inj_length in Heq as [-> Heq]; [|congruence].
      destruct (IH ys' Hall' Hr Hr' Heq) as [-> ->]. now split.
Qed.

Section Refinement.

Variable fs : filesystem.
Variable basepath : string.
Variable pl : Z.
Hypothesis pl_pos : 0 < pl.

(** From any state that satisfies the invariant, streaming readable files
    yields exactly the [pl]-sized chunks of what is buffered followed by the
    files' bytes. *)
Lemma pieces_from_chunks (filenames : list string) (contents : list bytes) :
  all_hold fs basepath filenames contents ->
  forall (buf : bytes) (size : option Z),
    len buf < pl ->
    pieces_from fs basepath pl filenames buf (pl - len buf) size =
    (map Some (_chunks (buf ++ concat contents) (Z.to_nat pl)), Stopped).
Proof.
  induction 1 as [|nm c names cs [Hstat Hopen] _ IH]; intros buf size Hbuf.
  - cbn [pieces_from concat]. rewrite app_nil_r.
    destruct (truthy buf) eqn:Hb.
    + apply truthy_true in Hb. rewrite chunks_short; [reflexivity|].
      unfold len in Hbuf. lia.
    + apply truthy_false in Hb. subst buf. reflexivity.
  - cbn [pieces_from concat]. rewrite Hstat, Hopen.
    pose proof (len_nonneg buf) as Hb0. pose proof (len_nonneg c) as Hc0.
    unfold emit at 1. cbn [app fst snd].
    destruct ((len c <=? pl) && (pl - len buf >? len c)) eqn:Hsmall.
    + (* the whole file fits into the open piece *)
      apply andb_true_iff in Hsmall as [_ Hfit].
      apply Z.gtb_lt in Hfit.
      destruct (Z.leb_spec (pl - len buf - len c) 0) as [|_]; [lia|].
      replace (pl - len buf - len c) with (pl - len (buf ++ c))
        by (rewrite len_app; lia).
      rewrite IH by (rewrite len_app; lia).
      rewrite <- app_assoc.
      destruct (map Some _); reflexivity.
    + destruct (read_file_spec pl c buf pl_pos Hbuf)
        as (ys & buf' & Hrun & Hlt & Hys & Hcat).
      rewrite Hrun, IH by trivial. unfold emit. cbn [fst snd].
      rewrite <- map_app, app_assoc, Hcat, <- app_assoc.
      rewrite chunks_prefix by (trivial; lia). reflexivity.
Qed.

(** The same from the middle of a file list: after the readable files
    [pre] the streamer has yielded full pieces only and carries on with the
    remaining names from a state that satisfies the invariant. *)
Lemma pieces_from_app (pre : list string) (contents : list bytes) :
  all_hold fs basepath pre contents ->
  forall (rest : list string) (buf : bytes) (size : option Z),
    len buf < pl ->
    exists ys buf' size',
      pieces_from fs basepath pl (pre ++ rest) buf (pl - len buf) size =
      emit (map Some ys)
        (pieces_from fs basepath pl rest buf' (pl - len buf') size')
      /\ len buf' < pl
      /\ Forall (fun y => length y = Z.to_nat pl) ys
      /\ buf ++ concat contents = concat ys ++ buf'.
Proof.
  induction 1 as [|nm c names cs [Hstat Hopen] _ IH]; intros rest buf size Hbuf.
  - exists [], buf, size. simpl. rewrite app_nil_r.
    repeat split; trivial. unfold emit. now destruct (pieces_from _ _ _ _ _ _ _).
  - cbn [app pieces_from concat]. rewrite Hstat, Hopen.
    pose proof (len_nonneg buf) as Hb0. pose proof (len_nonneg c) as Hc0.
    unfold emit at 1. cbn [app fst snd].
    destruct ((len c <=? pl) && (pl - len buf >? len c)) eqn:Hsmall.
    + apply andb_true_iff in Hsmall as [_ Hfit].
      apply Z.gtb_lt in Hfit.
      destruct (Z.leb_spec (pl - len buf - len c) 0) as [|_]; [lia|].
      replace (pl - len buf - len c) with (pl - len (buf ++ c))
        by (rewrite len_app; lia).
      destruct (IH rest (buf ++ c) (Some (len c)))
        as (ys & buf' & size' & Hrun & Hlt & Hys & Hcat);
        [rewrite len_app; lia|].
      exists ys, buf', size'. rewrite Hrun, app_assoc.
      repeat split; trivial.
    + destruct (read_file_spec pl c buf pl_pos Hbuf)
        as (ys1 & buf1 & Hrun1 & Hlt1 & Hys1 & Hcat1).
      destruct (IH rest buf1 (Some (len c)) Hlt1)
        as (ys & buf' & size' & Hrun & Hlt & Hys & Hcat).
      exists (ys1 ++ ys), buf', size'. rewrite Hrun1, Hrun.
      repeat split; trivial.
      * unfold emit. cbn [fst snd]. now rewrite map_app, app_assoc.
      * now apply Forall_app.
      * rewrite app_assoc, Hcat1, <- app_assoc, Hcat, concat_app, app_assoc.
        reflexivity.
Qed.

(** The streamer refines chunking of the concatenated contents. *)
Lemma get_torrent_pieces_chunks (filenames : list string)
    (contents : list bytes) :
  all_hold fs basepath filenames contents ->
  _get_torrent_pieces fs filenames basepath pl =
  (map Some (_chunks (concat contents) (Z.to_nat pl)), Stopped).
Proof.
  intros Hall. unfold _get_torrent_pieces.
  replace pl with (pl - len (@nil byte)) at 2 by (unfold len; simpl; lia).
  rewrite (pieces_from_chunks _ _ Hall) by (unfold len; simpl; lia).
  reflexivity.
Qed.

End Refinement.

(** A file system given by a finite table of paths. *)
Fixpoint fs_of (table : list (string * fnode)) : filesystem :=
  fun p =>
    match table with
    | [] => None
    | (q, nd) :: table' => if String.eqb p q then Some nd else fs_of table' p
    end.

Definition b (s : string) : bytes := list_byte_of_string s.

(** C4: for every ordered list of readable files and every positive piece
    length, the streamer yields only byte buffers and then stops; every
    buffer that has a successor is exactly [piece_length] long, every buffer
    (so also the last) is non-empty and at most [piece_length] long, and
    the buffers concatenate to the files' contents in listed order, so the
    shorter final buffer is never dropped. *)
Theorem C4_piece_stream (fs : filesystem) (basepath : string)
    (piece_length : Z) (filenames : list string) (contents : list bytes) :
  0 < piece_length ->
  all_hold fs basepath filenames contents ->
  exists ps : list bytes,
    _get_torrent_pieces fs filenames basepath piece_length
      = (map Some ps, Stopped)
    /\ (forall i, (S i < length ps)%nat -> len (nth i ps []) = piece_length)
    /\ (forall i, (i < length ps)%nat -> 0 < len (nth i ps []) <= piece_length)
    /\ List.concat ps = List.concat contents.
Proof.
  intros Hpl Hall.
  exists (_chunks (concat contents) (Z.to_nat piece_length)).
  assert (0 < Z.to_nat piece_length)%nat as Hn by lia.
  split; [now apply get_torrent_pieces_chunks|].
  split; [|split].
  - intros i Hi.
    destruct (chunks_shape _ Hn (concat contents) i) as [_ Hfull]; [lia|].
    unfold len. rewrite Hfull by trivial. lia.
  - intros i Hi.
    destruct (chunks_shape _ Hn (concat contents) i) as [Hbound _];
      [exact Hi|].
    unfold len. lia.
  - now apply chunks_concat.
Qed.

(** Two files of three and four bytes, pieces of two bytes: the second and
    the fourth piece span the file boundary and the end of the stream. *)
Definition two_files : filesystem :=
  fs_of [("/t/a", regular (b "abc")); ("/t/b", regular (b "defg"))]%string.

Example two_files_pieces :
  _get_torrent_pieces two_files ["a"; "b"]%string "/t" 2 =
  ([Some (b "ab"); Some (b "cd"); Some (b "ef"); Some (b "g")], Stopped).
Proof. vm_compute. reflexivity. Qed.

Lemma C4_piece_stream_witness :
  exists ps : list bytes,
    _get_torrent_pieces two_files ["a"; "b"]%string "/t" 2 = (map Some ps, Stopped)
    /\ (forall i, (S i < length ps)%nat -> len (nth i ps []) = 2)
    /\ (forall i, (i < length ps)%nat -> 0 < len (nth i ps []) <= 2)
    /\ List.concat ps = List.concat [b "abc"; b "defg"].
Proof.
  apply (C4_piece_stream two_files "/t" 2 ["a"; "b"]%string [b "abc"; b "defg"]).
  - lia.
  - repeat constructor.
Defined.

End Streamer.

(** * Properties of the verifier *)

Module Verifier.

Import Util UtilFacts Torrent Streamer.

(** The verification root passes the check at the top of
    [verify_torrent_contents]: it is a directory or can be opened. *)
Definition reachable (fs : filesystem) (p : string) : Prop :=
  isdir fs p = true \/ exists c, os_open fs p = Some c.

Section Facts.

Variable digest : bytes -> bytes.

Lemma verify_reachable (fs : filesystem) (torrent : torrent_info)
    (path : string) :
  reachable fs (Posixpath.join path (name torrent)) ->
  verify_torrent_contents digest fs torrent path =
  verify_pieces digest (piece_hashes torrent) (torrent_pieces fs torrent path).
Proof.
  intros [Hdir | [c Hc]]; unfold verify_torrent_contents.
  - now rewrite Hdir.
  - rewrite Hc. now rewrite andb_false_r.
Qed.

(** Pieces that hash to their stored digests are passed over. *)
Lemma compare_pieces_matching (P : list bytes) (hs : list bytes)
    (tail : list (option bytes)) (fin : ending) :
  compare_pieces digest (map digest P ++ hs) (map Some P ++ tail) fin =
  compare_pieces digest hs tail fin.
Proof.
  induction P as [|p P IH]; [reflexivity|].
  cbn [map app compare_pieces]. unfold compare_digest.
  now rewrite bytes_eqb_refl.
Qed.

(** What the comparison loop decides on a stream of byte buffers that ends
    normally: it looks at the positions both sequences have, and at nothing
    else. *)
Lemma compare_pieces_stopped (hs ps : list bytes) :
  (compare_pieces digest hs (map Some ps) Stopped = Returns \/
   compare_pieces digest hs (map Some ps) Stopped = Raises hash_mismatch)
  /\ (compare_pieces digest hs (map Some ps) Stopped = Returns <->
      forall i, (i < length hs)%nat -> (i < length ps)%nat ->
                nth i hs [] = digest (nth i ps [])).
Proof.
  revert ps. induction hs as [|h hs IH]; intros ps.
  - simpl. split; [now left|]. split; trivial. intros _ i Hi. simpl in Hi. lia.
  - destruct ps as [|p ps]; cbn [map compare_pieces].
    + split; [now left|]. split; trivial. intros _ i _ Hi. simpl in Hi. lia.
    + unfold compare_digest. destruct (bytes_eqb h (digest p)) eqn:E.
      * apply bytes_eqb_eq in E. subst h.
        destruct (IH ps) as [Hcases Hiff]. split; trivial.
        rewrite Hiff. split.
        -- intros H [|i] Hh Hp; trivial. apply H; simpl in *; lia.
        -- intros H i Hh Hp. apply (H (S i)); simpl; lia.
      * split; [now right|]. split; [discriminate|].
        intros H. specialize (H 0%nat). simpl in H.
        rewrite H, bytes_eqb_refl in E by lia. discriminate.
Qed.

(** C3 (amended): as soon as a streamed piece does not hash to the stored
    digest at its position, all earlier pieces having matched, verification
    raises the hash-mismatch [VerificationError]; whatever follows that
    piece in the stream (further pieces, placeholders, the way the stream
    ends) and whatever digests follow are never looked at. The error is the
    same fixed message at every position and carries no piece index. *)
Theorem C3_first_mismatch (fs : filesystem) (torrent : torrent_info)
    (path : string) (P : list bytes) (p : bytes) (tail : list (option bytes))
    (h : bytes) (hs : list bytes) :
  reachable fs (Posixpath.join path (name torrent)) ->
  yields (torrent_pieces fs torrent path) = map Some P ++ Some p :: tail ->
  piece_hashes torrent = map digest P ++ h :: hs ->
  h <> digest p ->
  verify_torrent_contents digest fs torrent path = Raises hash_mismatch.
Proof.
  intros Hroot Hstream Hhashes Hdiff.
  rewrite verify_reachable by trivial. unfold verify_pieces.
  rewrite Hstream, Hhashes, compare_pieces_matching.
  cbn [compare_pieces]. unfold compare_digest.
  destruct (bytes_eqb h (digest p)) eqn:E; trivial.
  apply bytes_eqb_eq in E. contradiction.
Qed.

(** C1 (amended): in a multi-file torrent, when a listed file cannot be
    sized, the files listed before it are readable, the full pieces they
    make up hash to their stored digests and one more digest is stored,
    verification raises [VerificationError('Unable to get hash for piece')],
    which names no path; it neither returns normally nor reports a hash
    mismatch. *)
Theorem C1_missing_file_reported (fs : filesystem) (torrent : torrent_info)
    (path : string) (fl : list (list string))
    (pre : list string) (missing : string) (post : list string)
    (contents : list bytes) (P : list bytes) (r : bytes)
    (h : bytes) (hs : list bytes) :
  let base := Posixpath.join path (name torrent) in
  files torrent = Some fl ->
  map (String.concat "/") fl = pre ++ missing :: post ->
  0 < piece_length torrent ->
  reachable fs base ->
  all_hold fs base pre contents ->
  os_stat fs (Posixpath.join base missing) = None ->
  concat contents = concat P ++ r ->
  Forall (fun y => len y = piece_length torrent) P ->
  len r < piece_length torrent ->
  piece_hashes torrent = map digest P ++ h :: hs ->
  verify_torrent_contents digest fs torrent path = Raises unable_to_hash.
Proof.
  intros base Hfiles Hnames Hpl Hroot Hpre Hstat Hsplit Hfull Hr Hhashes.
  rewrite verify_reachable by trivial.
  unfold verify_pieces, torrent_pieces, torrent_filenames.
  rewrite Hfiles, Hnames, Hhashes. fold base.
  unfold _get_torrent_pieces.
  replace (piece_length torrent)
    with (piece_length torrent - len (@nil byte)) at 2
    by (unfold len; simpl; lia).
  destruct (pieces_from_app fs base (piece_length torrent) Hpl pre contents Hpre
              (missing :: post) [] None)
    as (ys & buf' & size' & Hrun & Hlt & Hys & Hcat);
    [unfold len; simpl; lia|].
  rewrite Hrun. simpl in Hcat. rewrite Hsplit in Hcat.
  destruct (full_split_unique (Z.to_nat (piece_length torrent)) P ys r buf')
    as [<- _]; trivial.
  { eapply Forall_impl; [|exact Hfull]. unfold len. intros; lia. }
  { unfold len in Hr. lia. }
  { unfold len in Hlt. lia. }
  cbn [pieces_from]. rewrite Hstat.
  unfold emit, yields, finish. cbn [fst snd].
  rewrite compare_pieces_matching. reflexivity.
Qed.

(** What [zip(piece_hashes, pieces)] compares: the number of streamed pieces
    is never set against the number of stored digests. When every listed
    file is readable the verifier returns normally exactly when each
    position that has both a digest and a piece matches, so digests without
    a piece and pieces without a digest go unnoticed; the only failure it
    can report is a hash mismatch. *)
Theorem counts_not_compared (fs : filesystem) (torrent : torrent_info)
    (path : string) (contents : list bytes) :
  let ps := _chunks (concat contents) (Z.to_nat (piece_length torrent)) in
  let hs := piece_hashes torrent in
  0 < piece_length torrent ->
  reachable fs (Posixpath.join path (name torrent)) ->
  all_hold fs (snd (torrent_filenames torrent path))
    (fst (torrent_filenames torrent path)) contents ->
  (verify_torrent_contents digest fs torrent path = Returns <->
   forall i, (i < length hs)%nat -> (i < length ps)%nat ->
             nth i hs [] = digest (nth i ps []))
  /\ (verify_torrent_contents digest fs torrent path = Returns \/
      verify_torrent_contents digest fs torrent path = Raises hash_mismatch).
Proof.
  intros ps hs Hpl Hroot Hall.
  rewrite verify_reachable by trivial.
  unfold verify_pieces, torrent_pieces.
  destruct (torrent_filenames torrent path) as [filenames base].
  cbn [fst snd] in Hall.
  rewrite (get_torrent_pieces_chunks fs base _ Hpl filenames contents Hall).
  unfold yields, finish. cbn [fst snd].
  destruct (compare_pieces_stopped (piece_hashes torrent)
              (_chunks (concat contents) (Z.to_nat (piece_length torrent))))
    as [Hcases Hiff].
  split; trivial.
Qed.

(** X4: a mutation confined to one piece: the files on disk hold the bytes the
    digests were made from, except that the piece after the full pieces [P]
    reads [p'] instead of [p]. Provided the digest tells [p'] from [p],
    verification fails with the hash-mismatch error when that piece is
    compared, the pieces [P] before it having been accepted. *)
Lemma mutation_confined_to_piece (fs : filesystem) (torrent : torrent_info)
    (path : string) (contents : list bytes) (P : list bytes)
    (p p' rest : bytes) :
  let pl := piece_length torrent in
  0 < pl ->
  reachable fs (Posixpath.join path (name torrent)) ->
  all_hold fs (snd (torrent_filenames torrent path))
    (fst (torrent_filenames torrent path)) contents ->
  concat contents = concat P ++ p' ++ rest ->
  Forall (fun y => len y = pl) P ->
  len p' = pl \/ (rest = [] /\ 0 < len p' < pl) ->
  piece_hashes torrent = map digest (P ++ p :: _chunks rest (Z.to_nat pl)) ->
  digest p' <> digest p ->
  verify_torrent_contents digest fs torrent path = Raises hash_mismatch.
Proof.
  intros pl Hpl Hroot Hall Hdisk Hfull Hshape Hhashes Hdiff.
  unfold pl in *. clear pl.
  rewrite verify_reachable by trivial.
  unfold verify_pieces, torrent_pieces.
  destruct (torrent_filenames torrent path) as [filenames base].
  cbn [fst snd] in Hall.
  rewrite (get_torrent_pieces_chunks fs base _ Hpl filenames contents Hall).
  unfold yields, finish. cbn [fst snd].
  assert (0 < Z.to_nat (piece_length torrent))%nat as Hn by lia.
  assert (exists tail, _chunks (concat contents) (Z.to_nat (piece_length torrent))
                       = P ++ p' :: tail) as [tail ->].
  { rewrite Hdisk, chunks_prefix; trivial.
    - destruct Hshape as [Hp | [-> Hp]].
      + exists (_chunks rest (Z.to_nat (piece_length torrent))).
        rewrite chunks_full_app; trivial. unfold len in Hp. lia.
      + exists []. rewrite app_nil_r, chunks_short; trivial.
        unfold len in Hp. lia.
    - eapply Forall_impl; [|exact Hfull]. unfold len. cbn beta. intros; lia. }
  rewrite Hhashes, !map_app. cbn [map].
  rewrite compare_pieces_matching. cbn [compare_pieces].
  unfold compare_digest. destruct (bytes_eqb (digest p) (digest p')) eqn:E; trivial.
  apply bytes_eqb_eq in E. congruence.
Qed.

End Facts.

End Verifier.

(** * Concrete verification runs, with SHA-1 as the digest *)

Module Scenarios.

Import Util UtilFacts Torrent Streamer Verifier.

Local Open Scope string_scope.

Definition sha1 := Sha1.sha1.

(** A multi-file torrent [t] with one four-byte file [a] in two-byte pieces;
    the digests are those of ["ab"] and ["cd"]. *)
Definition one_file : torrent_info :=
  mk_torrent "t" 2 (sha1 (b "ab") ++ sha1 (b "cd")) (Some [["a"]]).

Definition on_disk (a : string) : filesystem :=
  fs_of [("/d/t", directory); ("/d/t/a", regular (b a))].

Example one_file_intact :
  verify_torrent_contents sha1 (on_disk "abcd") one_file "/d" = Returns.
Proof. vm_compute. reflexivity. Qed.

Lemma C3_first_mismatch_witness :
  verify_torrent_contents sha1 (on_disk "abxd") one_file "/d"
  = Raises hash_mismatch.
Proof.
  apply (C3_first_mismatch sha1 (on_disk "abxd") one_file "/d"
           [b "ab"] (b "xd") [] (sha1 (b "cd")) []).
  - left. reflexivity.
  - vm_compute. reflexivity.
  - vm_compute. reflexivity.
  - vm_compute. discriminate.
Defined.

(** C3 as stated fails: the error raised for a corrupted piece 0 and the
    one raised for a corrupted piece 1 are the same value, so no piece index
    can be read off the failure. *)
Lemma C3_error_has_no_piece_index :
  ~ exists piece_index : outcome -> option nat,
      piece_index (verify_torrent_contents sha1 (on_disk "xbcd") one_file "/d")
        = Some 0%nat
      /\ piece_index (verify_torrent_contents sha1 (on_disk "abxd") one_file "/d")
        = Some 1%nat.
Proof.
  intros [piece_index [H0 H1]].
  assert (verify_torrent_contents sha1 (on_disk "xbcd") one_file "/d"
          = Raises hash_mismatch) as E0 by (vm_compute; reflexivity).
  assert (verify_torrent_contents sha1 (on_disk "abxd") one_file "/d"
          = Raises hash_mismatch) as E1 by (vm_compute; reflexivity).
  rewrite E0 in H0. rewrite E1 in H1. congruence.
Qed.

(** C5 at content truncated to its first piece: one piece is streamed
    against two stored digests, the digest that has no piece is dropped by
    [zip], and verification returns normally although the content is
    shorter than the metadata says. *)
Lemma C5_truncated_content_verifies :
  length (yields (torrent_pieces (on_disk "ab") one_file "/d")) = 1%nat
  /\ length (piece_hashes one_file) = 2%nat
  /\ verify_torrent_contents sha1 (on_disk "ab") one_file "/d" = Returns.
Proof. vm_compute. repeat split; reflexivity. Qed.

Lemma counts_not_compared_witness :
  verify_torrent_contents sha1 (on_disk "abcdef") one_file "/d" = Returns \/
  verify_torrent_contents sha1 (on_disk "abcdef") one_file "/d"
  = Raises hash_mismatch.
Proof.
  apply (counts_not_compared sha1 (on_disk "abcdef") one_file "/d"
           [b "abcdef"]).
  - reflexivity.
  - left. reflexivity.
  - repeat constructor.
Defined.

(** A torrent of two files, [a] of two bytes and an empty [b]; one piece. *)
Definition with_empty_file : torrent_info :=
  mk_torrent "t" 2 (sha1 (b "ab")) (Some [["a"]; ["b"]]).

(** Two files of two bytes each; two pieces. *)
Definition two_pieces : torrent_info :=
  mk_torrent "t" 2 (sha1 (b "ab") ++ sha1 (b "cd")) (Some [["a"]; ["b"]]).

Definition only_a : filesystem :=
  fs_of [("/d/t", directory); ("/d/t/a", regular (b "ab"))].

Definition only_b : filesystem :=
  fs_of [("/d/t", directory); ("/d/t/b", regular (b "cd"))].

(** C1 as stated fails: with the listed file [b] deleted the verifier
    returns normally once the digests are used up; and deleting [a] or
    deleting [b] from the two-piece torrent raises the very same error, which
    therefore names neither path. *)
Lemma C1_missing_file_unreported :
  (os_stat only_a "/d/t/b" = None
   /\ verify_torrent_contents sha1 only_a with_empty_file "/d" = Returns)
  /\ (os_stat only_b "/d/t/a" = None
      /\ os_stat only_a "/d/t/b" = None
      /\ verify_torrent_contents sha1 only_b two_pieces "/d"
         = verify_torrent_contents sha1 only_a two_pieces "/d").
Proof. vm_compute. repeat split; reflexivity. Qed.

Lemma C1_missing_file_reported_witness :
  verify_torrent_contents sha1 only_a two_pieces "/d" = Raises unable_to_hash.
Proof.
  apply (C1_missing_file_reported sha1 only_a two_pieces "/d"
           [["a"]; ["b"]] ["a"] "b" [] [b "ab"] [b "ab"] []
           (sha1 (b "cd")) []).
  - reflexivity.
  - reflexivity.
  - reflexivity.
  - left. reflexivity.
  - repeat constructor.
  - reflexivity.
  - reflexivity.
  - repeat constructor.
  - reflexivity.
  - vm_compute. reflexivity.
Defined.

End Scenarios.

(** * Single-file torrents against one-element multi-file torrents *)

Module SingleFile.

Import Util UtilFacts Torrent Streamer Verifier.

Local Open Scope string_scope.

Section Agreement.

Variable digest : bytes -> bytes.

(** X7: when joining the caller's path in front of the already joined
    [path/name] changes nothing (an absolute [path] or [name]), a
    single-file torrent whose file holds [nd] and a one-element multi-file
    torrent whose only file holds the same [nd] verify alike. *)
Lemma single_multi_agree (fs1 fs2 : filesystem) (path nm : string)
    (pl : Z) (pcs : bytes) (seg : list string) (nd : fnode) (c : bytes) :
  let file := Posixpath.join path nm in
  Posixpath.join path file = file ->
  content nd = Some c ->
  fs1 file = Some nd ->
  isdir fs2 file = true ->
  fs2 (Posixpath.join file (String.concat "/" seg)) = Some nd ->
  verify_torrent_contents digest fs1 (mk_torrent nm pl pcs None) path =
  verify_torrent_contents digest fs2 (mk_torrent nm pl pcs (Some [seg])) path.
Proof.
  intros file Hjoin Hc H1 Hdir H2.
  rewrite !verify_reachable.
  - unfold verify_pieces, torrent_pieces, torrent_filenames, piece_hashes.
    cbn [files name piece_length pieces map]. fold file.
    unfold _get_torrent_pieces. cbn [pieces_from].
    rewrite Hjoin. unfold os_stat, os_open. rewrite H1, H2.
    destruct nd as [sz ct d]. cbn [content] in Hc. subst ct.
    cbn [option_map st_size content]. reflexivity.
  - left. exact Hdir.
  - right. exists c. cbn [name]. fold file. unfold os_open. now rewrite H1.
Qed.

End Agreement.

Definition sha1 := Sha1.sha1.

Definition digests : bytes := sha1 (b "ab") ++ sha1 (b "cd").

Definition single : torrent_info := mk_torrent "f.bin" 2 digests None.

Definition multi : torrent_info := mk_torrent "f.bin" 2 digests (Some [["x"]]).

(** The same four bytes, once as the file [root/f.bin] and once as the file
    [root/f.bin/x]. *)
Definition single_disk (root : string) : filesystem :=
  fs_of [(root, directory); (root ++ "/f.bin", regular (b "abcd"))].

Definition multi_disk (root : string) : filesystem :=
  fs_of [(root, directory); (root ++ "/f.bin", directory);
         (root ++ "/f.bin/x", regular (b "abcd"))].

Example absolute_root_agrees :
  verify_torrent_contents sha1 (single_disk "/data") single "/data" = Returns
  /\ verify_torrent_contents sha1 (multi_disk "/data") multi "/data" = Returns.
Proof. vm_compute. split; reflexivity. Qed.

Example relative_root_file_name :
  torrent_filenames single "data" = (["data/f.bin"], "data")
  /\ Posixpath.join "data" "data/f.bin" = "data/data/f.bin".
Proof. vm_compute. split; reflexivity. Qed.

(** C8 at a relative verification root: the single-file torrent is streamed
    from [data/data/f.bin], which does not exist, and fails although its
    content is intact, while the equivalent one-element multi-file torrent
    verifies. *)
Theorem C8_relative_root_diverges :
  verify_torrent_contents sha1 (single_disk "data") single "data"
    = Raises unable_to_hash
  /\ verify_torrent_contents sha1 (multi_disk "data") multi "data" = Returns.
Proof. vm_compute. split; reflexivity. Qed.

End SingleFile.

(** * [xirvik/sftp.py]: the SFTP client *)

Module Sftp.

(** [paramiko.SFTPAttributes] as returned by [listdir_attr]. *)
Record SFTPAttributes : Type := mk_attr {
  filename : string;
  st_mode : Z;
  st_size : Z;
  st_atime : Z;
  st_mtime : Z
}.

(** What [self.client.listdir_attr(path)] does: it returns the entries of
    [path], or raises ([IOError] when [path] is not a directory, cannot be
    read or has vanished; [SFTPError], [socket.timeout] or another
    exception when the transport fails). *)
Inductive listed (A : Type) : Type :=
| Lists (entries : list A)
| Fails (e : pyexc).

Arguments Lists {A} entries.
Arguments Fails {A} e.

(** The remote tree as the server shows it: every entry carries what
    [self.client.listdir_attr] does for its path. *)
#[local] Set Warnings "-register-all".

Inductive remote : Type :=
| Entry (da : SFTPAttributes) (listing : listed remote).

(** [0o700] *)
Definition S_IRWXU : Z := 448.

(** [da.st_mode & 0o700 == 0o700] *)
Definition is_dir (da : SFTPAttributes) : bool :=
  Z.land (st_mode da) S_IRWXU =? S_IRWXU.

(** Run [t1], then [t2] unless [t1] raised. *)
Definition and_then {A} (t1 t2 : trace A) : trace A :=
  match finish t1 with
  | Stopped => emit (yields t1) t2
  | Raised _ => t1
  end.

(** [isinstance(e, IOError)]; [socket.timeout] is a subclass of
    [IOError]. *)
Definition is_ioerror (e : pyexc) : bool :=
  match e with
  | IOError _ | SocketTimeout => true
  | _ => false
  end.

(** The [try: ... except IOError as e: if self.raise_exceptions: raise e]
    around the recursive call. *)
Definition guard_io {A} (raise_exceptions : bool) (t : trace A) : trace A :=
  match finish t with
  | Raised e =>
      if is_ioerror e
      then if raise_exceptions then t else (yields t, Stopped)
      else t
  | Stopped => t
  end.

(** One iteration of the [for da in ...:] loop of [listdir_attr_recurse]
    at directory [path]; the nested [fix] is the loop of the recursive call
    over the listing of [path/filename]. *)
Fixpoint visit (raise_exceptions : bool) (path : string) (e : remote)
    : trace (string * SFTPAttributes) :=
  match e with
  | Entry da listing =>
      let sub := Posixpath.join path (filename da) in
      if is_dir da then
        guard_io raise_exceptions
          match listing with
          | Fails e => ([], Raised e)
          | Lists entries =>
              (fix each (l : list remote) : trace (string * SFTPAttributes) :=
                 match l with
                 | [] => ([], Stopped)
                 | e' :: l' => and_then (visit raise_exceptions sub e') (each l')
                 end) entries
          end
      else ([(sub, da)], Stopped)
  end.

Fixpoint visit_all (raise_exceptions : bool) (path : string)
    (l : list remote) : trace (string * SFTPAttributes) :=
  match l with
  | [] => ([], Stopped)
  | e :: l' =>
      and_then (visit raise_exceptions path e)
               (visit_all raise_exceptions path l')
  end.

(** [listdir_attr_recurse(path)] on a server where
    [self.client.listdir_attr(path)] does [listing]. *)
Definition listdir_attr_recurse (raise_exceptions : bool) (path : string)
    (listing : listed remote) : trace (string * SFTPAttributes) :=
  match listing with
  | Fails e => ([], Raised e)
  | Lists entries => visit_all raise_exceptions path entries
  end.

(** ** The local side of a mirror run *)

(** What the local disk holds at a path: a directory, a regular file that
    the process can open, or a regular file that [open(p, 'rb')] refuses
    (no read permission). *)
Inductive lnode : Type :=
| LDir
| LFile (size : Z)
| LUnreadable (size : Z).

Definition localfs := string -> option lnode.

Definition put (d : localfs) (p : string) (nd : lnode) : localfs :=
  fun q => if String.eqb q p then Some nd else d q.

Definition local_isdir (d : localfs) (p : string) : bool :=
  match d p with Some LDir => true | _ => false end.

(** [os.stat(p).st_size]; [None] when it raises [OSError]. *)
Definition local_size (d : localfs) (p : string) : option Z :=
  match d p with
  | Some (LFile s) => Some s
  | Some (LUnreadable s) => Some s
  | Some LDir => Some 4096
  | None => None
  end.

(** Whether [open(p, 'wb')] and [open(p, 'ab')] find a place for [p]: its
    directory exists (the empty directory name is the working directory)
    and [p] is not itself a directory. *)
Definition local_can_create (d : localfs) (p : string) : bool :=
  match Posixpath.dirname p with
  | EmptyString => true
  | dir => local_isdir d dir
  end && negb (local_isdir d p).

(** The file at [p] holds [size] bytes once it has been written; a file
    that was there keeps its permissions. *)
Definition written (d : localfs) (p : string) (size : Z) : localfs :=
  match d p with
  | Some (LUnreadable _) => put d p (LUnreadable size)
  | _ => put d p (LFile size)
  end.

(** [makedirs(p)]: creates [p] unless something is already there (the
    [OSError] is swallowed by the caller). *)
Definition makedirs (d : localfs) (p : string) : localfs :=
  match d p with
  | None => put d p LDir
  | Some _ => d
  end.

(** The class attribute [SFTPClient._dircache = []] is one list object
    shared by every instance; [self._dircache] reads the instance attribute
    when [clear_directory_cache] has bound one and the class attribute
    otherwise, and [append] mutates whichever list that is. *)
Record heap : Type := mk_heap {
  class_dircache : list string;
  instance_dircache : nat -> option (list string)
}.

Definition _dircache (h : heap) (self : nat) : list string :=
  match instance_dircache h self with
  | Some l => l
  | None => class_dircache h
  end.

Definition dircache_append (h : heap) (self : nat) (p : string) : heap :=
  match instance_dircache h self with
  | Some l =>
      mk_heap (class_dircache h)
        (fun i => if Nat.eqb i self then Some (l ++ [p])
                  else instance_dircache h i)
  | None => mk_heap (class_dircache h ++ [p]) (instance_dircache h)
  end.

(** [self._dircache = []] *)
Definition clear_directory_cache (h : heap) (self : nat) : heap :=
  mk_heap (class_dircache h)
    (fun i => if Nat.eqb i self then Some [] else instance_dircache h i).

(** The heap when the module has just been imported. *)
Definition fresh_heap : heap := mk_heap [] (fun _ => None).

Fixpoint mem (p : string) (l : list string) : bool :=
  match l with
  | [] => false
  | q :: l' => String.eqb p q || mem p l'
  end.

(** What the run does to the outside world, in order. [completed] tells
    whether the transfer call returned or raised. *)
Inductive event : Type :=
| Makedirs (dest_path : string)
| Get (remotepath dest : string) (completed : bool)
| Readv (remotepath dest : string) (read_tuples : list (Z * Z))
    (completed : bool)
| Reconnect
| Chmod (dest : string) (mode : Z)
| Utime (dest : string) (atime mtime : Z).

(** How one transfer attempt goes when the local disk as modelled lets it
    start: it completes, or the transfer call raises [e] ([socket.timeout],
    [SFTPError], or anything else: an [IOError] for a remote file that has
    vanished or a local file that may not be written, [EOFError], ...).
    [progress] is [None] when [e] is raised before the local file has been
    opened and [Some k] when [k] bytes had been written to it. [Stranded]
    is a fault after which the reconnect of the handler ([self._connect],
    [self.chdir]) raises [e']. *)
Inductive attempt : Type :=
| Completes
| Faults (e : pyexc) (progress : option Z)
| Stranded (e : pyexc) (progress : option Z) (e' : pyexc).

(** The exception of an attempt, the bytes written before it, and what the
    reconnect raises. *)
Definition fault (a : attempt) : option (pyexc * option Z * option pyexc) :=
  match a with
  | Completes => None
  | Faults e progress => Some (e, progress, None)
  | Stranded e progress e' => Some (e, progress, Some e')
  end.

(** The world a run acts on: the Python heap, the local disk, how the
    transfer attempts to come will go (all attempts beyond the list
    complete), and the log of what has been done. *)
Record world : Type := mk_world {
  objects : heap;
  disk : localfs;
  attempts : list attempt;
  log : list event
}.

Inductive result : Type :=
| Return (n : Z)
| Raise (e : pyexc).

End Sftp.

(** ** [SFTPClient.mirror] *)

Module Mirror.

Import Sftp.

Section Client.

(** [MAX_PACKET_SIZE = SFTPFile.MAX_REQUEST_SIZE], a constant of paramiko. *)
Variable MAX_PACKET_SIZE : Z.

(** [os.path.realpath] *)
Variable realpath : string -> string.

(** The fraction [a / b] times [2 ** t], as numerator and denominator. *)
Definition scaled (a b t : Z) : Z * Z :=
  if 0 <=? t then (a * 2 ^ t, b) else (a, b * 2 ^ (- t)).

(** The [t] for which [a / b * 2 ** t] has an integer part of 53 bits. *)
Definition exponent (a b : Z) : Z :=
  let t1 := 52 - Z.log2 a + Z.log2 b in
  if 2 ^ 52 <=? fst (scaled a b t1) / snd (scaled a b t1) then t1 else t1 + 1.

(** [a / b] for positive Python ints [a] and [b]: the double nearest to
    the quotient, ties to even, given as [(q, t)] for the value
    [q * 2 ** -t]. The sizes of SFTP and of the local disk are 64-bit
    numbers, far from the [OverflowError] of quotients of [2 ** 1024] and
    more. *)
Definition nearest_double (a b : Z) : Z * Z :=
  let t := exponent a b in
  let '(num, den) := scaled a b t in
  let q := num / den in
  let r := num mod den in
  (if (den <? 2 * r) || ((den =? 2 * r) && Z.odd q) then q + 1 else q, t).

(** [ceil(a / m)] with the true division of Python 3, for [m] other than
    0. *)
Definition ceil_div (a m : Z) : Z :=
  let sign := Z.sgn a * Z.sgn m in
  if sign =? 0 then 0
  else
    let '(q, t) := nearest_double (Z.abs a) (Z.abs m) in
    if 0 <? sign
    then if 0 <? t then - ((- q) / 2 ^ t) else q * 2 ^ (- t)
    else - (if 0 <? t then q / 2 ^ t else q * 2 ^ (- t)).

(** [for n in range(n_reads): read_tuples.append(...); offset += ...],
    started at loop index [i]. The loop variable is the function's [n]. *)
Fixpoint append_reads (count : nat) (i : Z) (resume_seek : Z)
    (read_tuples : list (Z * Z)) (offset n : Z) : list (Z * Z) * Z * Z :=
  match count with
  | O => (read_tuples, offset, n)
  | S count' =>
      append_reads count' (i + 1) resume_seek
        (read_tuples ++ [(resume_seek + offset, MAX_PACKET_SIZE)])
        (offset + MAX_PACKET_SIZE) i
  end.

(** The read windows of a resumed transfer (the lines from
    [read_tuples = []] to the final [append]) and the value [n] is left
    with. *)
Definition plan_reads (size resume_seek n : Z) : list (Z * Z) * Z :=
  let n_reads := ceil_div (size - resume_seek) MAX_PACKET_SIZE - 1 in
  let n_left := (size - resume_seek) mod MAX_PACKET_SIZE in
  let '(read_tuples, offset, n) :=
    append_reads (Z.to_nat n_reads) 0 resume_seek [] 0 n in
  (read_tuples ++ [(resume_seek + offset, n_left)], n).

(** Bytes a read of window [w] returns from a remote file of [size] bytes. *)
Definition delivered (size : Z) (w : Z * Z) : Z :=
  Z.max 0 (Z.min (snd w) (size - fst w)).

Definition total_delivered (size : Z) (ws : list (Z * Z)) : Z :=
  fold_right (fun w acc => delivered size w + acc) 0 ws.

(** [if resume_seek and resume:] *)
Definition resuming (resume_seek : option Z) (resume : bool) : option Z :=
  match resume_seek with
  | Some s => if negb (s =? 0) && resume then Some s else None
  | None => None
  end.

Definition append_size (d : localfs) (dest : string) (k : Z) : localfs :=
  match d dest with
  | Some (LFile s) => put d dest (LFile (s + k))
  | Some (LUnreadable s) => put d dest (LUnreadable (s + k))
  | Some LDir => d
  | None => put d dest (LFile k)
  end.

(** The state of the [while True:] loop: the locals [n], [resume_seek] and
    [dest], the local disk and the log. *)
Record frame : Type := mk_frame {
  n : Z;
  resume_seek : option Z;
  dest : string;
  fdisk : localfs;
  flog : list event
}.

(** The exceptions that [except (socket.timeout, SFTPError) as e:]
    catches. *)
Definition handled (e : pyexc) : bool :=
  match e with
  | SocketTimeout | SFTPError _ => true
  | _ => false
  end.

(** The [except (socket.timeout, SFTPError) as e:] handler; [reconnect] is
    what [self._connect(...)] and [self.chdir(cwd)] raise, if anything.
    [inr] when it leaves [mirror] with an exception. *)
Definition on_fault (resume : bool) (e : pyexc) (reconnect : option pyexc)
    (f : frame) : frame + (frame * pyexc) :=
  match local_size (fdisk f) (dest f) with
  | None => inr (f, IOError (dest f))
  | Some sz =>
      let f := mk_frame (n f) (Some (sz - 10)) (dest f) (fdisk f) (flog f) in
      if resume
      then
        let f := mk_frame (n f) (resume_seek f) (dest f) (fdisk f)
                   (flog f ++ [Reconnect]) in
        match reconnect with
        | None => inl f
        | Some e' => inr (f, e')
        end
      else inr (f, e)
  end.

(** How one iteration of the [while True:] loop ends: with [break] or an
    exception that leaves [mirror] ([used] tells whether the attempt took
    place on the wire), or at the end of the handler, for another
    iteration. *)
Inductive step : Type :=
| Leaves (f : frame) (exc : option pyexc) (used : bool)
| Again (f : frame).

(** An exception [e] raised inside the [try]: the handler takes it if it
    is one of its two classes, otherwise it leaves [mirror]. *)
Definition raised (resume : bool) (e : pyexc) (reconnect : option pyexc)
    (f : frame) : step :=
  if handled e then
    match on_fault resume e reconnect f with
    | inl f => Again f
    | inr (f, e) => Leaves f (Some e) true
    end
  else Leaves f (Some e) true.

(** One iteration of the [while True:] loop, with the attempt [a]. *)
Definition attempt_once (resume : bool) (_path : string)
    (info : SFTPAttributes) (a : attempt) (f : frame) : step :=
  match resuming (resume_seek f) resume with
  | Some s =>
      let '(read_tuples, n') := plan_reads (st_size info) s (n f) in
      let f := mk_frame n' (resume_seek f) (dest f) (fdisk f) (flog f) in
      let missed := flog f ++ [Readv _path (dest f) read_tuples false] in
      match fault a with
      | Some (e, None, reconnect) =>
          (* [self.client.open(_path)] raises *)
          raised resume e reconnect
            (mk_frame (n f) (resume_seek f) (dest f) (fdisk f) missed)
      | next =>
          if negb (local_can_create (fdisk f) (dest f)) then
            (* [open(dest, 'ab')] raises *)
            Leaves f (Some (IOError (dest f))) false
          else if s <? 0 then
            (* [f.seek(resume_seek)] with a negative offset *)
            Leaves (mk_frame (n f) (resume_seek f) (dest f)
                      (append_size (fdisk f) (dest f) 0) (flog f))
              (Some (IOError "Invalid argument")) false
          else
            match next with
            | Some (e, progress, reconnect) =>
                (* [rf.readv(read_tuples)] raises *)
                let k := match progress with Some k => k | None => 0 end in
                raised resume e reconnect
                  (mk_frame (n f) None (dest f)
                     (append_size (fdisk f) (dest f) k) missed)
            | None =>
                Leaves
                  (mk_frame (n f + 1) None (dest f)
                     (append_size (fdisk f) (dest f)
                        (total_delivered (st_size info) read_tuples))
                     (flog f ++ [Readv _path (dest f) read_tuples true]))
                  None true
            end
      end
  | None =>
      let dest := realpath (dest f) in
      if negb (local_can_create (fdisk f) dest) then
        (* [open(localpath, 'wb')] in [self.client.get] raises *)
        Leaves (mk_frame (n f) (resume_seek f) dest (fdisk f)
                  (flog f ++ [Get _path dest false]))
          (Some (IOError dest)) false
      else
        match fault a with
        | Some (e, progress, reconnect) =>
            (* [self.client.get(_path, dest)] raises *)
            let d := match progress with
                     | Some k => written (fdisk f) dest k
                     | None => fdisk f
                     end in
            raised resume e reconnect
              (mk_frame (n f) (resume_seek f) dest d
                 (flog f ++ [Get _path dest false]))
        | None =>
            Leaves
              (mk_frame (n f + 1) (resume_seek f) dest
                 (written (fdisk f) dest (st_size info))
                 (flog f ++ [Get _path dest true]))
              None true
        end
  end.

(** The [while True:] loop. Each iteration takes the head of [pending],
    unless the local side stops it before anything goes over the wire; the
    loop ends when an attempt completes or an exception leaves it. *)
Fixpoint transfer (resume : bool) (_path : string) (info : SFTPAttributes)
    (pending : list attempt) (f : frame)
    : frame * list attempt * option pyexc :=
  match pending with
  | [] =>
      match attempt_once resume _path info Completes f with
      | Leaves f exc _ => (f, [], exc)
      | Again f => (f, [], None) (* no fault, so no other iteration *)
      end
  | a :: pending' =>
      match attempt_once resume _path info a f with
      | Leaves f exc used => (f, if used then pending' else pending, exc)
      | Again f => transfer resume _path info pending' f
      end
  end.

(** The [try: if keep_modes: chmod(...) ...] after the transfer. *)
Definition restore (keep_modes keep_times : bool) (dest : string)
    (info : SFTPAttributes) : list event :=
  (if keep_modes then [Chmod dest (st_mode info)] else [])
  ++ (if keep_times then [Utime dest (st_atime info) (st_mtime info)] else []).

(** The function's locals that live across iterations of the outer loop. *)
Record locals : Type := mk_locals {
  count : Z;
  seek : option Z
}.

(** [if dest_path not in self._dircache:] with its body. *)
Definition ensure_directory (self : nat) (dest_path : string) (w : world)
    : world :=
  if negb (mem dest_path (_dircache (objects w) self)) then
    mk_world (dircache_append (objects w) self dest_path)
      (makedirs (disk w) dest_path) (attempts w)
      (log w ++ [Makedirs dest_path])
  else w.

(** The [except IOError:] branch: the [while True:] loop entered with
    [resume_seek = seek0], then the restoring of mode and times. *)
Definition download (keep_modes keep_times resume : bool)
    (_path : string) (info : SFTPAttributes) (dest : string)
    (l : locals) (seek0 : option Z) (w : world)
    : locals * world * option pyexc :=
  let '(mk_frame n' seek' dest' disk' log', pending, exc) :=
    transfer resume _path info (attempts w)
      (mk_frame (count l) seek0 dest (disk w) (log w)) in
  let lg :=
    match exc with
    | None => log' ++ restore keep_modes keep_times dest' info
    | Some _ => log'
    end in
  (mk_locals n' seek', mk_world (objects w) disk' pending lg, exc).

(** The body of [for _path, info in self.listdir_attr_recurse(path=path):]. *)
Definition mirror_entry (self : nat) (destroot : string)
    (keep_modes keep_times resume : bool)
    (entry : string * SFTPAttributes) (l : locals) (w : world)
    : locals * world * option pyexc :=
  let '(_path, info) := entry in
  if is_dir info then (l, w, None)
  else
    let dest_path := Posixpath.join destroot (Posixpath.dirname _path) in
    let dest := Posixpath.join dest_path (Posixpath.basename _path) in
    let w := ensure_directory self dest_path w in
    if local_isdir (disk w) dest then (l, w, None)
    else
      match disk w dest with
      | Some (LFile current_size) =>
          if negb (current_size =? st_size info)
          then download keep_modes keep_times resume _path info dest l
                 (Some current_size) w
          else
            (l, mk_world (objects w) (disk w) (attempts w)
                  (log w ++ restore keep_modes keep_times dest info), None)
      | _ => download keep_modes keep_times resume _path info dest l (seek l) w
      end.

Fixpoint mirror_loop (self : nat) (destroot : string)
    (keep_modes keep_times resume : bool)
    (entries : list (string * SFTPAttributes)) (fin : ending)
    (l : locals) (w : world) : world * result :=
  match entries with
  | [] =>
      match fin with
      | Stopped => (w, Return (count l))
      | Raised e => (w, Raise e)
      end
  | entry :: entries' =>
      match mirror_entry self destroot keep_modes keep_times resume entry l w with
      | (l, w, None) =>
          mirror_loop self destroot keep_modes keep_times resume entries' fin l w
      | (_, w, Some e) => (w, Raise e)
      end
  end.

(** [self.mirror(path, destroot, keep_modes, keep_times, resume)] on the
    client [self], whose server shows [listing] at [path]. *)
Definition mirror (self : nat) (raise_exceptions : bool)
    (listing : listed remote) (path destroot : string)
    (keep_modes keep_times resume : bool) (w : world) : world * result :=
  let t := listdir_attr_recurse raise_exceptions path listing in
  mirror_loop self destroot keep_modes keep_times resume
    (yields t) (finish t) (mk_locals 0 None) w.

End Client.

End Mirror.

(** * Properties of the remote lister *)

Module Lister.

Import Sftp.

(** Induction over the remote tree that reaches into the listings. *)
Fixpoint remote_tree_ind (P : remote -> Prop)
    (step : forall da listing,
        match listing with
        | Lists l => Forall P l
        | Fails _ => True
        end -> P (Entry da listing))
    (e : remote) : P e :=
  match e with
  | Entry da listing =>
      step da listing
        match listing with
        | Fails _ => I
        | Lists l =>
            (fix all (l : list remote) : Forall P l :=
               match l with
               | [] => Forall_nil P
               | x :: r => Forall_cons x (remote_tree_ind P step x) (all r)
               end) l
        end
  end.

(** The loop of the recursive call is [listdir_attr_recurse] one level
    down. *)
Lemma visit_eq (raise_exceptions : bool) (path : string)
    (da : SFTPAttributes) (listing : listed remote) :
  visit raise_exceptions path (Entry da listing) =
  if is_dir da then
    guard_io raise_exceptions
      (listdir_attr_recurse raise_exceptions
         (Posixpath.join path (filename da)) listing)
  else ([(Posixpath.join path (filename da), da)], Stopped).
Proof.
  cbn [visit]. destruct (is_dir da); trivial. f_equal.
  destruct listing as [entries|e]; trivial. cbn [listdir_attr_recurse].
  induction entries as [|e entries IH]; trivial.
  cbn [visit_all]. now rewrite <- IH.
Qed.

Lemma is_dir_mask (da : SFTPAttributes) :
  is_dir da = false <-> Z.land (st_mode da) 448 <> 448.
Proof. unfold is_dir, S_IRWXU. now rewrite Z.eqb_neq. Qed.

Definition plain (x : string * SFTPAttributes) : Prop := is_dir (snd x) = false.

Lemma yields_and_then {A} (P : A -> Prop) (t1 t2 : trace A) :
  Forall P (yields t1) -> Forall P (yields t2) ->
  Forall P (yields (and_then t1 t2)).
Proof.
  intros H1 H2. unfold and_then. destruct (finish t1); trivial.
  unfold emit, yields. cbn [fst]. apply Forall_app. now split.
Qed.

Lemma yields_guard_io {A} (re : bool) (t : trace A) :
  yields (guard_io re t) = yields t.
Proof.
  unfold guard_io. destruct (finish t) as [|e]; trivial.
  now destruct (is_ioerror e), re.
Qed.

Lemma visit_all_plain (re : bool) (l : list remote) :
  Forall (fun e => forall path, Forall plain (yields (visit re path e))) l ->
  forall path, Forall plain (yields (visit_all re path l)).
Proof.
  induction 1 as [|e l He _ IH]; intros path; cbn [visit_all].
  - constructor.
  - apply yields_and_then; [apply He | apply IH].
Qed.

(** Nothing that carries all three owner permission bits is ever yielded,
    at any depth. *)
Lemma visit_plain (re : bool) (e : remote) :
  forall path, Forall plain (yields (visit re path e)).
Proof.
  induction e as [da listing IH] using remote_tree_ind. intros path.
  rewrite visit_eq. destruct (is_dir da) eqn:Hd.
  - rewrite yields_guard_io.
    destruct listing as [entries|e]; cbn [listdir_attr_recurse].
    + now apply visit_all_plain.
    + constructor.
  - repeat constructor. exact Hd.
Qed.

Lemma listdir_attr_recurse_plain (re : bool) (path : string)
    (listing : listed remote) :
  Forall plain (yields (listdir_attr_recurse re path listing)).
Proof.
  destruct listing as [entries|e]; cbn [listdir_attr_recurse].
  - apply visit_all_plain. apply Forall_forall. intros e _. apply visit_plain.
  - constructor.
Qed.

End Lister.

(** * Properties of the mirror loop *)

Module MirrorFacts.

Import Sftp Mirror Lister.

(** Directories whose creation was attempted, in order. *)
Definition created (lg : list event) : list string :=
  flat_map (fun ev => match ev with Makedirs d => [d] | _ => [] end) lg.

(** Remote paths for which a transfer call was issued, in order. *)
Definition fetched (lg : list event) : list string :=
  flat_map (fun ev =>
              match ev with
              | Get rp _ _ => [rp]
              | Readv rp _ _ _ => [rp]
              | _ => []
              end) lg.

(** Number of transfer calls that ran to completion: one per file whose
    bytes were transferred. *)
Definition transferred (lg : list event) : Z :=
  len (filter (fun ev =>
                 match ev with
                 | Get _ _ c => c
                 | Readv _ _ _ c => c
                 | _ => false
                 end) lg).

Lemma created_app (a b : list event) : created (a ++ b) = created a ++ created b.
Proof. apply flat_map_app. Qed.

Lemma fetched_app (a b : list event) : fetched (a ++ b) = fetched a ++ fetched b.
Proof. apply flat_map_app. Qed.

Lemma transferred_app (a b : list event) :
  transferred (a ++ b) = transferred a + transferred b.
Proof. unfold transferred, len. rewrite filter_app, length_app. lia. Qed.

Lemma mem_In (p : string) (l : list string) : mem p l = true <-> In p l.
Proof.
  induction l as [|q l IH]; simpl; [split; [discriminate | tauto]|].
  rewrite orb_true_iff, IH, String.eqb_eq. split; intros [H|H]; auto.
Qed.

Lemma NoDup_app_fresh {A} (xs ys seen : list A) :
  NoDup xs -> NoDup ys -> Forall (fun y => ~ In y (seen ++ xs)) ys ->
  NoDup (xs ++ ys).
Proof.
  intros Hxs Hys Hfresh. induction Hxs as [|x xs Hx _ IH]; trivial.
  cbn [app]. constructor.
  - rewrite in_app_iff. intros [Hin | Hin]; [contradiction|].
    rewrite Forall_forall in Hfresh. apply (Hfresh x Hin).
    rewrite in_app_iff. right. now left.
  - apply IH. eapply Forall_impl; [|exact Hfresh].
    cbn beta. intros a Ha Hin. apply Ha.
    rewrite in_app_iff in *. destruct Hin as [Hin|Hin]; [now left|].
    right. now right.
Qed.

Lemma dircache_after_append (h : heap) (self : nat) (p : string) :
  _dircache (dircache_append h self p) self = _dircache h self ++ [p].
Proof.
  unfold _dircache, dircache_append.
  destruct (instance_dircache h self) as [l|] eqn:E; cbn [instance_dircache class_dircache].
  - now rewrite Nat.eqb_refl.
  - now rewrite E.
Qed.

Section Client.

Variable MAX_PACKET_SIZE : Z.
Variable realpath : string -> string.

Local Abbreviation attempt_once := (attempt_once MAX_PACKET_SIZE realpath).
Local Abbreviation transfer := (transfer MAX_PACKET_SIZE realpath).
Local Abbreviation download := (download MAX_PACKET_SIZE realpath).
Local Abbreviation mirror_entry := (mirror_entry MAX_PACKET_SIZE realpath).
Local Abbreviation mirror_loop := (mirror_loop MAX_PACKET_SIZE realpath).
Local Abbreviation mirror := (mirror MAX_PACKET_SIZE realpath).

(** What one run of the [while True:] loop adds to the log: transfer calls
    for [_path] and reconnects, and no directory creation. *)
Definition only_fetches (_path : string) (evs : list event) : Prop :=
  created evs = [] /\ Forall (eq _path) (fetched evs).

Lemma only_fetches_nil (_path : string) : only_fetches _path [].
Proof. split; constructor. Qed.

Lemma only_fetches_app (_path : string) (a b : list event) :
  only_fetches _path a -> only_fetches _path b -> only_fetches _path (a ++ b).
Proof.
  intros [Ha1 Ha2] [Hb1 Hb2]. split.
  - now rewrite created_app, Ha1, Hb1.
  - rewrite fetched_app. apply Forall_app. now split.
Qed.

(** The frame an iteration of the loop ends with. *)
Definition step_frame (s : step) : frame :=
  match s with
  | Leaves f _ _ => f
  | Again f => f
  end.

Lemma raised_log (resume : bool) (e : pyexc) (reconnect : option pyexc)
    (f : frame) :
  flog (step_frame (raised resume e reconnect f)) = flog f
  \/ flog (step_frame (raised resume e reconnect f)) = flog f ++ [Reconnect].
Proof.
  unfold raised, on_fault. destruct (handled e); [|now left].
  destruct (local_size (fdisk f) (dest f)); [|now left].
  destruct resume; [|now left].
  destruct reconnect; now right.
Qed.

Lemma raised_fetches (resume : bool) (e : pyexc) (reconnect : option pyexc)
    (f : frame) (_path : string) (base evs0 : list event) :
  flog f = base ++ evs0 -> only_fetches _path evs0 ->
  exists evs,
    flog (step_frame (raised resume e reconnect f)) = base ++ evs
    /\ only_fetches _path evs.
Proof.
  intros Hf Hevs0.
  destruct (raised_log resume e reconnect f) as [-> | ->]; rewrite Hf.
  - now exists evs0.
  - exists (evs0 ++ [Reconnect]). rewrite app_assoc. split; trivial.
    apply only_fetches_app; trivial. split; constructor.
Qed.

Lemma attempt_once_log (resume : bool) (_path : string)
    (info : SFTPAttributes) (a : attempt) (f : frame) :
  exists evs,
    flog (step_frame (attempt_once resume _path info a f)) = flog f ++ evs
    /\ only_fetches _path evs.
Proof.
  assert (only_fetches _path []) as Hnil by apply only_fetches_nil.
  assert (forall d ws c, only_fetches _path [Readv _path d ws c]) as Hreadv
    by (intros; split; repeat constructor).
  assert (forall d c, only_fetches _path [Get _path d c]) as Hget
    by (intros; split; repeat constructor).
  unfold attempt_once.
  destruct (resuming (resume_seek f) resume) as [s|].
  - destruct (plan_reads _ _ _ _) as [read_tuples n'].
    cbn [n resume_seek dest fdisk flog].
    assert (exists evs,
               flog f = flog f ++ evs /\ only_fetches _path evs) as Hstay
      by (exists []; now rewrite app_nil_r).
    destruct (fault a) as [[[e [k|]] reconnect]|];
      try (apply raised_fetches with (evs0 := [Readv _path (dest f) read_tuples false]);
           [reflexivity | now apply Hreadv]);
      destruct (local_can_create (fdisk f) (dest f)); cbn [negb step_frame flog];
      trivial; destruct (s <? 0); cbn [step_frame flog]; trivial.
    + apply raised_fetches with (evs0 := [Readv _path (dest f) read_tuples false]);
        [reflexivity | now apply Hreadv].
    + eexists. split; [reflexivity | now apply Hreadv].
  - destruct (local_can_create (fdisk f) (realpath (dest f)));
      cbn [negb step_frame flog].
    + destruct (fault a) as [[[e progress] reconnect]|].
      * apply raised_fetches with (evs0 := [Get _path (realpath (dest f)) false]);
          [reflexivity | apply Hget].
      * eexists. split; [reflexivity | apply Hget].
    + eexists. split; [reflexivity | apply Hget].
Qed.

(** Without a fault there is no other iteration. *)
Lemma attempt_once_completes (resume : bool) (_path : string)
    (info : SFTPAttributes) (a : attempt) (f : frame) :
  fault a = None ->
  exists f' exc used, attempt_once resume _path info a f = Leaves f' exc used.
Proof.
  intros Ha. unfold Mirror.attempt_once. rewrite Ha.
  destruct (resuming (resume_seek f) resume) as [s|].
  - destruct (plan_reads _ _ _ _) as [read_tuples n'].
    destruct (negb (local_can_create _ _)); [now eexists _, _, _|].
    destruct (s <? 0); now eexists _, _, _.
  - destruct (negb (local_can_create _ _)); now eexists _, _, _.
Qed.

(** Reasoning about the [while True:] loop by an invariant [inv] of the
    frame at the start of an iteration. *)
Lemma transfer_rule (resume : bool) (_path : string) (info : SFTPAttributes)
    (ok : attempt -> Prop) (inv : frame -> Prop)
    (post : frame -> option pyexc -> Prop) :
  ok Completes ->
  (forall a f, ok a -> inv f ->
               match attempt_once resume _path info a f with
               | Leaves f' exc _ => post f' exc
               | Again f' => inv f'
               end) ->
  forall pending f f' pending' exc,
    Forall ok pending -> inv f ->
    transfer resume _path info pending f = (f', pending', exc) ->
    post f' exc.
Proof.
  intros Hok Hstep. induction pending as [|a pending IH];
    intros f f' pending' exc Hall Hf; cbn [Mirror.transfer].
  - destruct (attempt_once_completes resume _path info Completes f eq_refl)
      as (f1 & exc1 & used & Heq).
    specialize (Hstep Completes f Hok Hf). rewrite Heq in *.
    now intros [= <- <- <-].
  - inversion Hall as [|? ? Ha Hrest]; subst.
    specialize (Hstep a f Ha Hf).
    destruct (attempt_once resume _path info a f) as [f1 exc1 used|f1].
    + now intros [= <- <- <-].
    + now apply IH.
Qed.


Lemma transfer_log (resume : bool) (_path : string) (info : SFTPAttributes)
    (pending : list attempt) :
  forall (f f' : frame) (pending' : list attempt) (exc : option pyexc),
    transfer resume _path info pending f = (f', pending', exc) ->
    exists evs, flog f' = flog f ++ evs /\ only_fetches _path evs.
Proof.
  induction pending as [|a pending IH]; intros f f' pending' exc;
    cbn [Mirror.transfer].
  - destruct (attempt_once_log resume _path info Completes f)
      as (evs & Hevs & Honly).
    destruct (attempt_once resume _path info Completes f) as [f1 exc1 used|f1];
      intros [= <- <- <-]; now exists evs.
  - destruct (attempt_once_log resume _path info a f) as (evs & Hevs & Honly).
    destruct (attempt_once resume _path info a f) as [f1 exc1 used|f1];
      cbn [step_frame] in Hevs.
    + intros [= <- <- <-]. now exists evs.
    + intros Hrun. destruct (IH _ _ _ _ Hrun) as (evs' & Hevs' & Honly').
      exists (evs ++ evs'). rewrite Hevs', Hevs, app_assoc. split; trivial.
      now apply only_fetches_app.
Qed.

Lemma restore_quiet (km kt : bool) (dest : string) (info : SFTPAttributes) :
  created (restore km kt dest info) = []
  /\ fetched (restore km kt dest info) = [].
Proof. destruct km, kt; split; reflexivity. Qed.

(** What the body of the outer loop adds for one entry: at most one
    directory creation, for a path that was not cached and is cached
    afterwards, and transfer calls for that entry only. *)
Definition entry_effect (self : nat) (_path : string) (w w' : world)
    (evs : list event) : Prop :=
  log w' = log w ++ evs
  /\ _dircache (objects w') self = _dircache (objects w) self ++ created evs
  /\ (created evs = [] \/
      exists d, created evs = [d] /\ ~ In d (_dircache (objects w) self))
  /\ Forall (eq _path) (fetched evs).

Lemma entry_effect_nil (self : nat) (_path : string) (w : world) :
  entry_effect self _path w w [].
Proof.
  unfold entry_effect. rewrite !app_nil_r. repeat split; auto; constructor.
Qed.

Lemma ensure_directory_effect (self : nat) (_path d : string) (w : world) :
  exists evs, entry_effect self _path w (ensure_directory self d w) evs
              /\ fetched evs = [].
Proof.
  unfold ensure_directory.
  destruct (mem d (_dircache (objects w) self)) eqn:Hmem; cbn [negb].
  - exists []. split; [apply entry_effect_nil | reflexivity].
  - exists [Makedirs d]. split; [|reflexivity].
    unfold entry_effect. cbn [log objects].
    rewrite dircache_after_append. repeat split.
    + right. exists d. split; trivial.
      rewrite <- mem_In, Hmem. discriminate.
    + constructor.
Qed.

Lemma download_effect (km kt resume : bool) (_path : string)
    (info : SFTPAttributes) (dest : string) (l : locals) (seek0 : option Z)
    (w : world) :
  forall l' w' exc,
    download km kt resume _path info dest l seek0 w = (l', w', exc) ->
    exists evs, log w' = log w ++ evs /\ objects w' = objects w
                /\ only_fetches _path evs.
Proof.
  intros l' w' exc. unfold Mirror.download.
  destruct (transfer resume _path info (attempts w) _)
    as [[[n' seek' dest' disk' log'] pending] exc0] eqn:Hrun.
  apply transfer_log in Hrun as (evs & Hevs & Honly). cbn [flog] in Hevs.
  intros [= <- <- <-]. cbn [log objects].
  destruct (restore_quiet km kt dest' info) as [Hc Hf].
  destruct exc0.
  - exists evs. auto.
  - exists (evs ++ restore km kt dest' info). rewrite Hevs, app_assoc.
    split; [trivial|]. split; [trivial|].
    apply only_fetches_app; trivial. split; [trivial|]. rewrite Hf. constructor.
Qed.

Lemma mirror_entry_effect (self : nat) (destroot : string)
    (km kt resume : bool) (_path : string) (info : SFTPAttributes)
    (l : locals) (w : world) :
  forall l' w' exc,
    mirror_entry self destroot km kt resume (_path, info) l w = (l', w', exc) ->
    exists evs, entry_effect self _path w w' evs
                /\ (is_dir info = true -> evs = []).
Proof.
  intros l' w' exc. unfold Mirror.mirror_entry.
  destruct (is_dir info) eqn:Hdir.
  { intros [= <- <- <-]. exists []. split; [apply entry_effect_nil | trivial]. }
  set (dest_path := Posixpath.join destroot (Posixpath.dirname _path)).
  set (dest := Posixpath.join dest_path (Posixpath.basename _path)).
  destruct (ensure_directory_effect self _path dest_path w)
    as (evs0 & (Hlog0 & Hcache0 & Hnew0 & Hfetch0) & Hquiet0).
  set (w1 := ensure_directory self dest_path w) in *.
  assert (forall evs1,
             log w' = log w1 ++ evs1 -> objects w' = objects w1 ->
             only_fetches _path evs1 ->
             exists evs, entry_effect self _path w w' evs
                         /\ (false = true -> evs = [])) as Hrest.
  { intros evs1 Hlog1 Hobj1 [Hc1 Hf1]. exists (evs0 ++ evs1).
    split; [|discriminate]. unfold entry_effect.
    rewrite Hlog1, Hlog0, Hobj1, Hcache0, created_app, Hc1, app_nil_r,
      fetched_app, Hquiet0, app_assoc.
    repeat split; trivial. }
  destruct (local_isdir (disk w1) dest).
  { intros [= <- <- <-]. apply (Hrest []).
    - now rewrite app_nil_r.
    - reflexivity.
    - apply only_fetches_nil. }
  destruct (disk w1 dest) as [[|current_size|current_size]|].
  - intros Hrun. apply download_effect in Hrun as (evs1 & H1 & H2 & H3).
    now apply (Hrest evs1).
  - destruct (negb (current_size =? st_size info)).
    + intros Hrun. apply download_effect in Hrun as (evs1 & H1 & H2 & H3).
      now apply (Hrest evs1).
    + intros [= <- <- <-]. cbn [log objects].
      apply (Hrest (restore km kt dest info)); trivial.
      destruct (restore_quiet km kt dest info) as [Hc Hf].
      split; [trivial|]. rewrite Hf. constructor.
  - intros Hrun. apply download_effect in Hrun as (evs1 & H1 & H2 & H3).
    now apply (Hrest evs1).
  - intros Hrun. apply download_effect in Hrun as (evs1 & H1 & H2 & H3).
    now apply (Hrest evs1).
Qed.

(** The effect of the whole loop over [entries]. *)
Definition run_effect (self : nat) (entries : list (string * SFTPAttributes))
    (w w' : world) (evs : list event) : Prop :=
  log w' = log w ++ evs
  /\ _dircache (objects w') self = _dircache (objects w) self ++ created evs
  /\ NoDup (created evs)
  /\ Forall (fun d => ~ In d (_dircache (objects w) self)) (created evs)
  /\ Forall (fun rp => exists da, In (rp, da) entries /\ is_dir da = false)
       (fetched evs).

Lemma run_effect_nil (self : nat) (entries : list (string * SFTPAttributes))
    (w : world) : run_effect self entries w w [].
Proof.
  unfold run_effect. rewrite !app_nil_r. repeat split; constructor.
Qed.

Lemma mirror_loop_effect (self : nat) (destroot : string)
    (km kt resume : bool) (entries : list (string * SFTPAttributes))
    (fin : ending) :
  forall (l : locals) (w : world),
    exists evs,
      run_effect self entries w
        (fst (mirror_loop self destroot km kt resume entries fin l w)) evs.
Proof.
  induction entries as [|[_path info] entries IH]; intros l w;
    cbn [Mirror.mirror_loop].
  - exists []. destruct fin; apply run_effect_nil.
  - destruct (mirror_entry self destroot km kt resume (_path, info) l w)
      as [[l1 w1] exc] eqn:Hentry.
    apply mirror_entry_effect in Hentry
      as (evs1 & (Hlog1 & Hcache1 & Hnew1 & Hfetch1) & Hskip).
    assert (Forall (fun rp => exists da, In (rp, da) ((_path, info) :: entries)
                                         /\ is_dir da = false) (fetched evs1))
      as Hfetched1.
    { destruct (is_dir info) eqn:Hdir.
      - rewrite (Hskip eq_refl). constructor.
      - eapply Forall_impl; [|exact Hfetch1].
        intros rp <-. exists info. split; [now left | trivial]. }
    assert (NoDup (created evs1)
            /\ Forall (fun d => ~ In d (_dircache (objects w) self))
                 (created evs1)) as [Hnd1 Hfresh1].
    { destruct Hnew1 as [-> | (d & -> & Hd)].
      - split; constructor.
      - split; repeat constructor; auto. }
    destruct exc as [e|].
    + cbn [fst]. exists evs1. unfold run_effect. auto.
    + destruct (IH l1 w1) as (evs2 & Hlog2 & Hcache2 & Hnd2 & Hfresh2 & Hfetch2).
      exists (evs1 ++ evs2). unfold run_effect.
      rewrite Hlog2, Hlog1, Hcache2, Hcache1, created_app, fetched_app,
        <- !app_assoc.
      repeat split; trivial.
      * (* no directory is created twice *)
        apply (NoDup_app_fresh _ _ (_dircache (objects w) self)); trivial.
        now rewrite <- Hcache1.
      * apply Forall_app. split; trivial.
        eapply Forall_impl; [|exact Hfresh2].
        cbn beta. intros a Ha Hin. apply Ha.
        rewrite Hcache1, in_app_iff. now left.
      * apply Forall_app. split; trivial.
        eapply Forall_impl; [|exact Hfetch2].
        cbn beta. intros rp (da & Hin & Hda). exists da.
        split; [now right | trivial].
Qed.

(** *** The returned count when resuming is disabled *)

Lemma resuming_disabled (seek0 : option Z) : resuming seek0 false = None.
Proof.
  unfold resuming. destruct seek0 as [s|]; trivial.
  now rewrite andb_false_r.
Qed.

Lemma transferred_restore (km kt : bool) (dest : string)
    (info : SFTPAttributes) : transferred (restore km kt dest info) = 0.
Proof. destruct km, kt; reflexivity. Qed.

Lemma attempt_once_fresh_count (_path : string) (info : SFTPAttributes)
    (a : attempt) (f : frame) :
  match attempt_once false _path info a f with
  | Leaves f' None _ =>
      n f' - transferred (flog f') = n f - transferred (flog f)
  | Leaves _ (Some _) _ => True
  | Again _ => False
  end.
Proof.
  unfold Mirror.attempt_once. rewrite resuming_disabled.
  destruct (local_can_create (fdisk f) (realpath (dest f))); cbn [negb];
    trivial.
  destruct (fault a) as [[[e progress] reconnect]|].
  - unfold raised, on_fault. destruct (handled e); trivial.
    cbn [fdisk dest]. now destruct (local_size _ _).
  - cbn [n flog]. rewrite transferred_app.
    change (transferred [Get _path (realpath (dest f)) true]) with 1. lia.
Qed.

Lemma transfer_fresh_count (_path : string) (info : SFTPAttributes)
    (pending : list attempt) (f : frame) :
  forall f' pending',
    transfer false _path info pending f = (f', pending', None) ->
    n f' - transferred (flog f') = n f - transferred (flog f).
Proof.
  intros f' pending'.
  destruct pending as [|a pending]; cbn [Mirror.transfer].
  - pose proof (attempt_once_fresh_count _path info Completes f) as H.
    destruct (attempt_once false _path info Completes f)
      as [f1 [e|] used|f1]; [intros [=] | | contradiction].
    now intros [= <- <-].
  - pose proof (attempt_once_fresh_count _path info a f) as H.
    destruct (attempt_once false _path info a f)
      as [f1 [e|] used|f1]; [intros [=] | | contradiction].
    now intros [= <- <-].
Qed.

Lemma download_fresh_count (km kt : bool) (_path : string)
    (info : SFTPAttributes) (target : string) (l : locals) (seek0 : option Z)
    (w : world) :
  forall l' w',
    download km kt false _path info target l seek0 w = (l', w', None) ->
    count l' - transferred (log w') = count l - transferred (log w).
Proof.
  intros l' w'. unfold Mirror.download.
  destruct (transfer false _path info (attempts w) _)
    as [[[n' seek' dest' disk' log'] pending] exc] eqn:Hrun.
  intros [= <- <- ->]. apply transfer_fresh_count in Hrun.
  cbn [n flog] in Hrun. cbn [count log].
  rewrite transferred_app, transferred_restore. lia.
Qed.

Lemma ensure_directory_transferred (self : nat) (d : string) (w : world) :
  transferred (log (ensure_directory self d w)) = transferred (log w).
Proof.
  unfold ensure_directory. destruct (negb _); trivial.
  cbn [log]. rewrite transferred_app. change (transferred [Makedirs d]) with 0.
  lia.
Qed.

Lemma mirror_entry_fresh_count (self : nat) (destroot : string)
    (km kt : bool) (entry : string * SFTPAttributes) (l : locals) (w : world) :
  forall l' w',
    mirror_entry self destroot km kt false entry l w = (l', w', None) ->
    count l' - transferred (log w') = count l - transferred (log w).
Proof.
  intros l' w'. destruct entry as [_path info]. unfold Mirror.mirror_entry.
  destruct (is_dir info); [now intros [= <- <-]|].
  set (dest_path := Posixpath.join destroot (Posixpath.dirname _path)).
  set (dest := Posixpath.join dest_path (Posixpath.basename _path)).
  rewrite <- (ensure_directory_transferred self dest_path w).
  set (w1 := ensure_directory self dest_path w).
  destruct (local_isdir (disk w1) dest); [now intros [= <- <-]|].
  destruct (disk w1 dest) as [[|current_size|current_size]|];
    try apply download_fresh_count.
  destruct (negb (current_size =? st_size info));
    [apply download_fresh_count|].
  intros [= <- <-]. cbn [log].
  rewrite transferred_app, transferred_restore. lia.
Qed.

(** X12: with [resume=False] the value returned is the number of files
    transferred during the run. *)
Lemma mirror_counts_without_resume (self : nat) (re : bool)
    (listing : listed remote) (path destroot : string)
    (km kt : bool) (w w' : world) (n : Z) :
  mirror self re listing path destroot km kt false w = (w', Return n) ->
  n = transferred (log w') - transferred (log w).
Proof.
  unfold Mirror.mirror.
  generalize (yields (listdir_attr_recurse re path listing)) as entries.
  generalize (finish (listdir_attr_recurse re path listing)) as fin.
  intros fin entries.
  assert (forall l w0,
             mirror_loop self destroot km kt false entries fin l w0
             = (w', Return n) ->
             n - transferred (log w') = count l - transferred (log w0)) as Hloop.
  { induction entries as [|entry entries IH]; intros l w0;
      cbn [Mirror.mirror_loop].
    - destruct fin; intros [= <- <-]. lia.
    - destruct (mirror_entry self destroot km kt false entry l w0)
        as [[l1 w1] [e|]] eqn:Hentry; [intros [=]|].
      intros Hrun. apply IH in Hrun.
      apply mirror_entry_fresh_count in Hentry. lia. }
  intros Hrun. apply Hloop in Hrun. cbn [count] in Hrun. lia.
Qed.

(** *** Fresh start or resume *)

Lemma resuming_spec (seek0 : option Z) (resume : bool) (s : Z) :
  resuming seek0 resume = Some s <->
  seek0 = Some s /\ s <> 0 /\ resume = true.
Proof.
  unfold resuming. destruct seek0 as [s0|]; [|split; [discriminate | intros [[=] _]]].
  destruct (Z.eqb_spec s0 0) as [->|Hs]; destruct resume; cbn [negb andb];
    split; try discriminate; try (intros [[= <-] [H1 H2]]; congruence).
  intros [= <-]. auto.
Qed.

Lemma resuming_none (seek0 : option Z) :
  resuming seek0 true = None <-> seek0 = None \/ seek0 = Some 0.
Proof.
  unfold resuming. destruct seek0 as [s|]; [|intuition].
  destruct (Z.eqb_spec s 0) as [->|Hs]; cbn [negb andb].
  - intuition.
  - split; [discriminate|]. intros [[=]|[=]]. contradiction.
Qed.

Lemma attempt_once_offset (_path : string) (info : SFTPAttributes)
    (a : attempt) (f : frame) :
  match attempt_once true _path info a f with
  | Leaves f' None _ => resuming (resume_seek f') true = None
  | _ => True
  end.
Proof.
  assert (forall e reconnect f0,
             match raised true e reconnect f0 with
             | Leaves f' None _ => resuming (resume_seek f') true = None
             | _ => True
             end) as Hraised.
  { intros e reconnect f0. unfold raised, on_fault.
    destruct (handled e); trivial.
    destruct (local_size _ _); trivial. now destruct reconnect. }
  unfold Mirror.attempt_once.
  destruct (resuming (resume_seek f) true) as [s|] eqn:Hres.
  - destruct (plan_reads _ _ _ _) as [read_tuples n'].
    cbn [n resume_seek dest fdisk flog].
    destruct (fault a) as [[[e [k|]] reconnect]|]; try apply Hraised;
      destruct (local_can_create (fdisk f) (dest f)); cbn [negb]; trivial;
      destruct (s <? 0); trivial; apply Hraised.
  - destruct (local_can_create (fdisk f) (realpath (dest f))); cbn [negb];
      trivial.
    destruct (fault a) as [[[e progress] reconnect]|]; [apply Hraised|].
    exact Hres.
Qed.

(** A transfer that completes leaves [resume_seek] at [None] or [0]: the
    next file does not inherit an offset. *)
Lemma transfer_leaves_no_offset (_path : string) (info : SFTPAttributes)
    (pending : list attempt) :
  forall (f f' : frame) (pending' : list attempt),
    transfer true _path info pending f = (f', pending', None) ->
    resuming (resume_seek f') true = None.
Proof.
  intros f f' pending' Hrun.
  apply (transfer_rule true _path info (fun _ => True) (fun _ => True)
           (fun f' exc => exc = None -> resuming (resume_seek f') true = None))
    in Hrun; auto.
  2: { apply Forall_forall. auto. }
  intros a f0 _ _. pose proof (attempt_once_offset _path info a f0) as H.
  destruct (attempt_once true _path info a f0) as [f1 [e|] used|f1]; trivial.
  discriminate.
Qed.

(** X20: with [resume=True], an entry that is handled without an exception
    leaving [mirror] hands no resume offset on to the next entry, provided
    it inherited none: if [resume_seek] was [None] or [0] before the entry,
    it is [None] or [0] after it, so that [if resume_seek and resume:] does
    not take the next entry into the resume branch. *)
Lemma mirror_entry_leaves_no_offset (self : nat) (destroot : string)
    (km kt : bool) (entry : string * SFTPAttributes) (l : locals) (w : world) :
  forall l' w',
    seek l = None \/ seek l = Some 0 ->
    mirror_entry self destroot km kt true entry l w = (l', w', None) ->
    seek l' = None \/ seek l' = Some 0.
Proof.
  intros l' w' Hl. rewrite <- resuming_none in *. destruct entry as [_path info].
  unfold Mirror.mirror_entry, Mirror.download.
  destruct (is_dir info); [now intros [= <- <-]|].
  set (target := Posixpath.join _ (Posixpath.basename _path)).
  set (w1 := ensure_directory self _ w).
  destruct (local_isdir (disk w1) target); [now intros [= <- <-]|].
  assert (forall seek0,
             (let '(mk_frame n' seek' dest' disk' log', pending, exc) :=
                transfer true _path info (attempts w1)
                  (mk_frame (count l) seek0 target (disk w1) (log w1)) in
              (mk_locals n' seek',
               mk_world (objects w1) disk' pending
                 match exc with
                 | Some _ => log'
                 | None => log' ++ restore km kt dest' info
                 end, exc)) = (l', w', None) ->
             resuming (seek l') true = None) as Hdownload.
  { intros seek0.
    destruct (transfer true _path info (attempts w1) _)
      as [[[n' seek' dest' disk' log'] pending] exc] eqn:Hrun.
    intros [= <- <- ->]. cbn [seek].
    now apply transfer_leaves_no_offset in Hrun. }
  destruct (disk w1 target) as [[|current_size|current_size]|];
    try apply Hdownload.
  destruct (negb (current_size =? st_size info)); [apply Hdownload|].
  now intros [= <- <-].
Qed.

(** The attempt that comes next is not hit by a fault. *)
Definition next_completes (pending : list attempt) : Prop :=
  match pending with
  | a :: _ => fault a = None
  | [] => True
  end.

Lemma transfer_next_completes (resume : bool) (_path : string)
    (info : SFTPAttributes) (pending : list attempt) (f : frame) :
  next_completes pending ->
  transfer resume _path info pending f =
  match attempt_once resume _path info Completes f with
  | Leaves f' exc used => (f', if used then tl pending else pending, exc)
  | Again f' => (f', [], None)
  end.
Proof.
  destruct pending as [|a pending]; cbn [Mirror.transfer next_completes tl].
  - now destruct (attempt_once resume _path info Completes f) as [f1 exc []|].
  - intros Ha.
    assert (attempt_once resume _path info a f
            = attempt_once resume _path info Completes f) as ->.
    { unfold Mirror.attempt_once. now rewrite Ha. }
    destruct (attempt_once_completes resume _path info Completes f eq_refl)
      as (f1 & exc1 & used & ->). reflexivity.
Qed.



(** A destination of any other non-zero size is resumed at that size as
    soon as [resume] is set, also when it is longer than the remote file. *)
Lemma differing_destination_resumed (self : nat) (destroot : string)
    (km kt : bool) (_path : string) (info : SFTPAttributes)
    (l : locals) (w : world) (current_size : Z) :
  let dest_path := Posixpath.join destroot (Posixpath.dirname _path) in
  let target := Posixpath.join dest_path (Posixpath.basename _path) in
  let w1 := ensure_directory self dest_path w in
  let plan := plan_reads MAX_PACKET_SIZE (st_size info) current_size (count l) in
  is_dir info = false ->
  next_completes (attempts w) ->
  disk w1 target = Some (LFile current_size) ->
  local_can_create (disk w1) target = true ->
  current_size <> st_size info -> 0 < current_size ->
  mirror_entry self destroot km kt true (_path, info) l w =
  (mk_locals (snd plan + 1) None,
   mk_world (objects w1)
     (append_size (disk w1) target (total_delivered (st_size info) (fst plan)))
     (tl (attempts w))
     (log w1 ++ [Readv _path target (fst plan) true]
      ++ restore km kt target info),
   None).
Proof.
  intros dest_path target w1 plan Hdir Hfaults Hfile Hplace Hdiff Hpos.
  unfold Mirror.mirror_entry. rewrite Hdir.
  fold dest_path. fold target. fold w1.
  unfold local_isdir. rewrite Hfile.
  destruct (Z.eqb_spec current_size (st_size info)) as [|_]; [contradiction|].
  cbn [negb].
  assert (attempts w1 = attempts w) as Hf1.
  { unfold w1, ensure_directory. now destruct (negb _). }
  assert (resuming (Some current_size) true = Some current_size) as Hres.
  { apply resuming_spec. repeat split; trivial. lia. }
  unfold Mirror.download.
  rewrite transfer_next_completes by now rewrite Hf1.
  unfold Mirror.attempt_once. cbn [resume_seek dest fdisk flog n fault].
  rewrite Hres. fold plan. destruct plan as [read_tuples n'].
  cbn [n dest fdisk flog resume_seek fst snd]. rewrite Hplace, Hf1.
  cbn [negb].
  destruct (Z.ltb_spec current_size 0) as [|_]; [lia|].
  now rewrite <- app_assoc.
Qed.

Lemma mirror_effect (self : nat) (re : bool) (listing : listed remote)
    (path destroot : string) (km kt resume : bool) (w : world) :
  exists evs,
    run_effect self (yields (listdir_attr_recurse re path listing)) w
      (fst (mirror self re listing path destroot km kt resume w)) evs.
Proof. unfold Mirror.mirror. apply mirror_loop_effect. Qed.

(** C9 (amended): [mirror] never resets the directory cache. A run starts
    with whatever list [self._dircache] holds at that moment, only appends
    to it, and attempts the creation of a destination directory exactly for
    the paths it appends: paths that were not cached when the run started,
    each at most once. The list is emptied for a client only by
    [clear_directory_cache]. *)
Theorem C9_directory_cache_kept (self : nat) (re : bool)
    (listing : listed remote) (path destroot : string)
    (km kt resume : bool) (w : world) :
  let w' := fst (mirror self re listing path destroot km kt resume w) in
  (exists evs,
      log w' = log w ++ evs
      /\ _dircache (objects w') self = _dircache (objects w) self ++ created evs
      /\ NoDup (created evs)
      /\ Forall (fun d => ~ In d (_dircache (objects w) self)) (created evs))
  /\ _dircache (clear_directory_cache (objects w') self) self = [].
Proof.
  intros w'. split.
  - destruct (mirror_effect self re listing path destroot km kt resume w)
      as (evs & H1 & H2 & H3 & H4 & _).
    exists evs. auto.
  - unfold _dircache, clear_directory_cache. cbn [instance_dircache].
    now rewrite Nat.eqb_refl.
Qed.

(** C10: the lister descends into an entry exactly when its mode has all
    three owner permission bits, and yields it otherwise, so no yielded
    entry has them all; the mirror loop skips an entry that has them
    without any effect; and every transfer call a run issues is for the
    path of a yielded entry that lacks at least one of them. A remote
    regular file of mode 0o700 is therefore never mirrored as a file. *)
Theorem C10_owner_mask_decides (self : nat) (re : bool)
    (listing : listed remote) (path destroot : string)
    (km kt resume : bool) (w : world) :
  let listed := yields (listdir_attr_recurse re path listing) in
  (forall p da sub,
      visit re p (Entry da sub) =
      if Z.land (st_mode da) 448 =? 448
      then guard_io re
             (listdir_attr_recurse re (Posixpath.join p (filename da)) sub)
      else ([(Posixpath.join p (filename da), da)], Stopped))
  /\ Forall (fun x => Z.land (st_mode (snd x)) 448 <> 448) listed
  /\ (forall p info l w0,
         Z.land (st_mode info) 448 = 448 ->
         mirror_entry self destroot km kt resume (p, info) l w0 = (l, w0, None))
  /\ exists evs,
       log (fst (mirror self re listing path destroot km kt resume w))
       = log w ++ evs
       /\ Forall (fun rp => exists da, In (rp, da) listed
                                      /\ Z.land (st_mode da) 448 <> 448)
            (fetched evs).
Proof.
  intros listed. split; [|split; [|split]].
  - intros p da sub. apply visit_eq.
  - eapply Forall_impl; [|apply listdir_attr_recurse_plain].
    intros x Hx. now apply is_dir_mask.
  - intros p info l w0 Hmask. unfold Mirror.mirror_entry, is_dir, S_IRWXU.
    now rewrite Hmask, Z.eqb_refl.
  - destruct (mirror_effect self re listing path destroot km kt resume w)
      as (evs & H1 & _ & _ & _ & H5).
    exists evs. split; trivial.
    eapply Forall_impl; [|exact H5].
    cbn beta. intros rp (da & Hin & Hda). exists da. split; trivial.
    now apply is_dir_mask.
Qed.

End Client.

End MirrorFacts.

(** * The read windows of a resumed transfer *)

Module Resume.

Import Sftp Mirror.

(** Sum of the window lengths. *)
Definition total_len (ws : list (Z * Z)) : Z :=
  fold_right (fun w acc => snd w + acc) 0 ws.

(** Every window starts where the previous one ends, the first at [start]. *)
Fixpoint contiguous (start : Z) (ws : list (Z * Z)) : Prop :=
  match ws with
  | [] => True
  | w :: ws' => fst w = start /\ contiguous (start + snd w) ws'
  end.

Lemma total_len_app (a c : list (Z * Z)) :
  total_len (a ++ c) = total_len a + total_len c.
Proof. induction a as [|w a IH]; simpl; [|rewrite IH]; lia. Qed.

Lemma contiguous_app (start : Z) (a c : list (Z * Z)) :
  contiguous start a -> contiguous (start + total_len a) c ->
  contiguous start (a ++ c).
Proof.
  revert start. induction a as [|w a IH]; intros start Ha Hc; simpl in *.
  - now rewrite Z.add_0_r in Hc.
  - destruct Ha as [Hw Ha]. split; trivial. apply IH; trivial.
    now rewrite <- Z.add_assoc.
Qed.

(** *** The ceiling of the float quotient *)

Lemma exponent_normal (a b : Z) :
  0 < a -> 0 < b ->
  2 ^ 52 <= fst (scaled a b (exponent a b)) / snd (scaled a b (exponent a b)).
Proof.
  intros Ha Hb. unfold exponent.
  set (t1 := 52 - Z.log2 a + Z.log2 b).
  destruct (Z.leb_spec (2 ^ 52) (fst (scaled a b t1) / snd (scaled a b t1)))
    as [Hok|_]; trivial.
  destruct (Z.log2_spec a Ha) as [Ha1 Ha2].
  destruct (Z.log2_spec b Hb) as [Hb1 Hb2].
  pose proof (Z.log2_nonneg a) as Hla. pose proof (Z.log2_nonneg b) as Hlb.
  set (la := Z.log2 a) in *. set (lb := Z.log2 b) in *.
  unfold scaled. destruct (Z.leb_spec 0 (t1 + 1)) as [Ht|Ht]; cbn [fst snd].
  - apply Z.div_le_lower_bound; trivial.
    assert (2 ^ la * 2 ^ (t1 + 1) = 2 ^ Z.succ lb * 2 ^ 52) as Hpow.
    { rewrite <- !Z.pow_add_r by lia. f_equal. lia. }
    pose proof (Z.pow_pos_nonneg 2 (t1 + 1) ltac:(lia) Ht).
    nia.
  - apply Z.div_le_lower_bound.
    { pose proof (Z.pow_pos_nonneg 2 (- (t1 + 1)) ltac:(lia) ltac:(lia)). nia. }
    assert (2 ^ Z.succ lb * 2 ^ (- (t1 + 1)) * 2 ^ 52 = 2 ^ la) as Hpow.
    { rewrite <- !Z.pow_add_r by lia. f_equal. lia. }
    pose proof (Z.pow_pos_nonneg 2 (- (t1 + 1)) ltac:(lia) ltac:(lia)).
    nia.
Qed.

(** Rounding up a fraction of [2 ** t]. *)
Lemma ceil_between (q k P : Z) :
  0 < P -> k * P < q <= (k + 1) * P -> - ((- q) / P) = k + 1.
Proof.
  intros HP Hq.
  rewrite <- (Z.div_unique (- q) P (- (k + 1)) ((k + 1) * P - q)); lia.
Qed.

(** Below [2 ** 53] the rounding of the quotient to a double does not show
    in its ceiling. *)
Lemma ceil_div_small (a b : Z) :
  0 < a < 2 ^ 53 -> 0 < b ->
  ceil_div a b = a / b + (if a mod b =? 0 then 0 else 1).
Proof.
  intros [Ha Hsmall] Hb.
  pose proof (exponent_normal a b Ha Hb) as Hnormal.
  unfold ceil_div, nearest_double.
  rewrite (Z.sgn_pos a), (Z.sgn_pos b), (Z.abs_eq a), (Z.abs_eq b) by lia.
  change (1 * 1) with 1. change (1 =? 0) with false.
  change (0 <? 1) with true. cbv iota.
  set (t := exponent a b) in *.
  pose proof (Z.div_mod a b ltac:(lia)) as Hdm.
  pose proof (Z.mod_pos_bound a b Hb) as Hr.
  set (k := a / b) in *. set (r := a mod b) in *.
  unfold scaled in *. destruct (Z.leb_spec 0 t) as [Ht|Ht]; cbn [fst snd] in *.
  2: { (* a quotient of 53 bits and more is not below [2 ** 53] *)
       exfalso.
       pose proof (Z.pow_pos_nonneg 2 (- t) ltac:(lia) ltac:(lia)) as HP.
       assert (2 <= 2 ^ (- t)) as HP2.
       { change 2 with (2 ^ 1) at 1. apply Z.pow_le_mono_r; lia. }
       pose proof (Z.mul_div_le a (b * 2 ^ (- t)) ltac:(nia)). nia. }
  pose proof (Z.pow_pos_nonneg 2 t ltac:(lia) Ht) as HP.
  set (P := 2 ^ t) in *.
  pose proof (Z.div_mod (a * P) b ltac:(lia)) as Hdm0.
  pose proof (Z.mod_pos_bound (a * P) b Hb) as Hr0.
  set (q0 := a * P / b) in *. set (r0 := (a * P) mod b) in *.
  assert (k * P <= q0) as Hlow by (apply Z.div_le_lower_bound; nia).
  assert (q0 < (k + 1) * P) as Hhigh by (apply Z.div_lt_upper_bound; nia).
  destruct (Z.eqb_spec r 0) as [Hr0'|Hrpos].
  - (* the quotient is an integer *)
    assert (q0 = k * P /\ r0 = 0) as [Hq Hr00] by nia.
    rewrite Hr00. change (2 * 0) with 0.
    destruct (Z.ltb_spec b 0) as [|_]; [lia|].
    destruct (Z.eqb_spec b 0) as [|_]; [lia|]. cbn [orb andb].
    destruct (Z.ltb_spec 0 t) as [_|Ht0].
    + rewrite Hq, <- Z.mul_opp_l, Z.div_mul by lia. lia.
    + assert (t = 0) as Et by lia. unfold P in Hq. rewrite Et in *.
      cbn. rewrite Hq. change (2 ^ 0) with 1. lia.
  - (* it is not: the double lies above [k] and not above [k + 1] *)
    assert (k * P < (if (b <? 2 * r0) || (b =? 2 * r0) && Z.odd q0
                     then q0 + 1 else q0) <= (k + 1) * P) as Hq'.
    { destruct (Z.eq_dec q0 (k * P)) as [Hq|Hq].
      - assert (r0 = r * P) as Er0 by nia.
        assert (0 < k) as Hk by nia.
        assert (b * k < 2 * P * k) as Hbk by nia.
        assert (b < 2 * P) as Hb2
          by (apply (Z.mul_lt_mono_pos_r k); trivial).
        assert (b < 2 * r0) as Hup by nia.
        destruct (Z.ltb_spec b (2 * r0)) as [_|]; [|lia]. cbn [orb]. lia.
      - destruct ((b <? 2 * r0) || (b =? 2 * r0) && Z.odd q0); lia. }
    destruct (Z.ltb_spec 0 t) as [_|Ht0].
    + rewrite (ceil_between _ k P); lia.
    + assert (t = 0) as Et by lia. exfalso.
      assert (P = 1) as EP by (unfold P; rewrite Et; reflexivity).
      nia.
Qed.

Section Windows.

Variable M : Z.
Hypothesis M_pos : 0 < M.

(** [count] full packets from [start] on. *)
Fixpoint full_windows (count : nat) (start : Z) : list (Z * Z) :=
  match count with
  | O => []
  | S count' => (start, M) :: full_windows count' (start + M)
  end.

Lemma full_windows_shape (count : nat) :
  forall start,
    contiguous start (full_windows count start)
    /\ total_len (full_windows count start) = Z.of_nat count * M
    /\ Forall (fun w => snd w = M) (full_windows count start).
Proof.
  induction count as [|count IH]; intros start.
  - simpl. repeat split. constructor.
  - cbn [full_windows]. destruct (IH (start + M)) as (Hc & Ht & Hf).
    repeat split; trivial.
    + change (total_len ((start, M) :: full_windows count (start + M)))
        with (M + total_len (full_windows count (start + M))).
      rewrite Ht. lia.
    + constructor; trivial.
Qed.

(** The [for n in range(n_reads):] loop appends full packets, advances
    [offset] past them and leaves the last index in [n]. *)
Lemma append_reads_spec (count : nat) :
  forall i resume_seek read_tuples offset n,
    append_reads M count i resume_seek read_tuples offset n =
    (read_tuples ++ full_windows count (resume_seek + offset),
     offset + Z.of_nat count * M,
     match count with O => n | S c => i + Z.of_nat c end).
Proof.
  induction count as [|count IH]; intros i s acc offset n.
  - simpl. rewrite app_nil_r. repeat f_equal. lia.
  - cbn [append_reads full_windows]. rewrite IH, <- app_assoc. cbn [app].
    replace (s + (offset + M)) with (s + offset + M) by lia.
    replace (offset + M + Z.of_nat count * M)
      with (offset + Z.of_nat (S count) * M) by lia.
    replace (match count with O => i | S c => i + 1 + Z.of_nat c end)
      with (i + Z.of_nat count) by (destruct count; lia).
    reflexivity.
Qed.

Lemma ceil_div_exact (a : Z) :
  0 <= a < 2 ^ 53 -> a mod M = 0 -> ceil_div a M = a / M.
Proof.
  intros Ha H. destruct (Z.eq_dec a 0) as [->|Hne]; [reflexivity|].
  rewrite ceil_div_small, H by lia. cbn. lia.
Qed.

Lemma ceil_div_rounds_up (a : Z) :
  0 < a < 2 ^ 53 -> a mod M <> 0 -> ceil_div a M = a / M + 1.
Proof.
  intros Ha H. rewrite ceil_div_small by lia.
  now destruct (Z.eqb_spec (a mod M) 0).
Qed.

(** The windows [plan_reads] issues, in closed form. *)
Lemma plan_reads_eq (size resume_seek n : Z) :
  let k := Z.to_nat (ceil_div (size - resume_seek) M - 1) in
  plan_reads M size resume_seek n =
  (full_windows k resume_seek
     ++ [(resume_seek + Z.of_nat k * M, (size - resume_seek) mod M)],
   match k with O => n | S c => Z.of_nat c end).
Proof.
  intros k. unfold plan_reads. fold k. rewrite append_reads_spec.
  cbn [app]. rewrite Z.add_0_r, !Z.add_0_l. reflexivity.
Qed.

(** X15: when the bytes still missing are fewer than [2 ** 53] and not a
    whole number of packets, the windows are in ascending order without gap
    or overlap from [resume_seek], none is longer than a packet, and
    together they cover exactly the missing bytes. *)
Lemma plan_reads_tiles (size resume_seek n : Z) :
  0 <= resume_seek < size ->
  size - resume_seek < 2 ^ 53 ->
  (size - resume_seek) mod M <> 0 ->
  let ws := fst (plan_reads M size resume_seek n) in
  contiguous resume_seek ws
  /\ total_len ws = size - resume_seek
  /\ Forall (fun w => 0 <= snd w <= M) ws.
Proof.
  intros Hrange Hsmall Hrem ws. subst ws. rewrite plan_reads_eq. cbn [fst].
  rewrite ceil_div_rounds_up by (trivial; lia).
  set (d := size - resume_seek) in *.
  pose proof (Z.div_pos d M ltac:(lia) M_pos) as Hq.
  pose proof (Z.mod_pos_bound d M M_pos) as Hr.
  pose proof (Z.div_mod d M ltac:(lia)) as Hdm.
  replace (d / M + 1 - 1) with (d / M) by lia.
  destruct (full_windows_shape (Z.to_nat (d / M)) resume_seek) as (Hc & Ht & Hf).
  rewrite Z2Nat.id in * by lia.
  split; [|split].
  - apply contiguous_app; trivial. rewrite Ht. simpl. split; trivial.
  - rewrite total_len_app, Ht. simpl. lia.
  - apply Forall_app. split.
    + eapply Forall_impl; [|exact Hf]. cbn beta. intros w Hw. lia.
    + repeat constructor; simpl; lia.
Qed.

(** When they are a whole number of packets, the last window is empty and
    one packet is never asked for. *)
Lemma plan_reads_short (size resume_seek n : Z) :
  0 <= resume_seek < size ->
  size - resume_seek < 2 ^ 53 ->
  (size - resume_seek) mod M = 0 ->
  total_len (fst (plan_reads M size resume_seek n)) = size - resume_seek - M.
Proof.
  intros Hrange Hsmall Hrem. rewrite plan_reads_eq. cbn [fst].
  rewrite ceil_div_exact by (trivial; lia).
  set (d := size - resume_seek) in *.
  pose proof (Z.div_mod d M ltac:(lia)) as Hdm.
  assert (1 <= d / M) as Hq.
  { destruct (Z.le_gt_cases 1 (d / M)) as [|Hlt]; trivial.
    pose proof (Z.div_pos d M ltac:(lia) M_pos). nia. }
  destruct (full_windows_shape (Z.to_nat (d / M - 1)) resume_seek)
    as (_ & Ht & _).
  rewrite total_len_app, Ht, Z2Nat.id by lia. simpl. rewrite Hrem. nia.
Qed.

End Windows.

End Resume.

(** * Concrete mirror runs *)

Module MirrorScenarios.

Import Sftp Mirror MirrorFacts.

Local Open Scope string_scope.

(** [SFTPFile.MAX_REQUEST_SIZE] in paramiko. *)
Definition MAX_REQUEST_SIZE : Z := 32768.

(** [os.path.realpath] on the destinations used below, which are absolute,
    free of [.] and [..] and of symbolic links. *)
Definition canonical (p : string) : string := p.

(** A remote regular file of mode [0o100644]; it cannot be listed. *)
Definition file (nm : string) (size : Z) : remote :=
  Entry (mk_attr nm 33188 size 0 0) (Fails (IOError "Not a directory")).

Fixpoint local_of (table : list (string * lnode)) : localfs :=
  fun p =>
    match table with
    | [] => None
    | (q, nd) :: table' => if String.eqb p q then Some nd else local_of table' p
    end.

(** A freshly imported module, the given local files, no transport fault. *)
Definition start (h : heap) (table : list (string * lnode)) : world :=
  mk_world h (local_of table) [] [].

(** [client.mirror(path='r', destroot='/dst')] on client [self] with the
    defaults [keep_modes=True], [keep_times=True], [resume=True]. *)
Definition run (self : nat) (listing : list remote) (w : world)
    : world * result :=
  mirror MAX_REQUEST_SIZE canonical self false (Lists listing) "r" "/dst"
    true true true w.

(** C2 at a local file of 1 byte against a remote file of 32769 bytes: the
    32768 missing bytes are one whole packet, the only window issued is the
    empty [(1, 0)], and the local file is left 1 byte long. *)
Theorem C2_whole_packet_never_read :
  fst (plan_reads MAX_REQUEST_SIZE 32769 1 0) = [(1, 0)]
  /\ Resume.total_len (fst (plan_reads MAX_REQUEST_SIZE 32769 1 0)) = 0
  /\ 32769 - 1 = 32768
  /\ let w' := fst (run 0 [file "f" 32769]
                      (start fresh_heap [("/dst/r/f", LFile 1)])) in
     log w' = [Makedirs "/dst/r"; Readv "r/f" "/dst/r/f" [(1, 0)] true;
               Chmod "/dst/r/f" 33188; Utime "/dst/r/f" 0 0]
     /\ local_size (disk w') "/dst/r/f" = Some 1.
Proof. vm_compute. repeat split; reflexivity. Qed.

(** C6 at a local file of 10 bytes against a remote file of 5 bytes with
    resume enabled: the transfer is resumed at offset 10 instead of
    starting afresh. *)
Theorem C6_longer_local_file_resumed :
  log (fst (run 0 [file "f" 5] (start fresh_heap [("/dst/r/f", LFile 10)]))) =
  [Makedirs "/dst/r"; Readv "r/f" "/dst/r/f" [(10, 32763)] true;
   Chmod "/dst/r/f" 33188; Utime "/dst/r/f" 0 0].
Proof. vm_compute. reflexivity. Qed.

(** C7 at three remote files of which the third resumes from a 1-byte local
    file and needs one full packet: three files are transferred and the run
    returns 1. *)
Theorem C7_count_overwritten :
  let '(w', r) :=
    run 0 [file "a" 5; file "b" 6; file "c" 32778]
      (start fresh_heap [("/dst/r/c", LFile 1)]) in
  transferred (log w') = 3 /\ r = Return 1.
Proof. vm_compute. split; reflexivity. Qed.

(** C9 as stated fails: after one run the cache holds the directory of that
    run, so the next run of the same client starts with a non-empty cache,
    and on a disk where that directory is missing it does not attempt to
    create it. *)
Lemma C9_cache_not_empty_at_start :
  let w1 := fst (run 0 [file "f" 5] (start fresh_heap [])) in
  let w2 := fst (run 0 [file "f" 5] (start (objects w1) [])) in
  _dircache (objects w1) 0 = ["/dst/r"]
  /\ created (log w1) = ["/dst/r"]
  /\ created (log w2) = [].
Proof. vm_compute. repeat split; reflexivity. Qed.

(** The list is the class attribute: a second client sees what the first
    one cached until it calls [clear_directory_cache]. *)
Example dircache_shared_between_clients :
  let w1 := fst (run 0 [file "f" 5] (start fresh_heap [])) in
  _dircache (objects w1) 1 = ["/dst/r"]
  /\ _dircache (clear_directory_cache (objects w1) 1) 1 = []
  /\ _dircache (clear_directory_cache (objects w1) 1) 0 = ["/dst/r"].
Proof. vm_compute. repeat split; reflexivity. Qed.

End MirrorScenarios.

(** * Further properties of [xirvik/util.py] *)

Module UtilMore.

Import Util UtilFacts Torrent Streamer Verifier.

(** Number of chunks: none for the empty list, otherwise one more than the
    number of times [n] fits into [length l - 1]. *)
Lemma chunks_count {A} (n : nat) :
  (0 < n)%nat -> forall l : list A,
    length (_chunks l n) =
    match l with [] => 0 | _ :: _ => S ((length l - 1) / n) end%nat.
Proof.
  intros Hn l.
  remember (length l) as k eqn:Hk.
  revert l Hk. induction k as [k IH] using lt_wf_ind. intros l Hk.
  destruct l as [|x l]; [reflexivity|].
  rewrite chunks_step by (trivial; congruence).
  cbn [length] in *. f_equal.
  assert (length (skipn n (x :: l)) = S (length l) - n)%nat as Hskip
    by (rewrite length_skipn; reflexivity).
  rewrite (IH (length (skipn n (x :: l)))); trivial; [|lia].
  destruct (skipn n (x :: l)) as [|z zs] eqn:Hs.
  - cbn [length] in Hskip. subst k. symmetry. apply Nat.div_small. lia.
  - rewrite Hskip. subst k.
    replace (S (length l) - 1)%nat with ((S (length l) - n - 1) + 1 * n)%nat
      by (cbn [length] in Hskip; lia).
    rewrite Nat.div_add by lia. lia.
Qed.

Lemma ceil_count (len n : nat) :
  (0 < n)%nat ->
  match len with O => 0 | S _ => S ((len - 1) / n) end%nat
  = ((len + n - 1) / n)%nat.
Proof.
  intros Hn. destruct len as [|len].
  - symmetry. apply Nat.div_small. lia.
  - replace (S len + n - 1)%nat with ((S len - 1) + 1 * n)%nat by lia.
    rewrite Nat.div_add by lia. lia.
Qed.

Lemma chunks_ceil {A} (n : nat) (l : list A) :
  (0 < n)%nat -> length (_chunks l n) = ((length l + n - 1) / n)%nat.
Proof.
  intros Hn. rewrite chunks_count by trivial. rewrite <- ceil_count by trivial.
  now destruct l.
Qed.

(** X1: for a positive [n], [_chunks(l, n)] cuts [l] into
    [ceil(len(l) / n)] consecutive slices that concatenate back to [l];
    every slice is non-empty and at most [n] long, and every slice that has
    a successor is exactly [n] long. *)
Theorem X1_chunks_partition {A} (l : list A) (n : nat) :
  (0 < n)%nat ->
  concat (_chunks l n) = l
  /\ length (_chunks l n) = ((length l + n - 1) / n)%nat
  /\ (forall i, (S i < length (_chunks l n))%nat ->
                length (nth i (_chunks l n) []) = n)
  /\ (forall i, (i < length (_chunks l n))%nat ->
                (0 < length (nth i (_chunks l n) []) <= n)%nat).
Proof.
  intros Hn. split; [now apply chunks_concat|]. split; [|split].
  - now apply chunks_ceil.
  - intros i Hi. destruct (chunks_shape n Hn l i) as [_ H]; [lia|]. now apply H.
  - intros i Hi. now destruct (chunks_shape n Hn l i) as [H _].
Qed.

Definition seven_items : list Z := [1; 2; 3; 4; 5; 6; 7].

Lemma X1_chunks_partition_witness :
  concat (_chunks seven_items 3) = seven_items
  /\ length (_chunks seven_items 3) = ((length seven_items + 3 - 1) / 3)%nat
  /\ (forall i, (S i < length (_chunks seven_items 3))%nat ->
                length (nth i (_chunks seven_items 3) []) = 3%nat)
  /\ (forall i, (i < length (_chunks seven_items 3))%nat ->
                (0 < length (nth i (_chunks seven_items 3) []) <= 3)%nat).
Proof. apply (X1_chunks_partition seven_items 3). lia. Defined.

(** The last chunk holds what the full chunks before it leave over. *)
Lemma chunks_last_length {A} (n : nat) :
  (0 < n)%nat -> forall l : list A,
    l <> [] ->
    (length (nth (length (_chunks l n) - 1) (_chunks l n) [])
     + (length (_chunks l n) - 1) * n = length l)%nat.
Proof.
  intros Hn l.
  remember (length l) as k eqn:Hk.
  revert l Hk. induction k as [k IH] using lt_wf_ind. intros l Hk Hl.
  rewrite chunks_step by trivial. cbn [length].
  rewrite Nat.sub_succ, Nat.sub_0_r.
  assert (length l = length (firstn n l) + length (skipn n l))%nat as Hsplit
    by (rewrite <- length_app, firstn_skipn; reflexivity).
  assert (0 < length (firstn n l))%nat as Hfirst.
  { rewrite length_firstn. destruct l; [congruence | cbn [length]; lia]. }
  destruct (skipn n l) as [|z zs] eqn:Hs.
  - rewrite chunks_nil. cbn [length nth]. cbn [length] in Hsplit. lia.
  - assert (z :: zs <> []) as Hne by congruence.
    specialize (IH (length (z :: zs)) ltac:(lia) (z :: zs) eq_refl Hne).
    remember (_chunks (z :: zs) n) as rest eqn:Hrest.
    assert (0 < length rest)%nat as Hpos.
    { subst rest. rewrite chunks_step by trivial. cbn [length]. lia. }
    destruct (length rest) as [|m] eqn:Hm; [lia|].
    cbn [nth]. rewrite Nat.sub_succ, Nat.sub_0_r in IH.
    assert (length (firstn n l) = n) as Hfull.
    { rewrite length_firstn. cbn [length] in Hsplit.
      rewrite length_firstn in Hsplit. lia. }
    lia.
Qed.

(** X2: over readable files and a positive piece length the streamer
    yields [ceil(L / piece_length)] pieces, where [L] is the total length of
    the files, and when [L > 0] the last of them holds the
    [L - (count - 1) * piece_length] bytes the full pieces leave over. *)
Theorem X2_piece_count (fs : filesystem) (basepath : string)
    (piece_length : Z) (filenames : list string) (contents : list bytes) :
  let total := len (concat contents) in
  let ps := yields (_get_torrent_pieces fs filenames basepath piece_length) in
  let count := (total + piece_length - 1) / piece_length in
  0 < piece_length ->
  all_hold fs basepath filenames contents ->
  len ps = count
  /\ (0 < total ->
      exists piece, nth (Z.to_nat (count - 1)) ps None = Some piece
                    /\ len piece = total - (count - 1) * piece_length).
Proof.
  intros total ps count Hpl Hall.
  assert (0 < Z.to_nat piece_length)%nat as Hn by lia.
  subst ps. rewrite (get_torrent_pieces_chunks fs basepath _ Hpl _ _ Hall).
  unfold yields. cbn [fst].
  set (cs := _chunks (concat contents) (Z.to_nat piece_length)).
  assert (len cs = count) as Hcount.
  { unfold len, cs. rewrite chunks_ceil by trivial.
    rewrite Nat2Z.inj_div, Nat2Z.inj_sub, Nat2Z.inj_add by lia.
    rewrite Z2Nat.id by lia. reflexivity. }
  split; [unfold len; rewrite length_map; exact Hcount|].
  intros Htotal.
  assert (concat contents <> []) as Hne.
  { intros E. unfold total, len in Htotal. rewrite E in Htotal. simpl in Htotal. lia. }
  pose proof (chunks_last_length _ Hn (concat contents) Hne) as Hlast.
  fold cs in Hlast.
  assert (0 < length cs)%nat as Hpos.
  { unfold cs. rewrite chunks_step by trivial. cbn [length]. lia. }
  unfold len in Hcount.
  replace (Z.to_nat (count - 1)) with (length cs - 1)%nat by lia.
  exists (nth (length cs - 1) cs []). split.
  - rewrite (nth_indep _ None (Some [])) by (rewrite length_map; lia).
    apply (map_nth Some).
  - unfold total, len. nia.
Qed.

(** The scenario of the test suite: two files of 2509 bytes in pieces of
    256 bytes give 20 pieces, the last of 154 bytes. *)
Definition two_2509 : filesystem :=
  fs_of [("/t/a", regular (repeat x00 2509));
         ("/t/b", regular (repeat x01 2509))]%string.

Lemma X2_piece_count_witness :
  let total := len (concat [repeat x00 2509; repeat x01 2509]) in
  let ps := yields (_get_torrent_pieces two_2509 ["a"; "b"]%string "/t" 256) in
  let count := (total + 256 - 1) / 256 in
  len ps = count
  /\ (0 < total ->
      exists piece, nth (Z.to_nat (count - 1)) ps None = Some piece
                    /\ len piece = total - (count - 1) * 256).
Proof.
  apply (X2_piece_count two_2509 "/t" 256 ["a"; "b"]%string
           [repeat x00 2509; repeat x01 2509]).
  - lia.
  - repeat constructor.
Defined.

Example two_2509_numbers :
  (len (concat [repeat x00 2509; repeat x01 2509]) + 256 - 1) / 256 = 20
  /\ len (concat [repeat x00 2509; repeat x01 2509]) - (20 - 1) * 256 = 154.
Proof. vm_compute. split; reflexivity. Qed.

(** Every node that can be read has the size [os.stat] reports for it. *)
Definition consistent (fs : filesystem) : Prop :=
  forall p nd c, fs p = Some nd -> content nd = Some c -> st_size nd = len c.

Definition bounded (piece_length : Z) (y : option bytes) : Prop :=
  match y with
  | Some piece => 0 < len piece <= piece_length
  | None => True
  end.

Lemma Forall_emit {A} (P : A -> Prop) (ys : list A) (t : trace A) :
  Forall P ys -> Forall P (yields t) -> Forall P (yields (emit ys t)).
Proof. intros H1 H2. unfold emit, yields. cbn [fst]. apply Forall_app. now split. Qed.

Lemma pieces_from_bounded (fs : filesystem) (basepath : string) (pl : Z) :
  0 < pl -> consistent fs ->
  forall (filenames : list string) (buf : bytes) (size : option Z),
    len buf < pl ->
    Forall (bounded pl)
      (yields (pieces_from fs basepath pl filenames buf (pl - len buf) size)).
Proof.
  intros Hpl Hfs. induction filenames as [|nm names IH]; intros buf size Hbuf.
  - cbn [pieces_from]. destruct (truthy buf) eqn:Hb; [|constructor].
    apply truthy_true in Hb. repeat constructor; unfold len in *; lia.
  - cbn [pieces_from]. set (p := Posixpath.join basepath nm).
    unfold os_stat, os_open.
    destruct (fs p) as [nd|] eqn:Hnode; cbn [option_map].
    + (* the file can be sized *)
      apply Forall_emit; [constructor|].
      destruct ((st_size nd <=? pl) && (pl - len buf >? st_size nd)) eqn:Hsmall.
      * destruct (content nd) as [tmp|] eqn:Hc; [|constructor].
        rewrite (Hfs p nd tmp Hnode Hc) in Hsmall.
        apply andb_true_iff in Hsmall as [_ Hfit]. apply Z.gtb_lt in Hfit.
        destruct (Z.leb_spec (pl - len buf - len tmp) 0) as [|_]; [lia|].
        replace (pl - len buf - len tmp) with (pl - len (buf ++ tmp))
          by (rewrite len_app; lia).
        apply IH. rewrite len_app. lia.
      * destruct (content nd) as [c|] eqn:Hc.
        -- destruct (read_file_spec pl c buf Hpl Hbuf)
             as (ys & buf1 & Hrun & Hlt & Hys & _).
           rewrite Hrun. apply Forall_emit; [|now apply IH].
           apply Forall_map. eapply Forall_impl; [|exact Hys].
           cbn beta. intros y Hy. unfold bounded, len. lia.
        -- apply Forall_emit; [repeat constructor | now apply IH].
    + (* the file cannot be sized: a placeholder, then the stale size *)
      apply Forall_emit; [repeat constructor|].
      destruct size as [sz|]; [|constructor].
      destruct ((sz <=? pl) && (pl - len buf >? sz)); [constructor|].
      apply Forall_emit; [repeat constructor | now apply IH].
Qed.

(** X9: on a file system whose readable files have the size [os.stat]
    reports, and for a positive piece length, every buffer the streamer
    yields is non-empty and at most [piece_length] long, whichever listed
    files are missing or unreadable. *)
Theorem X9_buffers_bounded (fs : filesystem) (filenames : list string)
    (basepath : string) (piece_length : Z) :
  0 < piece_length -> consistent fs ->
  Forall (bounded piece_length)
    (yields (_get_torrent_pieces fs filenames basepath piece_length)).
Proof.
  intros Hpl Hfs. unfold _get_torrent_pieces.
  replace piece_length with (piece_length - len (@nil byte)) at 3
    by (unfold len; simpl; lia).
  apply pieces_from_bounded; trivial.
Qed.

Lemma fs_of_consistent (table : list (string * fnode)) :
  Forall (fun e => forall c, content (snd e) = Some c -> st_size (snd e) = len c)
    table ->
  consistent (fs_of table).
Proof.
  induction 1 as [|[q nd0] table Hnd _ IH]; intros p nd c Hp Hc; cbn [fs_of] in Hp.
  - discriminate.
  - destruct (String.eqb p q).
    + injection Hp as <-. now apply Hnd.
    + now apply (IH p nd c).
Qed.

Lemma X9_buffers_bounded_witness :
  Forall (bounded 2)
    (yields (_get_torrent_pieces
               (fs_of [("/t/a", regular (b "abc")); ("/t/d", directory)]%string)
               ["a"; "missing"; "d"; "a"]%string "/t" 2)).
Proof.
  apply X9_buffers_bounded.
  - lia.
  - apply fs_of_consistent. repeat constructor; cbn; intros c [=]; now subst.
Defined.

Example stream_with_gaps :
  _get_torrent_pieces
    (fs_of [("/t/a", regular (b "abc")); ("/t/d", directory)]%string)
    ["a"; "missing"; "d"; "a"]%string "/t" 2
  = ([Some (b "ab"); None; None; None; Some (b "ca"); Some (b "bc")], Stopped).
Proof. vm_compute. reflexivity. Qed.

Section Verification.

Variable digest : bytes -> bytes.

(** The digest always has [digest_size] bytes, as SHA-1 has. *)
Definition fixed_size : Prop := forall m, length (digest m) = digest_size.

Lemma piece_hashes_of_digests (torrent : torrent_info) (ps : list bytes) :
  fixed_size ->
  pieces torrent = concat (map digest ps) ->
  piece_hashes torrent = map digest ps.
Proof.
  intros Hsize Hpieces. unfold piece_hashes. rewrite Hpieces.
  rewrite <- (app_nil_r (concat (map digest ps))).
  rewrite chunks_prefix; [apply app_nil_r | unfold digest_size; lia |].
  apply Forall_map, Forall_forall. intros m _. apply Hsize.
Qed.

(** X3: content that is what the metadata was made from verifies. When
    every listed file is readable and [pieces] is the concatenation of the
    digests of the [piece_length]-sized chunks of the files' bytes,
    [verify_torrent_contents] returns normally. *)
Theorem X3_intact_content_verifies (fs : filesystem) (torrent : torrent_info)
    (path : string) (contents : list bytes) :
  fixed_size ->
  0 < piece_length torrent ->
  reachable fs (Posixpath.join path (name torrent)) ->
  all_hold fs (snd (torrent_filenames torrent path))
    (fst (torrent_filenames torrent path)) contents ->
  pieces torrent =
    concat (map digest
              (_chunks (concat contents) (Z.to_nat (piece_length torrent)))) ->
  verify_torrent_contents digest fs torrent path = Returns.
Proof.
  intros Hsize Hpl Hroot Hall Hpieces.
  rewrite verify_reachable by trivial.
  unfold verify_pieces, torrent_pieces.
  destruct (torrent_filenames torrent path) as [filenames base].
  cbn [fst snd] in Hall.
  rewrite (get_torrent_pieces_chunks fs base _ Hpl filenames contents Hall).
  rewrite (piece_hashes_of_digests torrent _ Hsize Hpieces).
  unfold yields, finish. cbn [fst snd].
  rewrite <- (app_nil_r (map digest _)), <- (app_nil_r (map Some _)).
  rewrite compare_pieces_matching. reflexivity.
Qed.

(** X5: a piece length of 0 makes the verifier accept anything. With
    [piece length = 0] every read asks for 0 bytes, the streamer yields
    nothing, and when every listed file can be read verification returns
    normally whatever the files hold and whatever digests are stored. *)
Theorem X5_zero_piece_length_accepts (fs : filesystem) (torrent : torrent_info)
    (path : string) (contents : list bytes) :
  piece_length torrent = 0 ->
  reachable fs (Posixpath.join path (name torrent)) ->
  all_hold fs (snd (torrent_filenames torrent path))
    (fst (torrent_filenames torrent path)) contents ->
  torrent_pieces fs torrent path = ([], Stopped)
  /\ verify_torrent_contents digest fs torrent path = Returns.
Proof.
  intros Hzero Hroot Hall.
  assert (torrent_pieces fs torrent path = ([], Stopped)) as Hstream.
  { unfold torrent_pieces.
    destruct (torrent_filenames torrent path) as [filenames base].
    cbn [fst snd] in Hall. rewrite Hzero. unfold _get_torrent_pieces.
    generalize (@None Z) as size.
    induction Hall as [|nm c names cs [Hstat Hopen] _ IH]; intros size;
      cbn [pieces_from]; [reflexivity|].
    rewrite Hstat, Hopen.
    pose proof (len_nonneg c) as Hc.
    destruct (Z.gtb_spec 0 (len c)) as [|_]; [lia|].
    rewrite andb_false_r.
    unfold read_file. cbn [read_loop]. unfold f_read. cbn.
    rewrite IH. reflexivity. }
  split; trivial.
  rewrite verify_reachable, Hstream by trivial.
  unfold verify_pieces, yields, finish. cbn [fst snd].
  now destruct (piece_hashes torrent).
Qed.

(** X6: a listed file that exists but cannot be opened is reported in two
    different ways. As the first file of a multi-file torrent, with at
    least one digest stored: if it is smaller than a piece the [IOError]
    of [open] leaves the verifier uncaught, otherwise the verifier raises
    [VerificationError('Unable to get hash for piece')]. *)
Theorem X6_unopenable_first_file (fs : filesystem) (torrent : torrent_info)
    (path : string) (fl : list (list string)) (first : string)
    (rest : list string) (nd : fnode) :
  let base := Posixpath.join path (name torrent) in
  files torrent = Some fl ->
  map (String.concat "/") fl = first :: rest ->
  0 < piece_length torrent ->
  reachable fs base ->
  fs (Posixpath.join base first) = Some nd ->
  content nd = None ->
  piece_hashes torrent <> [] ->
  verify_torrent_contents digest fs torrent path =
  if st_size nd <? piece_length torrent
  then Raises (IOError (Posixpath.join base first))
  else Raises unable_to_hash.
Proof.
  intros base Hfiles Hnames Hpl Hroot Hnode Hcontent Hhashes.
  rewrite verify_reachable by trivial.
  unfold verify_pieces, torrent_pieces, torrent_filenames.
  rewrite Hfiles, Hnames. fold base.
  unfold _get_torrent_pieces. cbn [pieces_from].
  unfold os_stat, os_open. rewrite Hnode, Hcontent. cbn [option_map].
  destruct (piece_hashes torrent) as [|h hs]; [congruence|].
  destruct (Z.ltb_spec (st_size nd) (piece_length torrent)) as [Hlt|Hge].
  - destruct (Z.leb_spec (st_size nd) (piece_length torrent)) as [_|]; [|lia].
    destruct (Z.gtb_spec (piece_length torrent) (st_size nd)) as [_|]; [|lia].
    reflexivity.
  - destruct (Z.gtb_spec (piece_length torrent) (st_size nd)) as [|_]; [lia|].
    rewrite andb_false_r. reflexivity.
Qed.

(** X8: a [pieces] string whose length is not a multiple of 20 can never
    be satisfied once the content reaches its last, short digest: when every
    listed file is readable and at least as many pieces are streamed as
    there are digest chunks, verification fails with the hash-mismatch
    error. *)
Theorem X8_ragged_pieces_rejected (fs : filesystem) (torrent : torrent_info)
    (path : string) (contents : list bytes) :
  fixed_size ->
  0 < piece_length torrent ->
  reachable fs (Posixpath.join path (name torrent)) ->
  all_hold fs (snd (torrent_filenames torrent path))
    (fst (torrent_filenames torrent path)) contents ->
  (length (pieces torrent) mod digest_size <> 0)%nat ->
  (length (piece_hashes torrent)
   <= length (_chunks (concat contents) (Z.to_nat (piece_length torrent))))%nat ->
  verify_torrent_contents digest fs torrent path = Raises hash_mismatch.
Proof.
  intros Hsize Hpl Hroot Hall Hragged Hcover.
  rewrite verify_reachable by trivial.
  unfold verify_pieces, torrent_pieces.
  destruct (torrent_filenames torrent path) as [filenames base].
  cbn [fst snd] in Hall.
  rewrite (get_torrent_pieces_chunks fs base _ Hpl filenames contents Hall).
  unfold yields, finish. cbn [fst snd].
  set (ps := _chunks (concat contents) (Z.to_nat (piece_length torrent))) in *.
  destruct (compare_pieces_stopped digest (piece_hashes torrent) ps)
    as [[Hok | Hbad] Hiff]; trivial.
  exfalso. destruct Hiff as [Hfwd _]. specialize (Hfwd Hok). clear Hok.
  rename Hfwd into Hok.
  assert (pieces torrent <> []) as Hne.
  { intros E. rewrite E in Hragged. now apply Hragged. }
  assert (0 < digest_size)%nat as Hn by (unfold digest_size; lia).
  pose proof (chunks_last_length _ Hn (pieces torrent) Hne) as Hlast.
  fold (piece_hashes torrent) in Hlast.
  assert (0 < length (piece_hashes torrent))%nat as Hpos.
  { unfold piece_hashes. rewrite chunks_step by trivial. cbn [length]. lia. }
  specialize (Hok (length (piece_hashes torrent) - 1)%nat ltac:(lia) ltac:(lia)).
  rewrite Hok, Hsize in Hlast.
  apply Hragged. rewrite <- Hlast. unfold digest_size.
  replace (20 + (length (piece_hashes torrent) - 1) * 20)%nat
    with (length (piece_hashes torrent) * 20)%nat by lia.
  apply Nat.Div0.mod_mul.
Qed.

End Verification.

End UtilMore.

Module UtilScenarios.

Import Util UtilFacts Torrent Streamer Verifier UtilMore Scenarios.

Local Open Scope string_scope.

Lemma sha1_fixed_size : fixed_size sha1.
Proof. intros m. apply Sha1.sha1_digest_size. Qed.

Lemma X3_intact_content_verifies_witness :
  verify_torrent_contents sha1 (on_disk "abcd") one_file "/d" = Returns.
Proof.
  apply (X3_intact_content_verifies sha1 (on_disk "abcd") one_file "/d"
           [b "abcd"]).
  - exact sha1_fixed_size.
  - reflexivity.
  - left. reflexivity.
  - repeat constructor.
  - vm_compute. reflexivity.
Defined.

Lemma mutation_confined_to_piece_witness :
  verify_torrent_contents sha1 (on_disk "abxd") one_file "/d"
  = Raises hash_mismatch.
Proof.
  apply (mutation_confined_to_piece sha1 (on_disk "abxd") one_file "/d"
           [b "abxd"] [b "ab"] (b "cd") (b "xd") []).
  - reflexivity.
  - left. reflexivity.
  - repeat constructor.
  - reflexivity.
  - repeat constructor.
  - left. reflexivity.
  - vm_compute. reflexivity.
  - vm_compute. discriminate.
Defined.

(** Metadata with a piece length of 0 and digests of something else. *)
Definition zero_piece_length : torrent_info :=
  mk_torrent "t" 0 (sha1 (b "something else")) (Some [["a"]]).

Lemma X5_zero_piece_length_accepts_witness :
  torrent_pieces (on_disk "abcd") zero_piece_length "/d" = ([], Stopped)
  /\ verify_torrent_contents sha1 (on_disk "abcd") zero_piece_length "/d"
     = Returns.
Proof.
  apply (X5_zero_piece_length_accepts sha1 (on_disk "abcd") zero_piece_length
           "/d" [b "abcd"]).
  - reflexivity.
  - left. reflexivity.
  - repeat constructor.
Defined.

(** The listed file [a] exists but cannot be opened: once as a file of one
    byte, once as a directory. *)
Definition unreadable (size : Z) : filesystem :=
  fs_of [("/d/t", directory); ("/d/t/a", mk_fnode size None false)].

Lemma X6_unopenable_first_file_witness :
  verify_torrent_contents sha1 (unreadable 1) one_file "/d" =
  if (1 <? 2)%Z then Raises (IOError "/d/t/a") else Raises unable_to_hash.
Proof.
  apply (X6_unopenable_first_file sha1 (unreadable 1) one_file "/d"
           [["a"]] "a" [] (mk_fnode 1 None false)).
  - reflexivity.
  - reflexivity.
  - reflexivity.
  - left. reflexivity.
  - reflexivity.
  - reflexivity.
  - vm_compute. discriminate.
Defined.

Example unopenable_large_file :
  verify_torrent_contents sha1 (unreadable 4096) one_file "/d"
  = Raises unable_to_hash.
Proof. vm_compute. reflexivity. Qed.

(** One digest followed by a single stray byte. *)
Definition ragged : torrent_info :=
  mk_torrent "t" 2 (sha1 (b "ab") ++ [x00]) (Some [["a"]]).

Lemma X8_ragged_pieces_rejected_witness :
  verify_torrent_contents sha1 (on_disk "abcd") ragged "/d"
  = Raises hash_mismatch.
Proof.
  apply (X8_ragged_pieces_rejected sha1 (on_disk "abcd") ragged "/d"
           [b "abcd"]).
  - exact sha1_fixed_size.
  - reflexivity.
  - left. reflexivity.
  - repeat constructor.
  - vm_compute. discriminate.
  - vm_compute. lia.
Defined.

Lemma single_multi_agree_witness :
  verify_torrent_contents sha1 (SingleFile.single_disk "/data")
    (mk_torrent "f.bin" 2 SingleFile.digests None) "/data" =
  verify_torrent_contents sha1 (SingleFile.multi_disk "/data")
    (mk_torrent "f.bin" 2 SingleFile.digests (Some [["x"]])) "/data".
Proof.
  apply (SingleFile.single_multi_agree sha1 (SingleFile.single_disk "/data")
           (SingleFile.multi_disk "/data") "/data" "f.bin" 2
           SingleFile.digests ["x"] (regular (b "abcd")) (b "abcd")).
  - reflexivity.
  - reflexivity.
  - reflexivity.
  - reflexivity.
  - reflexivity.
Defined.

End UtilScenarios.

(** * Further properties of [xirvik/sftp.py] *)

Module ListerMore.

Import Sftp Lister.











(** The strict trace [s] is the lenient trace [t] cut short: equal to it
    when it ends normally, otherwise its yields are an initial part. *)
Definition cut_short {A} (s t : trace A) : Prop :=
  (finish s = Stopped -> s = t)
  /\ exists rest, yields t = yields s ++ rest.

Lemma cut_short_refl {A} (t : trace A) : cut_short t t.
Proof. split; trivial. exists []. now rewrite app_nil_r. Qed.

Lemma and_then_cut_short {A} (s1 t1 s2 t2 : trace A) :
  cut_short s1 t1 -> cut_short s2 t2 ->
  cut_short (and_then s1 s2) (and_then t1 t2).
Proof.
  intros [Hsame1 [r1 Hr1]] [Hsame2 [r2 Hr2]]. unfold and_then.
  destruct (finish s1) eqn:Hs1.
  - rewrite <- (Hsame1 eq_refl), Hs1. split.
    + intros H. unfold emit, finish in H. cbn [snd] in H.
      now rewrite (Hsame2 H).
    + exists r2. unfold emit, yields in *. cbn [fst]. rewrite Hr2.
      now rewrite app_assoc.
  - split; [rewrite Hs1; discriminate|].
    destruct (finish t1).
    + exists (r1 ++ yields t2). unfold emit, yields in *. cbn [fst].
      now rewrite Hr1, app_assoc.
    + now exists r1.
Qed.

Lemma visit_all_cut_short (l : list remote) :
  Forall (fun e => forall path, cut_short (visit true path e) (visit false path e)) l ->
  forall path, cut_short (visit_all true path l) (visit_all false path l).
Proof.
  induction 1 as [|e l He Hall IH]; intros path; cbn [visit_all].
  - apply cut_short_refl.
  - apply and_then_cut_short; [apply He | apply IH].
Qed.

Lemma guard_io_cut_short {A} (s t : trace A) :
  cut_short s t -> cut_short (guard_io true s) (guard_io false t).
Proof.
  intros [Hsame [rest Hrest]].
  assert (guard_io true s = s) as ->.
  { unfold guard_io. destruct (finish s) as [|e]; trivial.
    now destruct (is_ioerror e). }
  split.
  - intros Hs. rewrite <- (Hsame Hs). unfold guard_io. now rewrite Hs.
  - exists rest. now rewrite yields_guard_io.
Qed.

Lemma visit_cut_short (e : remote) :
  forall path, cut_short (visit true path e) (visit false path e).
Proof.
  induction e as [da listing IH] using remote_tree_ind. intros path.
  rewrite !visit_eq. destruct (is_dir da); [|apply cut_short_refl].
  apply guard_io_cut_short.
  destruct listing as [entries|x]; cbn [listdir_attr_recurse].
  - now apply visit_all_cut_short.
  - apply cut_short_refl.
Qed.

(** X11: [raise_exceptions] changes only where a listing stops. What the
    strict lister yields is an initial part of what the lenient lister
    yields on the same tree, and when the strict lister ends normally the
    two listings are the same. *)
Theorem X11_strict_is_cut_short (path : string)
    (listing : listed remote) :
  (finish (listdir_attr_recurse true path listing) = Stopped ->
   listdir_attr_recurse true path listing
   = listdir_attr_recurse false path listing)
  /\ exists rest,
      yields (listdir_attr_recurse false path listing)
      = yields (listdir_attr_recurse true path listing) ++ rest.
Proof.
  destruct listing as [entries|x]; cbn [listdir_attr_recurse].
  - apply visit_all_cut_short. apply Forall_forall. intros e _.
    apply visit_cut_short.
  - apply cut_short_refl.
Qed.

End ListerMore.

Module MirrorMore.

Import Sftp Mirror Lister ListerMore MirrorFacts.

(** The events a run may add, given its flags. *)
Definition permitted (keep_modes keep_times resume : bool) (ev : event) : Prop :=
  match ev with
  | Makedirs _ => True
  | Get _ _ _ => True
  | Readv _ _ _ _ => resume = true
  | Reconnect => resume = true
  | Chmod _ _ => keep_modes = true
  | Utime _ _ _ => keep_times = true
  end.

(** [h'] is [h] after client [self] has cached some directories: the lists
    of the other clients' own attributes are untouched, and the class list
    is touched only when [self] has no list of its own. *)
Definition cached_by (self : nat) (h h' : heap) : Prop :=
  (forall j, j <> self -> instance_dircache h' j = instance_dircache h j)
  /\ (instance_dircache h self = None -> instance_dircache h' self = None)
  /\ (instance_dircache h self <> None ->
      class_dircache h' = class_dircache h
      /\ instance_dircache h' self <> None).

Lemma cached_by_refl (self : nat) (h : heap) : cached_by self h h.
Proof. unfold cached_by. auto. Qed.

Lemma cached_by_trans (self : nat) (h1 h2 h3 : heap) :
  cached_by self h1 h2 -> cached_by self h2 h3 -> cached_by self h1 h3.
Proof.
  intros (Ha1 & Ha2 & Ha3) (Hb1 & Hb2 & Hb3). repeat split.
  - intros j Hj. now rewrite Hb1, Ha1.
  - auto.
  - destruct (Ha3 H) as [Hc Hn]. destruct (Hb3 Hn) as [Hc' _]. congruence.
  - destruct (Ha3 H) as [_ Hn]. now destruct (Hb3 Hn).
Qed.

Lemma dircache_append_cached (self : nat) (h : heap) (p : string) :
  cached_by self h (dircache_append h self p).
Proof.
  unfold cached_by, dircache_append.
  destruct (instance_dircache h self) as [l|] eqn:E;
    cbn [instance_dircache class_dircache].
  - split; [|split].
    + intros j Hj. apply Nat.eqb_neq in Hj. now rewrite Hj.
    + discriminate.
    + intros _. split; trivial. rewrite Nat.eqb_refl. discriminate.
  - split; [|split]; trivial. congruence.
Qed.

Section Client.

Variable MAX_PACKET_SIZE : Z.
Variable realpath : string -> string.

Local Abbreviation attempt_once := (attempt_once MAX_PACKET_SIZE realpath).
Local Abbreviation transfer := (transfer MAX_PACKET_SIZE realpath).
Local Abbreviation download := (download MAX_PACKET_SIZE realpath).
Local Abbreviation mirror_entry := (mirror_entry MAX_PACKET_SIZE realpath).
Local Abbreviation mirror_loop := (mirror_loop MAX_PACKET_SIZE realpath).
Local Abbreviation mirror := (mirror MAX_PACKET_SIZE realpath).

Lemma raised_wire (resume : bool) (e : pyexc) (reconnect : option pyexc)
    (f : frame) (base evs0 : list event) :
  flog f = base ++ evs0 -> Forall (permitted false false resume) evs0 ->
  exists evs,
    flog (step_frame (raised resume e reconnect f)) = base ++ evs
    /\ Forall (permitted false false resume) evs.
Proof.
  intros Hf Hevs0. unfold raised, on_fault.
  destruct (handled e); [|now exists evs0].
  destruct (local_size (fdisk f) (dest f)); [|now exists evs0].
  destruct resume; [|now exists evs0].
  exists (evs0 ++ [Reconnect]).
  split; [|apply Forall_app; split; trivial; now repeat constructor].
  destruct reconnect; cbn [step_frame flog]; now rewrite Hf, app_assoc.
Qed.

(** What an iteration of the [while True:] loop adds: transfer calls, and
    readv calls and reconnects only when resuming. *)
Lemma attempt_once_wire (resume : bool) (_path : string)
    (info : SFTPAttributes) (a : attempt) (f : frame) :
  exists evs,
    flog (step_frame (attempt_once resume _path info a f)) = flog f ++ evs
    /\ Forall (permitted false false resume) evs.
Proof.
  assert (exists evs, flog f = flog f ++ evs
                      /\ Forall (permitted false false resume) evs) as Hstay
    by (exists []; rewrite app_nil_r; split; [trivial | constructor]).
  unfold Mirror.attempt_once.
  destruct (resuming (resume_seek f) resume) as [s|] eqn:Hres.
  - apply resuming_spec in Hres as (_ & _ & Hresume).
    destruct (plan_reads _ _ _ _) as [read_tuples n'].
    cbn [n resume_seek dest fdisk flog].
    assert (forall c, Forall (permitted false false resume)
                        [Readv _path (dest f) read_tuples c]) as Hreadv
      by (intros c; now repeat constructor).
    destruct (fault a) as [[[e [k|]] reconnect]|];
      try (apply raised_wire with (evs0 := [Readv _path (dest f) read_tuples false]);
           [reflexivity | apply Hreadv]);
      destruct (local_can_create (fdisk f) (dest f)); cbn [negb step_frame flog];
      trivial; destruct (s <? 0); cbn [step_frame flog]; trivial.
    + apply raised_wire with (evs0 := [Readv _path (dest f) read_tuples false]);
        [reflexivity | apply Hreadv].
    + eexists. split; [reflexivity | apply Hreadv].
  - assert (forall c, Forall (permitted false false resume)
                        [Get _path (realpath (dest f)) c]) as Hget
      by (intros c; now repeat constructor).
    destruct (local_can_create (fdisk f) (realpath (dest f)));
      cbn [negb step_frame flog].
    + destruct (fault a) as [[[e progress] reconnect]|].
      * apply raised_wire with (evs0 := [Get _path (realpath (dest f)) false]);
          [reflexivity | apply Hget].
      * eexists. split; [reflexivity | apply Hget].
    + eexists. split; [reflexivity | apply Hget].
Qed.

Lemma transfer_wire (resume : bool) (_path : string) (info : SFTPAttributes)
    (pending : list attempt) :
  forall (f f' : frame) (pending' : list attempt) (exc : option pyexc),
    transfer resume _path info pending f = (f', pending', exc) ->
    exists evs, flog f' = flog f ++ evs
                /\ Forall (permitted false false resume) evs.
Proof.
  intros f f' pending' exc Hrun.
  apply (transfer_rule MAX_PACKET_SIZE realpath resume _path info (fun _ => True)
           (fun f0 => exists evs, flog f0 = flog f ++ evs
                                  /\ Forall (permitted false false resume) evs)
           (fun f0 _ => exists evs, flog f0 = flog f ++ evs
                                    /\ Forall (permitted false false resume) evs))
    in Hrun; trivial.
  - intros a f0 _ (evs0 & Hevs0 & Hperm0).
    destruct (attempt_once_wire resume _path info a f0) as (evs & Hevs & Hperm).
    assert (exists evs1,
               flog (step_frame (attempt_once resume _path info a f0))
               = flog f ++ evs1
               /\ Forall (permitted false false resume) evs1) as H.
    { exists (evs0 ++ evs). rewrite Hevs, Hevs0, app_assoc. split; trivial.
      apply Forall_app. now split. }
    now destruct (attempt_once resume _path info a f0).
  - apply Forall_forall. auto.
  - exists []. rewrite app_nil_r. split; [trivial | constructor].
Qed.

Lemma permitted_weaken (km kt resume : bool) (evs : list event) :
  Forall (permitted false false resume) evs ->
  Forall (permitted km kt resume) evs.
Proof.
  intros H. eapply Forall_impl; [|exact H].
  intros [] Hev; cbn in *; trivial; discriminate.
Qed.

Lemma restore_permitted (km kt resume : bool) (target : string)
    (info : SFTPAttributes) :
  Forall (permitted km kt resume) (restore km kt target info).
Proof. unfold restore. destruct km, kt; repeat constructor. Qed.

(** The effect of the loop body on one entry, as far as the flags and the
    heap go. *)
Definition tame (self : nat) (km kt resume : bool) (w w' : world) : Prop :=
  (exists evs, log w' = log w ++ evs /\ Forall (permitted km kt resume) evs)
  /\ cached_by self (objects w) (objects w').

Lemma tame_refl (self : nat) (km kt resume : bool) (w : world) :
  tame self km kt resume w w.
Proof.
  split.
  - exists []. rewrite app_nil_r. split; [reflexivity | constructor].
  - apply cached_by_refl.
Qed.

Lemma tame_trans (self : nat) (km kt resume : bool) (w1 w2 w3 : world) :
  tame self km kt resume w1 w2 -> tame self km kt resume w2 w3 ->
  tame self km kt resume w1 w3.
Proof.
  intros ((evs1 & Hl1 & Hp1) & Hh1) ((evs2 & Hl2 & Hp2) & Hh2). split.
  - exists (evs1 ++ evs2). rewrite Hl2, Hl1, app_assoc. split; trivial.
    apply Forall_app. now split.
  - eapply cached_by_trans; eassumption.
Qed.

Lemma ensure_directory_tame (self : nat) (km kt resume : bool) (d : string)
    (w : world) : tame self km kt resume w (ensure_directory self d w).
Proof.
  unfold ensure_directory. destruct (negb _); [|apply tame_refl].
  split.
  - exists [Makedirs d]. split; [reflexivity | repeat constructor].
  - apply dircache_append_cached.
Qed.

Lemma download_tame (self : nat) (km kt resume : bool) (_path : string)
    (info : SFTPAttributes) (target : string) (l : locals) (seek0 : option Z)
    (w : world) :
  forall l' w' exc,
    download km kt resume _path info target l seek0 w = (l', w', exc) ->
    tame self km kt resume w w'.
Proof.
  intros l' w' exc. unfold Mirror.download.
  destruct (transfer resume _path info (attempts w) _)
    as [[[n' seek' dest' disk' log'] pending] exc0] eqn:Hrun.
  apply transfer_wire in Hrun as (evs & Hevs & Hperm).
  cbn [flog] in Hevs. intros [= <- <- <-]. cbn [log objects].
  apply (permitted_weaken km kt) in Hperm.
  split; [|apply cached_by_refl].
  destruct exc0.
  - exists evs. auto.
  - exists (evs ++ restore km kt dest' info). rewrite Hevs, app_assoc.
    split; trivial. apply Forall_app. split; trivial. apply restore_permitted.
Qed.

Lemma mirror_entry_tame (self : nat) (destroot : string)
    (km kt resume : bool) (entry : string * SFTPAttributes)
    (l : locals) (w : world) :
  forall l' w' exc,
    mirror_entry self destroot km kt resume entry l w = (l', w', exc) ->
    tame self km kt resume w w'.
Proof.
  intros l' w' exc. destruct entry as [_path info]. unfold Mirror.mirror_entry.
  destruct (is_dir info); [intros [= <- <- <-]; apply tame_refl|].
  set (dest_path := Posixpath.join destroot (Posixpath.dirname _path)).
  set (target := Posixpath.join dest_path (Posixpath.basename _path)).
  pose proof (ensure_directory_tame self km kt resume dest_path w) as H1.
  set (w1 := ensure_directory self dest_path w) in *.
  destruct (local_isdir (disk w1) target); [now intros [= <- <- <-]|].
  destruct (disk w1 target) as [[|current_size|current_size]|];
    try (intros Hrun; apply (download_tame self) in Hrun;
         eapply tame_trans; eassumption).
  destruct (negb (current_size =? st_size info)).
  - intros Hrun. apply (download_tame self) in Hrun.
    eapply tame_trans; eassumption.
  - intros [= <- <- <-]. eapply tame_trans; [exact H1|].
    split; [|apply cached_by_refl].
    cbn [log]. eexists. split; [reflexivity | apply restore_permitted].
Qed.

Lemma mirror_loop_tame (self : nat) (destroot : string)
    (km kt resume : bool) (entries : list (string * SFTPAttributes))
    (fin : ending) :
  forall (l : locals) (w : world),
    tame self km kt resume w
      (fst (mirror_loop self destroot km kt resume entries fin l w)).
Proof.
  induction entries as [|entry entries IH]; intros l w;
    cbn [Mirror.mirror_loop].
  - destruct fin as [|e]; apply tame_refl.
  - destruct (mirror_entry self destroot km kt resume entry l w)
      as [[l1 w1] [e|]] eqn:Hentry; apply mirror_entry_tame in Hentry.
    + exact Hentry.
    + eapply tame_trans; [exact Hentry | apply IH].
Qed.

Lemma mirror_tame (self : nat) (re : bool) (listing : listed remote)
    (path destroot : string) (km kt resume : bool) (w : world) :
  tame self km kt resume w
    (fst (mirror self re listing path destroot km kt resume w)).
Proof. unfold Mirror.mirror. apply mirror_loop_tame. Qed.

(** *** The exceptions of a resuming run *)






(** X14: the flags are honoured. A run changes modes only with
    [keep_modes], changes times only with [keep_times], and issues readv
    calls and reconnects only with [resume]; everything else it adds to the
    log is a directory creation or a [get]. *)
Theorem X14_flags_honoured (self : nat) (re : bool)
    (listing : listed remote) (path destroot : string)
    (km kt resume : bool) (w : world) :
  exists evs,
    log (fst (mirror self re listing path destroot km kt resume w))
    = log w ++ evs
    /\ Forall (permitted km kt resume) evs.
Proof.
  now destruct (mirror_tame self re listing path destroot km kt resume w)
    as (Hlog & _).
Qed.

(** X18: once a client has called [clear_directory_cache] (so that it has a
    list of its own), its mirror runs no longer change what any other client
    finds in [self._dircache]. *)
Theorem X18_cleared_client_isolated (self j : nat) (re : bool)
    (listing : listed remote) (path destroot : string)
    (km kt resume : bool) (w : world) :
  instance_dircache (objects w) self <> None ->
  j <> self ->
  _dircache (objects (fst (mirror self re listing path destroot km kt resume w))) j
  = _dircache (objects w) j.
Proof.
  intros Hown Hj.
  destruct (mirror_tame self re listing path destroot km kt resume w)
    as (_ & (Hothers & _ & Hself)).
  destruct (Hself Hown) as [Hclass _].
  unfold _dircache. now rewrite (Hothers j Hj), Hclass.
Qed.

(** X19: clients that never called [clear_directory_cache] share one
    list: after a run of [self], another such client [j] finds in
    [self._dircache] every directory that run has cached. *)
Theorem X19_uncleared_clients_share (self j : nat) (re : bool)
    (listing : listed remote) (path destroot : string)
    (km kt resume : bool) (w : world) :
  instance_dircache (objects w) self = None ->
  instance_dircache (objects w) j = None ->
  exists evs,
    log (fst (mirror self re listing path destroot km kt resume w))
    = log w ++ evs
    /\ _dircache
         (objects (fst (mirror self re listing path destroot km kt resume w))) j
       = _dircache (objects w) j ++ created evs.
Proof.
  intros Hself Hj.
  destruct (mirror_tame self re listing path destroot km kt resume w)
    as (_ & (Hothers & Hnone & _)).
  destruct (mirror_effect MAX_PACKET_SIZE realpath self re listing path destroot
              km kt resume w) as (evs & Hlog & Hcache & _).
  exists evs. split; trivial.
  assert (instance_dircache
            (objects (fst (mirror self re listing path destroot km kt resume w))) j
          = None) as Hj'.
  { destruct (Nat.eq_dec j self) as [->|Hne]; [auto|].
    now rewrite (Hothers j Hne). }
  unfold _dircache in *. rewrite Hj', Hj.
  rewrite (Hnone Hself), Hself in Hcache. exact Hcache.
Qed.

End Client.

End MirrorMore.

Module MirrorMoreScenarios.

Import Sftp Mirror MirrorFacts MirrorMore MirrorScenarios.

Local Open Scope string_scope.

Definition plain_mirror (resume : bool) (self : nat) (listing : list remote)
    (w : world) : world * result :=
  mirror MAX_REQUEST_SIZE canonical self false (Lists listing) "r" "/dst"
    true true resume w.

Definition three_files : list remote :=
  [file "a" 5; file "b" 6; file "c" 32778].

(** [c] is there in part, [b] in full, [a] not at all. *)
Definition partly_there : world :=
  start fresh_heap [("/dst/r/b", LFile 6); ("/dst/r/c", LFile 1)].

Lemma mirror_counts_without_resume_witness :
  2 = transferred (log (fst (plain_mirror false 0 three_files partly_there)))
      - transferred (log partly_there).
Proof.
  apply (mirror_counts_without_resume MAX_REQUEST_SIZE canonical 0 false
           (Lists three_files) "r" "/dst" true true partly_there
           (fst (plain_mirror false 0 three_files partly_there)) 2).
  unfold plain_mirror.
  rewrite (surjective_pairing (mirror _ _ _ _ _ _ _ _ _ _ _)) at 1.
  f_equal.
Defined.

Lemma plan_reads_tiles_witness :
  let ws := fst (plan_reads MAX_REQUEST_SIZE 100000 1000 0) in
  Resume.contiguous 1000 ws
  /\ Resume.total_len ws = 100000 - 1000
  /\ Forall (fun w => 0 <= snd w <= MAX_REQUEST_SIZE) ws.
Proof.
  apply (Resume.plan_reads_tiles MAX_REQUEST_SIZE eq_refl 100000 1000 0).
  - lia.
  - lia.
  - intros H. vm_compute in H. discriminate H.
Defined.




(** On the disk a first run leaves behind when its directory is removed,
    the cached directory is not created again and the [get] of the second
    run cannot open its local file. *)
Example stale_cache_get_fails :
  let w1 := fst (run 0 [file "f" 5] (start fresh_heap [])) in
  let '(w2, r) := run 0 [file "f" 5] (start (objects w1) []) in
  log w2 = [Get "r/f" "/dst/r/f" false] /\ r = Raise (IOError "/dst/r/f").
Proof. vm_compute. split; reflexivity. Qed.

(** A destination that is complete but cannot be opened for reading is
    fetched again. *)
Example unreadable_destination_fetched :
  log (fst (run 0 [file "b" 6]
              (start fresh_heap [("/dst/r/b", LUnreadable 6)]))) =
  [Makedirs "/dst/r"; Get "r/b" "/dst/r/b" true;
   Chmod "/dst/r/b" 33188; Utime "/dst/r/b" 0 0].
Proof. vm_compute. reflexivity. Qed.

Definition entry_c : string * SFTPAttributes :=
  ("r/c", mk_attr "c" 33188 32778 0 0).

(** [c] is there, empty. *)
Definition empty_there : world := start fresh_heap [("/dst/r/c", LFile 0)].

Lemma mirror_entry_leaves_no_offset_witness :
  let l' := fst (fst (mirror_entry MAX_REQUEST_SIZE canonical 0 "/dst" true
                        true true entry_c (mk_locals 0 None) empty_there)) in
  seek l' = None \/ seek l' = Some 0.
Proof.
  apply (mirror_entry_leaves_no_offset MAX_REQUEST_SIZE canonical 0 "/dst"
           true true entry_c (mk_locals 0 None) empty_there _
           (snd (fst (mirror_entry MAX_REQUEST_SIZE canonical 0 "/dst" true true
                        true entry_c (mk_locals 0 None) empty_there)))).
  - left. reflexivity.
  - rewrite (surjective_pairing (mirror_entry _ _ _ _ _ _ _ _ _ _)) at 1.
    rewrite (surjective_pairing
               (fst (mirror_entry _ _ _ _ _ _ _ _ _ _))) at 1.
    f_equal.
Defined.

(** Client 0 has called [clear_directory_cache]; client 1 has not. *)
Definition cleared : world :=
  start (clear_directory_cache fresh_heap 0) [].

Lemma X18_cleared_client_isolated_witness :
  _dircache (objects (fst (plain_mirror true 0 three_files cleared))) 1
  = _dircache (objects cleared) 1.
Proof.
  apply (X18_cleared_client_isolated MAX_REQUEST_SIZE canonical 0 1 false
           (Lists three_files) "r" "/dst" true true true cleared).
  - cbn. discriminate.
  - lia.
Defined.

Lemma X19_uncleared_clients_share_witness :
  exists evs : list event,
    log (fst (plain_mirror true 0 three_files partly_there))
    = (log partly_there ++ evs)%list
    /\ _dircache (objects (fst (plain_mirror true 0 three_files partly_there))) 1
       = (_dircache (objects partly_there) 1 ++ created evs)%list.
Proof.
  apply (X19_uncleared_clients_share MAX_REQUEST_SIZE canonical 0 1 false
           (Lists three_files) "r" "/dst" true true true partly_there).
  - reflexivity.
  - reflexivity.
Defined.

(** After an empty local file the offset that is handed on is [0], not
    [None]. *)
Example empty_destination_leaves_zero :
  seek (fst (fst (mirror_entry MAX_REQUEST_SIZE canonical 0 "/dst" true true
                    true entry_c (mk_locals 0 None) empty_there)))
  = Some 0.
Proof. vm_compute. reflexivity. Qed.

(** A remote directory [d] of mode [0o40755] and what listing it does. *)
Definition folder (nm : string) (listing : listed remote) : remote :=
  Entry (mk_attr nm 16877 4096 0 0) listing.

(** [d1] cannot be read, [d2] holds [g]. *)
Definition with_locked_folder : list remote :=
  [file "a" 5; folder "d1" (Fails (IOError "Permission denied"));
   folder "d2" (Lists [file "g" 7])].

(** The transport fails while [d1] is listed. *)
Definition with_broken_listing : list remote :=
  [file "a" 5; folder "d1" (Fails (SFTPError "Garbage packet received"));
   folder "d2" (Lists [file "g" 7])].

Example locked_folder_skipped :
  map fst (yields (listdir_attr_recurse false "r" (Lists with_locked_folder)))
  = ["r/a"; "r/d2/g"]
  /\ finish (listdir_attr_recurse false "r" (Lists with_locked_folder))
     = Stopped
  /\ finish (listdir_attr_recurse true "r" (Lists with_locked_folder))
     = Raised (IOError "Permission denied").
Proof. vm_compute. repeat split; reflexivity. Qed.

Example broken_listing_ends_lenient_walk :
  listdir_attr_recurse false "r" (Lists with_broken_listing)
  = ([("r/a", mk_attr "a" 33188 5 0 0)],
     Raised (SFTPError "Garbage packet received")).
Proof. vm_compute. reflexivity. Qed.

(** The first [get] times out after 3 bytes, the resumed transfer that
    follows is cut by an [SFTPError], the third attempt completes. *)
Definition shaky (table : list (string * lnode)) : world :=
  mk_world fresh_heap (local_of table)
    [Faults SocketTimeout (Some 3); Faults (SFTPError "Failure") (Some 20)] [].


(** The timeout leaves 3 bytes, so the handler sets [resume_seek] to
    [-7] and the resumed transfer fails at [f.seek]. *)
Example shaky_run :
  let '(w', r) := mirror MAX_REQUEST_SIZE canonical 0 false
                    (Lists with_locked_folder) "r" "/dst" true true true
                    (shaky []) in
  log w' = [Makedirs "/dst/r"; Get "r/a" "/dst/r/a" false; Reconnect]
  /\ r = Raise (IOError "Invalid argument").
Proof. vm_compute. split; reflexivity. Qed.

(** When the reconnect after a fault fails, its exception leaves
    [mirror]. *)
Example failed_reconnect_leaves :
  snd (mirror MAX_REQUEST_SIZE canonical 0 false (Lists [file "a" 50]) "r"
         "/dst" true true true
         (mk_world fresh_heap (local_of [])
            [Stranded SocketTimeout (Some 30) (OtherError "SSHException")] []))
  = Raise (OtherError "SSHException").
Proof. vm_compute. reflexivity. Qed.

End MirrorMoreScenarios.

(** * [xirvik/client.py]: labelling torrents through ruTorrent *)

Module Client.

Local Open Scope string_scope.

(** Exceptions of the ruTorrent client and of its callers; [Verifier]
    wraps what [verify_torrent_contents] raises. *)
Inductive rt_exc : Type :=
| TypeError
| HTTPError
| IndexError
| UnexpectedruTorrentError (msg : string)
| Verifier (e : pyexc)
| AttributeError.

Inductive rt_outcome : Type :=
| Done
| Failed (e : rt_exc).

Definition TORRENT_LABEL_INDEX : nat := 14.
Definition TORRENT_PATH_INDEX : nat := 25.

(** What [list_torrents()] returns: the items of [r.json()['t']] in
    order, each torrent hash with its row of columns. *)
Definition listing := list (string * list string).

(** How [move_torrent] is answered: the HTTP status is an error, the JSON
    carries a non-empty [errors] entry, or neither. *)
Inductive move_answer : Type :=
| Moved
| MoveRefused
| MoveErrors (errors : string).

(** The ruTorrent server as the client sees it: the answer to the [k]-th
    [setlabel] request ([None] when [raise_for_status] raises, otherwise
    [len(r.json())]), the answer to the [k]-th [list] request, and the
    answer to moving a torrent. *)
Record server : Type := mk_server {
  setlabel_reply : nat -> option nat;
  list_reply : nat -> option listing;
  move_reply : string -> string -> move_answer
}.

Inductive request : Type :=
| SetLabel (hashes : list string) (data : string)
| ListTorrents
| MoveTorrent (hash target_dir : string).

(** The requests sent so far, oldest first. *)
Definition session := list request.

Definition setlabels_sent (s : session) : nat :=
  length (filter (fun r => match r with SetLabel _ _ => true | _ => false end) s).

Definition lists_sent (s : session) : nat :=
  length (filter (fun r => match r with ListTorrents => true | _ => false end) s).

(** [s * n] for a string [s]. *)
Fixpoint times (s : string) (n : nat) : string :=
  match n with
  | O => EmptyString
  | S n' => s ++ times s n'
  end.

(** The POST body built from [b'mode=setlabel'] on. *)
Definition setlabel_data (hashes : list string) (label : string) : string :=
  fold_left (fun data hash => data ++ "&hash=" ++ hash) hashes "mode=setlabel"
  ++ times ("&v=" ++ label) (length hashes)
  ++ times "&s=label" (length hashes).

(** Code points below 256 for which [str.isspace] holds. *)
Definition isspace (c : ascii) : bool :=
  let n := nat_of_ascii c in
  ((9 <=? n) && (n <=? 13) || (28 <=? n) && (n <=? 32)
   || (n =? 133) || (n =? 160))%nat.

(** Truth value of [s.strip()]. *)
Fixpoint strip_truthy (s : string) : bool :=
  match s with
  | EmptyString => false
  | String c r => negb (isspace c) || strip_truthy r
  end.

Definition is_nil {A} (l : list A) : bool :=
  match l with [] => true | _ => false end.

Definition str_truthy (s : option string) : bool :=
  match s with
  | Some (String _ _) => true
  | _ => false
  end.

(** The loop over [self.list_torrents().items()] that collects
    [new_hashes]; [None] when [v[TORRENT_LABEL_INDEX]] raises [IndexError]. *)
Fixpoint unlabelled (t : listing) (hashes : list string)
    : option (list string) :=
  match t with
  | [] => Some []
  | (hash, v) :: t' =>
      if negb (Sftp.mem hash hashes) then unlabelled t' hashes
      else
        match nth_error v TORRENT_LABEL_INDEX with
        | None => None
        | Some lbl =>
            if strip_truthy lbl then unlabelled t' hashes
            else option_map (cons hash) (unlabelled t' hashes)
        end
  end.

(** [set_label_to_hashes]; each level of [fuel] is one level of the
    recursion, and [None] means the levels were used up. *)
Fixpoint set_label_levels (fuel : nat) (srv : server)
    (hashes : list string) (label : option string)
    (allow_recursive_fix : bool) (recursion_limit recursion_attempt : Z)
    (s : session) : option (session * rt_outcome) :=
  match fuel with
  | O => None
  | S fuel' =>
      if is_nil hashes || negb (str_truthy label) then
        Some (s, Failed TypeError)
      else
        let lbl := match label with Some l => l | None => EmptyString end in
        let s1 := (s ++ [SetLabel hashes (setlabel_data hashes lbl)])%list in
        match setlabel_reply srv (setlabels_sent s) with
        | None => Some (s1, Failed HTTPError)
        | Some json_len =>
            if negb (Nat.eqb json_len (length hashes)) then
              if allow_recursive_fix && (recursion_attempt <? recursion_limit)%Z
              then
                let recursion_attempt := (recursion_attempt + 1)%Z in
                let s2 := (s1 ++ [ListTorrents])%list in
                match list_reply srv (lists_sent s1) with
                | None => Some (s2, Failed HTTPError)
                | Some t =>
                    match unlabelled t hashes with
                    | None => Some (s2, Failed IndexError)
                    | Some new_hashes =>
                        if is_nil new_hashes then Some (s2, Done)
                        else
                          set_label_levels fuel' srv new_hashes label true
                            recursion_limit recursion_attempt s2
                    end
                end
              else Some (s1, Done)
            else Some (s1, Done)
        end
  end.

(** One level for the call itself and one for every attempt still allowed. *)
Definition levels (recursion_limit recursion_attempt : Z) : nat :=
  S (Z.to_nat (recursion_limit - recursion_attempt)).

Definition set_label_to_hashes (srv : server) (hashes : list string)
    (label : option string) (allow_recursive_fix : bool)
    (recursion_limit recursion_attempt : Z) (s : session)
    : session * rt_outcome :=
  match set_label_levels (levels recursion_limit recursion_attempt) srv hashes
          label allow_recursive_fix recursion_limit recursion_attempt s with
  | Some r => r
  | None => (s, Done)
  end.

(** [set_label(label, hash)] *)
Definition set_label (srv : server) (label : option string) (hash : string)
    (s : session) : session * rt_outcome :=
  set_label_to_hashes srv [hash] label true 5 0 s.

(** [move_torrent(hash, target_dir)] *)
Definition move_torrent (srv : server) (hash target_dir : string)
    (s : session) : session * rt_outcome :=
  let s1 := (s ++ [MoveTorrent hash target_dir])%list in
  match move_reply srv hash target_dir with
  | Moved => (s1, Done)
  | MoveRefused => (s1, Failed HTTPError)
  | MoveErrors errors => (s1, Failed (UnexpectedruTorrentError errors))
  end.

End Client.

Module ClientFacts.

Import Client.

Lemma setlabels_sent_app (a c : session) :
  setlabels_sent (a ++ c) = (setlabels_sent a + setlabels_sent c)%nat.
Proof. unfold setlabels_sent. now rewrite filter_app, length_app. Qed.

Lemma lists_sent_app (a c : session) :
  lists_sent (a ++ c) = (lists_sent a + lists_sent c)%nat.
Proof. unfold lists_sent. now rewrite filter_app, length_app. Qed.

Lemma unlabelled_incl (t : listing) (hashes new_hashes : list string) :
  unlabelled t hashes = Some new_hashes -> incl new_hashes hashes.
Proof.
  revert new_hashes. induction t as [|[hash v] t IH]; intros new_hashes;
    cbn [unlabelled].
  - intros [= <-]. intros x [].
  - destruct (Sftp.mem hash hashes) eqn:Hmem; cbn [negb]; [|apply IH].
    destruct (nth_error v TORRENT_LABEL_INDEX) as [lbl|]; [|discriminate].
    destruct (strip_truthy lbl); [apply IH|].
    destruct (unlabelled t hashes) as [rest|]; [|discriminate].
    intros [= <-]. intros x [<- | Hx].
    + now apply MirrorFacts.mem_In.
    + now apply (IH rest).
Qed.

(** What a call may send: label requests for non-empty parts of [hashes]
    with the body built for them, and list requests. *)
Definition asks_within (hashes : list string) (label : string)
    (r : request) : Prop :=
  match r with
  | SetLabel hs data =>
      incl hs hashes /\ hs <> [] /\ data = setlabel_data hs label
  | ListTorrents => True
  | MoveTorrent _ _ => False
  end.

Lemma asks_within_incl (hashes hashes' : list string) (label : string)
    (new : session) :
  incl hashes' hashes ->
  Forall (asks_within hashes' label) new -> Forall (asks_within hashes label) new.
Proof.
  intros Hincl H. eapply Forall_impl; [|exact H].
  intros [hs data| |] Hr; cbn in *; trivial.
  destruct Hr as (H1 & H2 & H3). repeat split; trivial.
  eapply incl_tran; eassumption.
Qed.

Lemma set_label_levels_spec (srv : server) (label : option string)
    (recursion_limit : Z) (fuel : nat) :
  forall (hashes : list string) (allow : bool) (recursion_attempt : Z)
         (s : session),
    (Z.to_nat (recursion_limit - recursion_attempt) < fuel)%nat ->
    exists new out,
      set_label_levels fuel srv hashes label allow recursion_limit
        recursion_attempt s = Some ((s ++ new)%list, out)
      /\ (setlabels_sent new
          <= S (Z.to_nat (recursion_limit - recursion_attempt)))%nat
      /\ (lists_sent new <= Z.to_nat (recursion_limit - recursion_attempt))%nat
      /\ (allow = false -> length new <= 1)%nat
      /\ Forall (asks_within hashes
                   match label with Some l => l | None => EmptyString end) new.
Proof.
  induction fuel as [|fuel IH]; intros hashes allow attempt s Hfuel; [lia|].
  cbn [set_label_levels].
  destruct (is_nil hashes || negb (str_truthy label)) eqn:Hargs.
  { exists [], (Failed TypeError). rewrite app_nil_r.
    repeat split; cbn; try lia; constructor. }
  apply orb_false_iff in Hargs as [Hnil _].
  assert (hashes <> []) as Hne by (destruct hashes; [discriminate | congruence]).
  set (lbl := match label with Some l => l | None => EmptyString end).
  set (first := SetLabel hashes (setlabel_data hashes lbl)).
  assert (asks_within hashes lbl first) as Hfirst
    by (cbn; repeat split; trivial; apply incl_refl).
  destruct (setlabel_reply srv (setlabels_sent s)) as [json_len|].
  2: { exists [first], (Failed HTTPError).
       repeat split; cbn; try lia; repeat constructor; trivial; apply incl_refl. }
  destruct (Nat.eqb json_len (length hashes)); cbn [negb].
  { exists [first], Done.
    repeat split; cbn; try lia; repeat constructor; trivial; apply incl_refl. }
  destruct allow; cbn [andb].
  2: { exists [first], Done.
       repeat split; cbn; try lia; repeat constructor; trivial; apply incl_refl. }
  destruct (Z.ltb_spec attempt recursion_limit) as [Hlt|Hge].
  2: { exists [first], Done.
       repeat split; cbn; try lia; try discriminate;
         repeat constructor; trivial; apply incl_refl. }
  assert (Z.to_nat (recursion_limit - attempt)
          = S (Z.to_nat (recursion_limit - (attempt + 1)))) as Hstep by lia.
  destruct (list_reply srv (lists_sent (s ++ [first]))) as [t|].
  2: { exists [first; ListTorrents], (Failed HTTPError).
       rewrite <- app_assoc. cbn [app].
       repeat split; cbn; try lia; try discriminate;
         repeat constructor; trivial; apply incl_refl. }
  destruct (unlabelled t hashes) as [new_hashes|] eqn:Hnew.
  2: { exists [first; ListTorrents], (Failed IndexError).
       rewrite <- app_assoc. cbn [app].
       repeat split; cbn; try lia; try discriminate;
         repeat constructor; trivial; apply incl_refl. }
  destruct (is_nil new_hashes).
  { exists [first; ListTorrents], Done.
    rewrite <- app_assoc. cbn [app].
    repeat split; cbn; try lia; try discriminate;
      repeat constructor; trivial; apply incl_refl. }
  destruct (IH new_hashes true (attempt + 1) ((s ++ [first]) ++ [ListTorrents])%list)
    as (new & out & Hrun & Hsets & Hlists & _ & Hasks); [lia|].
  exists (first :: ListTorrents :: new), out.
  rewrite Hrun, <- !app_assoc. cbn [app].
  split; [reflexivity|].
  change (first :: ListTorrents :: new)
    with (([first; ListTorrents] ++ new)%list).
  rewrite setlabels_sent_app, lists_sent_app.
  change (setlabels_sent [first; ListTorrents]) with 1%nat.
  change (lists_sent [first; ListTorrents]) with 1%nat.
  split; [lia|]. split; [lia|]. split; [discriminate|].
  apply Forall_app. split.
  - constructor; [exact Hfirst|]. constructor; [exact I | constructor].
  - apply (asks_within_incl hashes new_hashes); trivial.
    now apply (unlabelled_incl t).
Qed.

(** X22: [set_label_to_hashes] always returns, and however the server
    answers it sends at most [recursion_limit - recursion_attempt + 1] label
    requests (six with the defaults) and one list request fewer; with
    [allow_recursive_fix=False] it sends at most one request. Every label
    request is for a non-empty part of the hashes asked for and carries the
    body built for that part. *)
Theorem X22_label_requests_bounded (srv : server) (hashes : list string)
    (label : option string) (allow : bool)
    (recursion_limit recursion_attempt : Z) (s : session) :
  exists new,
    fst (set_label_to_hashes srv hashes label allow recursion_limit
           recursion_attempt s) = (s ++ new)%list
    /\ set_label_levels (levels recursion_limit recursion_attempt) srv hashes
         label allow recursion_limit recursion_attempt s <> None
    /\ (setlabels_sent new
        <= S (Z.to_nat (recursion_limit - recursion_attempt)))%nat
    /\ (lists_sent new <= Z.to_nat (recursion_limit - recursion_attempt))%nat
    /\ (allow = false -> length new <= 1)%nat
    /\ Forall (asks_within hashes
                 match label with Some l => l | None => EmptyString end) new.
Proof.
  destruct (set_label_levels_spec srv label recursion_limit
              (levels recursion_limit recursion_attempt) hashes allow
              recursion_attempt s) as (new & out & Hrun & H1 & H2 & H3 & H4);
    [unfold levels; lia|].
  exists new. unfold set_label_to_hashes. rewrite Hrun. cbn [fst].
  repeat split; trivial. discriminate.
Qed.

(** X21: without hashes, or with a label that is [None] or the empty
    string, [set_label_to_hashes] raises [TypeError] before anything is
    sent; a label can therefore not be removed by passing an empty string. *)
Theorem X21_empty_label_rejected (srv : server) (hashes : list string)
    (label : option string) (allow : bool)
    (recursion_limit recursion_attempt : Z) (s : session) :
  hashes = [] \/ label = None \/ label = Some EmptyString ->
  set_label_to_hashes srv hashes label allow recursion_limit recursion_attempt s
  = (s, Failed TypeError).
Proof.
  intros H. unfold set_label_to_hashes, levels. cbn [set_label_levels].
  destruct H as [-> | [-> | ->]]; cbn; trivial; now rewrite orb_true_r.
Qed.

End ClientFacts.

Module ClientScenarios.

Import Client ClientFacts.

Local Open Scope string_scope.

(** A server that answers every label request with an empty array and
    lists [h1] with a blank label, [h2] with a label and [h3] without one. *)
Definition forgetful : server :=
  mk_server (fun _ => Some 0%nat)
    (fun _ => Some [("h1", repeat EmptyString 14 ++ [" "]);
                    ("h2", repeat EmptyString 14 ++ ["seen"]);
                    ("h3", repeat EmptyString 15)]%list)
    (fun _ _ => Moved).

Lemma X21_empty_label_rejected_witness :
  set_label_to_hashes forgetful ["h1"] (Some EmptyString) true 5 0 []
  = ([], Failed TypeError).
Proof. apply X21_empty_label_rejected. right. right. reflexivity. Defined.

Example forgetful_run :
  map (fun r => match r with SetLabel hs _ => hs | _ => [] end)
    (fst (set_label_to_hashes forgetful ["h1"; "h2"; "h4"]
            (Some "new") true 2 0 []))
  = [["h1"; "h2"; "h4"]; []; ["h1"]; []; ["h1"]]
  /\ snd (set_label_to_hashes forgetful ["h1"; "h2"; "h4"]
            (Some "new") true 2 0 []) = Done.
Proof. vm_compute. split; reflexivity. Qed.

Example label_body :
  setlabel_data ["a1"; "b2"] "x y"
  = "mode=setlabel&hash=a1&hash=b2&v=x y&v=x y&s=label&s=label".
Proof. reflexivity. Qed.

End ClientScenarios.

(** * [xirvik/commands/move_by_label.py] *)

Module MoveByLabel.

Import Client.

Local Open Scope string_scope.

(** A value of a [list_torrents_dict()] entry. That function turns every
    column it has no other rule for into an [int] or a [float] when the
    text reads as one, and leaves it a [str] otherwise: a label [2019] is
    the number 2019. A number is given by whether it equals 0 and by what
    [str()] makes of it. *)
Inductive pyvalue : Type :=
| Str (s : string)
| Number (zero : bool) (text : string).

(** The fields of a [list_torrents_dict()] entry that the command reads,
    for an entry made from a row with all its columns. *)
Record info : Type := mk_info {
  name : pyvalue;
  custom1 : pyvalue;
  base_path : pyvalue;
  is_hash_checking : bool;
  left_bytes : pyvalue
}.

(** [str.lower] on code points below 256. *)
Definition lower_char (c : ascii) : ascii :=
  let n := nat_of_ascii c in
  if ((65 <=? n) && (n <=? 90)
      || (192 <=? n) && (n <=? 222) && negb (n =? 215))%nat
  then ascii_of_nat (n + 32)
  else c.

Fixpoint lower (s : string) : string :=
  match s with
  | EmptyString => EmptyString
  | String c r => String (lower_char c) (lower r)
  end.

(** [PREFIX.format(username)] *)
Definition PREFIX (username : string) : string :=
  "/torrents/" ++ username ++ "/_completed".

(** ['{}/{}'.format(PREFIX.format(username), label)] *)
Definition move_to (username label : string) : string :=
  PREFIX username ++ "/" ++ label.

(** [bpc]: [str.lower] raises [TypeError] on a number, and a number has no
    [startswith]. *)
Definition base_path_check (username : string) (hi : string * info)
    : rt_exc + bool :=
  let '(_, i) := hi in
  match custom1 i with
  | Number _ _ => inl TypeError
  | Str label =>
      match base_path i with
      | Number _ _ => inl AttributeError
      | Str path =>
          inr (negb (String.prefix (move_to username (lower label)) path))
      end
  end.

Definition key_check (hi : string * info) : bool :=
  let '(_, i) := hi in
  negb (is_hash_checking i)
  && match left_bytes i with
     | Number zero _ => zero
     | Str _ => false
     end.

(** [list(filter(base_path_check(username), filter(key_check, torrents)))]:
    an entry reaches [bpc] when [key_check] lets it through, and the list
    is complete before the loop starts. *)
Fixpoint select (username : string) (torrents : list (string * info))
    : rt_exc + list (string * info) :=
  match torrents with
  | [] => inr []
  | hi :: rest =>
      if key_check hi then
        match base_path_check username hi with
        | inl e => inl e
        | inr keep =>
            match select username rest with
            | inl e => inl e
            | inr l => inr (if keep then hi :: l else l)
            end
        end
      else select username rest
  end.

(** What the command does to the outside: requests to the server and
    calls of [sleep]. *)
Inductive action : Type :=
| Request (r : request)
| Sleep (seconds : Z).

Inductive exit : Type :=
| Returned (status : Z)
| Crashed (e : rt_exc).

(** The [for hash, info in ...:] loop of [main] over the torrents that
    passed both filters. *)
Fixpoint move_all (srv : server) (username : string)
    (ignore_labels : list string) (lower_label : bool) (sleep_time : Z)
    (selected : list (string * info)) (count : Z) (done : list action)
    : list action * exit :=
  match selected with
  | [] => (done, Returned 0)
  | (hash, i) :: rest =>
      let label := custom1 i in
      if match label with
         | Str l => Sftp.mem l ignore_labels
         | Number _ _ => false
         end
      then
        move_all srv username ignore_labels lower_label sleep_time rest
          count done
      else
        match
          match label with
          | Str l => Some (if lower_label then lower l else l)
          | Number _ text => if lower_label then None else Some text
          end
        with
        | None => (done, Crashed AttributeError)
        | Some label =>
            let target := move_to username label in
            let '(sent, out) := move_torrent srv hash target [] in
            let done := (done ++ map Request sent)%list in
            match out with
            | Failed e => (done, Crashed e)
            | Done =>
                let count := (count + 1)%Z in
                let done :=
                  if ((count >? 0) && (count mod 10 =? 0))%Z
                  then (done ++ [Sleep sleep_time])%list
                  else done in
                move_all srv username ignore_labels lower_label sleep_time
                  rest count done
            end
        end
  end.

(** [main] from the call of [list_torrents_dict] on; [torrents] is [None]
    when that call raises [ValueError] or [HTTPError]. *)
Definition main (srv : server) (username : string)
    (ignore_labels : list string) (lower_label : bool) (sleep_time : Z)
    (torrents : option (list (string * info))) : list action * exit :=
  match torrents with
  | None => ([], Returned 1)
  | Some ts =>
      match select username ts with
      | inl e => ([], Crashed e)
      | inr selected =>
          move_all srv username ignore_labels lower_label sleep_time
            selected 0 []
      end
  end.

End MoveByLabel.

Module MoveByLabelFacts.

Import Client MoveByLabel.

Definition moves (done : list action) : list (string * string) :=
  flat_map (fun a => match a with
                     | Request (MoveTorrent h t) => [(h, t)]
                     | _ => []
                     end) done.

Definition sleeps (done : list action) : Z :=
  len (filter (fun a => match a with Sleep _ => true | _ => false end) done).

Lemma moves_app (a c : list action) : moves (a ++ c) = moves a ++ moves c.
Proof. apply flat_map_app. Qed.

Lemma sleeps_app (a c : list action) : sleeps (a ++ c) = sleeps a + sleeps c.
Proof. unfold sleeps, len. rewrite filter_app, length_app. lia. Qed.

(** [move_torrent] sends exactly the one request. *)
Lemma move_torrent_sends (srv : server) (hash target : string) (s : session) :
  fst (move_torrent srv hash target s) = (s ++ [MoveTorrent hash target])%list.
Proof. unfold move_torrent. now destruct (move_reply srv hash target). Qed.

(** What both filters let through. *)
Definition chosen (username : string) (hi : string * info) : Prop :=
  exists label path text,
    custom1 (snd hi) = Str label
    /\ base_path (snd hi) = Str path
    /\ is_hash_checking (snd hi) = false
    /\ left_bytes (snd hi) = Number true text
    /\ String.prefix (move_to username (lower label)) path = false.

Lemma select_chosen (username : string) (ts : list (string * info)) :
  forall selected,
    select username ts = inr selected ->
    Forall (fun hi => In hi ts /\ chosen username hi) selected.
Proof.
  induction ts as [|[hash i] ts IH]; intros selected; cbn [select].
  - intros [= <-]. constructor.
  - assert (forall l, Forall (fun hi => In hi ts /\ chosen username hi) l ->
                      Forall (fun hi => In hi ((hash, i) :: ts)
                                        /\ chosen username hi) l) as Hlater.
    { intros l. apply Forall_impl. intros hi [Hin Hhi]. split; trivial.
      now right. }
    destruct (key_check (hash, i)) eqn:Hkey; [|intros H; now apply Hlater, IH].
    unfold base_path_check.
    destruct (custom1 i) as [label|] eqn:Hlabel; [|discriminate].
    destruct (base_path i) as [path|] eqn:Hpath; [|discriminate].
    destruct (select username ts) as [e|l]; [discriminate|].
    specialize (IH l eq_refl). apply Hlater in IH.
    destruct (String.prefix _ path) eqn:Hprefix; cbn [negb];
      intros [= <-]; trivial.
    constructor; trivial. split; [now left|].
    cbn in Hkey. apply andb_true_iff in Hkey as [Hcheck Hleft].
    destruct (left_bytes i) as [|zero text] eqn:Hbytes; [discriminate|].
    subst zero. exists label, path, text. cbn [snd].
    repeat split; trivial. now destruct (is_hash_checking i).
Qed.

(** Why a torrent may be moved, and where to. *)
Definition due (username : string) (ignore_labels : list string)
    (lower_label : bool) (ts : list (string * info))
    (m : string * string) : Prop :=
  exists i label path text,
    In (fst m, i) ts
    /\ custom1 i = Str label
    /\ base_path i = Str path
    /\ is_hash_checking i = false
    /\ left_bytes i = Number true text
    /\ ~ In label ignore_labels
    /\ String.prefix (move_to username (lower label)) path = false
    /\ snd m = move_to username (if lower_label then lower label else label).

Lemma move_all_due (srv : server) (username : string)
    (ignore_labels : list string) (lower_label : bool) (sleep_time : Z)
    (ts : list (string * info)) (selected : list (string * info)) :
  Forall (fun hi => In hi ts /\ chosen username hi) selected ->
  forall (count : Z) (done : list action),
    exists added,
      fst (move_all srv username ignore_labels lower_label sleep_time selected
             count done) = done ++ added
      /\ Forall (due username ignore_labels lower_label ts) (moves added).
Proof.
  induction 1 as [|[hash i] rest [Hin Hchosen] _ IH]; intros count done;
    cbn [move_all].
  - exists []. rewrite app_nil_r. split; [reflexivity | constructor].
  - destruct Hchosen as (label & path & text & Hlabel & Hpath & Hcheck
                         & Hleft & Hprefix).
    cbn [snd] in *. rewrite Hlabel.
    destruct (Sftp.mem label ignore_labels) eqn:Hignored; [now apply IH|].
    set (target := move_to username (if lower_label then lower label else label)).
    assert (due username ignore_labels lower_label ts (hash, target)) as Hdue.
    { exists i, label, path, text. cbn [fst snd]. repeat split; trivial.
      rewrite <- MirrorFacts.mem_In, Hignored. discriminate. }
    pose proof (move_torrent_sends srv hash target []) as Hsent.
    destruct (move_torrent srv hash target []) as [sent out].
    cbn [fst app] in Hsent. subst sent. cbn [map].
    destruct out as [|e].
    + match goal with
      | |- context [move_all _ _ _ _ _ rest ?c ?d] =>
          destruct (IH c d) as (added & Hrun & Hadded)
      end.
      rewrite Hrun.
      destruct ((count + 1 >? 0) && ((count + 1) mod 10 =? 0)).
      * exists ([Request (MoveTorrent hash target); Sleep sleep_time] ++ added).
        rewrite <- !app_assoc. split; [reflexivity|].
        rewrite moves_app. apply Forall_app. split; trivial.
        now repeat constructor.
      * exists ([Request (MoveTorrent hash target)] ++ added).
        rewrite <- !app_assoc. split; [reflexivity|].
        rewrite moves_app. apply Forall_app. split; trivial.
        now repeat constructor.
    + exists [Request (MoveTorrent hash target)].
      split; [reflexivity|]. now repeat constructor.
Qed.

(** X23: the command moves a torrent only if it is listed, is not being
    hash-checked, has no bytes left to download, carries a label that is a
    string, is not ignored, and does not already lie under
    [/torrents/<user>/_completed/<label in lower case>]; the target is
    [/torrents/<user>/_completed/<label>], with the label in lower case
    exactly when [--lower-label] is given. *)
Theorem X23_moves_are_due (srv : server) (username : string)
    (ignore_labels : list string) (lower_label : bool) (sleep_time : Z)
    (ts : list (string * info)) :
  Forall (due username ignore_labels lower_label ts)
    (moves (fst (main srv username ignore_labels lower_label sleep_time
                   (Some ts)))).
Proof.
  cbn [main].
  destruct (select username ts) as [e|selected] eqn:Hselect; [constructor|].
  destruct (move_all_due srv username ignore_labels lower_label sleep_time ts
              selected (select_chosen _ _ _ Hselect) 0 [])
    as (added & Hrun & Hdue).
  rewrite Hrun. exact Hdue.
Qed.

Lemma move_all_sleeps (srv : server) (username : string)
    (ignore_labels : list string) (lower_label : bool) (sleep_time : Z)
    (selected : list (string * info)) :
  forall (count : Z) (done : list action) (status : Z),
    0 <= count ->
    len (moves done) = count ->
    sleeps done = count / 10 ->
    snd (move_all srv username ignore_labels lower_label sleep_time
           selected count done) = Returned status ->
    status = 0
    /\ sleeps (fst (move_all srv username ignore_labels lower_label sleep_time
                      selected count done))
       = len (moves (fst (move_all srv username ignore_labels lower_label
                            sleep_time selected count done))) / 10.
Proof.
  induction selected as [|[hash i] rest IH];
    intros count done status Hcount Hmoves Hsleeps; cbn [move_all].
  - cbn [fst snd]. intros [= <-]. split; trivial. now rewrite Hmoves.
  - destruct (match custom1 i with
              | Str l => Sftp.mem l ignore_labels
              | Number _ _ => false
              end); [now apply IH|].
    destruct (match custom1 i with
              | Str l => Some (if lower_label then lower l else l)
              | Number _ text => if lower_label then None else Some text
              end) as [label|]; [|discriminate].
    set (target := move_to username label).
    pose proof (move_torrent_sends srv hash target []) as Hsent.
    destruct (move_torrent srv hash target []) as [sent out].
    cbn [fst app] in Hsent. subst sent. cbn [map].
    destruct out as [|e]; [|discriminate].
    apply IH; try lia.
    + destruct ((count + 1 >? 0) && ((count + 1) mod 10 =? 0));
        rewrite ?moves_app; unfold len in *; rewrite ?length_app;
        cbn [moves flat_map app length]; lia.
    + destruct (Z.gtb_spec (count + 1) 0) as [_|]; [|lia].
      pose proof (Z.div_mod count 10 ltac:(lia)) as Hc.
      pose proof (Z.mod_pos_bound count 10 ltac:(lia)) as Hcb.
      pose proof (Z.div_mod (count + 1) 10 ltac:(lia)) as Hc1.
      pose proof (Z.mod_pos_bound (count + 1) 10 ltac:(lia)) as Hc1b.
      destruct (Z.eqb_spec ((count + 1) mod 10) 0) as [Hz|Hnz]; cbn [andb];
        rewrite !sleeps_app; cbn; lia.
Qed.

(** X24: when the command returns after listing the torrents, it returns 0
    and has slept once after every tenth move: the number of sleeps is the
    number of moves divided by ten, rounded down. *)
Theorem X24_sleeps_every_tenth_move (srv : server) (username : string)
    (ignore_labels : list string) (lower_label : bool) (sleep_time : Z)
    (ts : list (string * info)) (status : Z) :
  snd (main srv username ignore_labels lower_label sleep_time (Some ts))
  = Returned status ->
  status = 0
  /\ sleeps (fst (main srv username ignore_labels lower_label sleep_time
                    (Some ts)))
     = len (moves (fst (main srv username ignore_labels lower_label sleep_time
                          (Some ts)))) / 10.
Proof.
  cbn [main]. destruct (select username ts) as [e|selected]; [discriminate|].
  apply move_all_sleeps; reflexivity || lia.
Qed.

(** X30: a finished torrent whose label reads as a number stops the
    command before it moves anything. If some listed torrent is not being
    hash-checked, has no bytes left and carries a label that
    [list_torrents_dict] has turned into a number, the command ends by an
    exception raised while the torrents are filtered ([TypeError] from
    [str.lower], unless an entry before it has a numeric path), without a
    single request. *)
Theorem X30_numeric_label_stops (srv : server) (username : string)
    (ignore_labels : list string) (lower_label : bool) (sleep_time : Z)
    (ts : list (string * info)) (hash : string) (i : info)
    (zero : bool) (text : string) :
  In (hash, i) ts ->
  key_check (hash, i) = true ->
  custom1 i = Number zero text ->
  main srv username ignore_labels lower_label sleep_time (Some ts)
  = ([], Crashed TypeError)
  \/ main srv username ignore_labels lower_label sleep_time (Some ts)
     = ([], Crashed AttributeError).
Proof.
  intros Hin Hkey Hlabel. cbn [main].
  assert (select username ts = inl TypeError
          \/ select username ts = inl AttributeError) as [-> | ->];
    [|now left | now right].
  induction ts as [|[hash0 i0] ts IH]; [destruct Hin|].
  cbn [select]. destruct Hin as [[= -> ->]|Hin].
  - rewrite Hkey. unfold base_path_check. rewrite Hlabel. now left.
  - specialize (IH Hin).
    destruct (key_check (hash0, i0)); trivial.
    unfold base_path_check.
    destruct (custom1 i0); [|now left].
    destruct (base_path i0); [|now right].
    destruct IH as [-> | ->]; [now left | now right].
Qed.

End MoveByLabelFacts.

Module MoveByLabelScenarios.

Import Client MoveByLabel MoveByLabelFacts.

Local Open Scope string_scope.

Definition willing : server :=
  mk_server (fun _ => Some 1%nat) (fun _ => Some []) (fun _ _ => Moved).

Definition finished (hash label : string) : string * info :=
  (hash, mk_info (Str hash) (Str label) (Str ("/torrents/u/incoming/" ++ hash))
           false (Number true "0")).

(** Twelve finished torrents labelled [TV], one labelled [Skip], one still
    downloading and one already in place. *)
Definition library : list (string * info) :=
  map (fun h => finished h "TV")
      ["h01"; "h02"; "h03"; "h04"; "h05"; "h06";
       "h07"; "h08"; "h09"; "h10"; "h11"; "h12"]
  ++ [finished "h13" "Skip";
      ("h14", mk_info (Str "h14") (Str "TV") (Str "/torrents/u/incoming/h14")
                false (Number false "5"));
      ("h15", mk_info (Str "h15") (Str "TV")
                (Str "/torrents/u/_completed/tv/h15") false (Number true "0"))].

Lemma X24_sleeps_every_tenth_move_witness :
  0 = 0
  /\ sleeps (fst (main willing "u" ["Skip"] true 3 (Some library)))
     = len (moves (fst (main willing "u" ["Skip"] true 3 (Some library)))) / 10.
Proof.
  apply (X24_sleeps_every_tenth_move willing "u" ["Skip"] true 3 library 0).
  vm_compute. reflexivity.
Defined.

Example library_run :
  moves (fst (main willing "u" ["Skip"] true 3 (Some library)))
  = map (fun h => (h, "/torrents/u/_completed/tv"))
      ["h01"; "h02"; "h03"; "h04"; "h05"; "h06";
       "h07"; "h08"; "h09"; "h10"; "h11"; "h12"]
  /\ sleeps (fst (main willing "u" ["Skip"] true 3 (Some library))) = 1
  /\ nth_error (fst (main willing "u" ["Skip"] true 3 (Some library))) 10
     = Some (Sleep 3).
Proof. vm_compute. repeat split; reflexivity. Qed.

(** The library with one more finished torrent, labelled [2019]. *)
Definition library_2019 : list (string * info) :=
  library
  ++ [("h16", mk_info (Str "h16") (Number false "2019")
                (Str "/torrents/u/incoming/h16") false (Number true "0"))].

Lemma X30_numeric_label_stops_witness :
  main willing "u" ["Skip"] true 3 (Some library_2019)
  = ([], Crashed TypeError)
  \/ main willing "u" ["Skip"] true 3 (Some library_2019)
     = ([], Crashed AttributeError).
Proof.
  apply (X30_numeric_label_stops willing "u" ["Skip"] true 3 library_2019
           "h16" (mk_info (Str "h16") (Number false "2019")
                    (Str "/torrents/u/incoming/h16") false (Number true "0"))
           false "2019").
  - unfold library_2019. apply in_or_app. right. now left.
  - reflexivity.
  - reflexivity.
Defined.

End MoveByLabelScenarios.

(** * [xirvik/mirror.py] *)

Module MirrorMain.

Import Client.

Local Open Scope string_scope.

(** The items of the [names] dict in insertion order: the base name of a
    torrent's path, with the torrent's hash and path. *)
Definition names := list (string * (string * string)).

(** [names[bn] = value]: an existing key keeps its place. *)
Fixpoint dict_set (d : names) (bn : string) (value : string * string)
    : names :=
  match d with
  | [] => [(bn, value)]
  | (k, v) :: d' =>
      if String.eqb k bn then (k, value) :: d'
      else (k, v) :: dict_set d' bn value
  end.

(** ['{}/{}/'.format(assumed_path_prefix, args.remote_dir[0])] *)
Definition look_for (user remote_dir : string) : string :=
  "/torrents/" ++ user ++ "/" ++ remote_dir ++ "/".

(** ['{}/{}'.format(assumed_path_prefix, args.move_to)] *)
Definition move_to (user move_to_arg : string) : string :=
  "/torrents/" ++ user ++ "/" ++ move_to_arg.

(** The loop over [torrents.items()] that fills [names]; [None] when
    [v[TORRENT_PATH_INDEX]] raises [IndexError]. *)
Fixpoint collect (prefix : string) (torrents : Client.listing) (d : names)
    : option names :=
  match torrents with
  | [] => Some d
  | (hash, v) :: rest =>
      match nth_error v TORRENT_PATH_INDEX with
      | None => None
      | Some p =>
          if negb (String.prefix prefix p) then collect prefix rest d
          else collect prefix rest (dict_set d (Posixpath.basename p) (hash, p))
      end
  end.

(** How [main] ends after the mirroring: [cleanup_and_exit(exit_status)]
    with the lock released, or an exception that leaves [main] with the
    lock still held. *)
Inductive exit : Type :=
| Exits (exit_status : Z)
| Crashes (e : rt_exc).

Section Main.

Variable digest : bytes -> bytes.
Variable srv : server.

(** [client.get_torrent(hash)]: the exception it raises, or the decoded
    content of the response. *)
Variable get_torrent : string -> rt_exc + torrent_info.

(** The local disk as the mirroring left it. *)
Variable fs : filesystem.

Variables (local_dir target label : string).

(** The first loop over [_all]. *)
Fixpoint verify_all (items : names) (exit_status : Z) (bad : list string)
    : rt_exc + (Z * list string) :=
  match items with
  | [] => inr (exit_status, bad)
  | (bn, (hash, fullpath)) :: rest =>
      match get_torrent hash with
      | inl e => inl e
      | inr torrent =>
          match Torrent.verify_torrent_contents digest fs torrent local_dir with
          | Returns => verify_all rest exit_status bad
          | Raises (VerificationError _) =>
              verify_all rest 1 (bad ++ [hash])%list
          | Raises e => inl (Verifier e)
          end
      end
  end.

(** The second loop over [_all]. *)
Fixpoint move_good (items : names) (bad : list string) (s : session)
    : session * rt_outcome :=
  match items with
  | [] => (s, Done)
  | (bn, (hash, fullpath)) :: rest =>
      if Sftp.mem hash bad then move_good rest bad s
      else
        match move_torrent srv hash target s with
        | (s1, Done) => move_good rest bad s1
        | (s1, Failed (UnexpectedruTorrentError _)) => move_good rest bad s1
        | (s1, Failed e) => (s1, Failed e)
        end
  end.

(** [[hash for bn, (hash, fullpath) in names.items() if hash not in bad]] *)
Definition good_hashes (items : names) (bad : list string) : list string :=
  flat_map (fun item : string * (string * string) =>
              let '(bn, (hash, fullpath)) := item in
              if negb (Sftp.mem hash bad) then [hash] else []) items.

(** [main] from [_all = names.items()] on; the requests are those posted
    to the server. *)
Definition main_after_mirror (items : names) : session * exit :=
  match verify_all items 0 [] with
  | inl e => ([], Crashes e)
  | inr (exit_status, bad) =>
      match move_good items bad [] with
      | (s, Failed e) => (s, Crashes e)
      | (s, Done) =>
          match set_label_to_hashes srv (good_hashes items bad) (Some label)
                  true 5 0 s with
          | (s', Failed e) => (s', Crashes e)
          | (s', Done) => (s', Exits exit_status)
          end
      end
  end.

End Main.

End MirrorMain.

Module MirrorMainFacts.

Import Client ClientFacts MirrorMain.

Definition hashes (items : names) : list string :=
  map (fun item : string * (string * string) => fst (snd item)) items.

(** ** The [names] dict *)

Lemma dict_set_key (d : names) (bn : string) (value : string * string)
    (k : string) :
  In k (map fst (dict_set d bn value)) <-> k = bn \/ In k (map fst d).
Proof.
  induction d as [|[k0 v0] d IH]; cbn [dict_set map fst In].
  - intuition congruence.
  - destruct (String.eqb_spec k0 bn) as [->|Hne]; cbn [map fst In].
    + intuition congruence.
    + rewrite IH. intuition congruence.
Qed.

Lemma dict_set_NoDup (d : names) (bn : string) (value : string * string) :
  NoDup (map fst d) -> NoDup (map fst (dict_set d bn value)).
Proof.
  induction d as [|[k0 v0] d IH]; cbn [dict_set map fst]; intros Hd.
  - constructor; [intros [] | constructor].
  - inversion Hd as [|? ? Hfresh Hrest]; subst.
    destruct (String.eqb_spec k0 bn) as [->|Hne]; cbn [map fst].
    + now constructor.
    + constructor; [|now apply IH].
      rewrite dict_set_key. intros [->|Hin]; [now apply Hne | now apply Hfresh].
Qed.

Lemma dict_set_In (d : names) (bn : string) (value : string * string)
    (k : string) (x : string * string) :
  In (k, x) (dict_set d bn value) -> (k = bn /\ x = value) \/ In (k, x) d.
Proof.
  induction d as [|[k0 v0] d IH]; cbn [dict_set In].
  - intros [[= <- <-]|[]]. now left.
  - destruct (String.eqb_spec k0 bn) as [->|Hne]; cbn [In].
    + intros [[= <- <-]|Hin]; [now left | right; now right].
    + intros [Heq|Hin]; [right; now left|].
      destruct (IH Hin) as [?|?]; [now left | right; now right].
Qed.

Lemma dict_set_other (d : names) (bn : string) (value : string * string)
    (k : string) (x : string * string) :
  In (k, x) d -> k <> bn -> In (k, x) (dict_set d bn value).
Proof.
  induction d as [|[k0 v0] d IH]; cbn [dict_set In]; [tauto|].
  intros [[= -> ->]|Hin] Hne.
  - destruct (String.eqb_spec k bn) as [->|_]; [now destruct Hne | now left].
  - destruct (String.eqb_spec k0 bn) as [->|_]; right; [trivial | now apply IH].
Qed.

Lemma dict_set_has (d : names) (bn : string) (value : string * string) :
  In (bn, value) (dict_set d bn value).
Proof.
  induction d as [|[k0 v0] d IH]; cbn [dict_set In]; [now left|].
  destruct (String.eqb_spec k0 bn) as [->|_]; [now left | now right].
Qed.

Ltac collect_step v p Hp Hpre :=
  cbn [collect];
  destruct (nth_error v TORRENT_PATH_INDEX) as [p|] eqn:Hp; [|discriminate];
  match goal with
  | |- context [String.prefix ?lf p] =>
      destruct (String.prefix lf p) eqn:Hpre; cbn [negb]
  end.

Lemma collect_app (prefix : string) (a c : Client.listing) (d : names) :
  collect prefix (a ++ c) d
  = match collect prefix a d with
    | Some d1 => collect prefix c d1
    | None => None
    end.
Proof.
  revert d. induction a as [|[hash v] a IH]; intros d; cbn [app collect];
    [reflexivity|].
  destruct (nth_error v TORRENT_PATH_INDEX) as [p|]; [|reflexivity].
  destruct (negb (String.prefix prefix p)); apply IH.
Qed.

Lemma collect_NoDup (prefix : string) (torrents : Client.listing) :
  forall d d', collect prefix torrents d = Some d' ->
    NoDup (map fst d) -> NoDup (map fst d').
Proof.
  induction torrents as [|[hash v] rest IH]; intros d d'.
  - now intros [= <-].
  - collect_step v p Hp Hpre; intros Hrun Hd.
    + apply (IH _ _ Hrun). now apply dict_set_NoDup.
    + now apply (IH _ _ Hrun).
Qed.

(** Where an entry of [names] comes from. *)
Definition listed (prefix : string) (torrents : Client.listing)
    (entry : string * (string * string)) : Prop :=
  let '(bn, (hash, p)) := entry in
  bn = Posixpath.basename p
  /\ String.prefix prefix p = true
  /\ exists v, In (hash, v) torrents /\ nth_error v TORRENT_PATH_INDEX = Some p.

Lemma listed_later (prefix : string) (row : string * list string)
    (rest : Client.listing) (entry : string * (string * string)) :
  listed prefix rest entry -> listed prefix (row :: rest) entry.
Proof.
  destruct entry as [bn [hash p]]. intros (H1 & H2 & v & Hin & Hv).
  repeat split; trivial. exists v. split; [now right | trivial].
Qed.

Lemma collect_listed (prefix : string) (torrents : Client.listing) :
  forall d d', collect prefix torrents d = Some d' ->
    forall entry, In entry d' -> In entry d \/ listed prefix torrents entry.
Proof.
  induction torrents as [|[hash v] rest IH]; intros d d'.
  - intros [= <-] entry Hin. now left.
  - collect_step v p Hp Hpre; intros Hrun entry Hin.
    + destruct (IH _ _ Hrun entry Hin) as [Hset|Hlater].
      * destruct entry as [bn x].
        destruct (dict_set_In _ _ _ _ _ Hset) as [[-> ->]|Hold];
          [right | now left].
        repeat split; trivial. exists v. split; [now left | trivial].
      * right. now apply listed_later.
    + destruct (IH _ _ Hrun entry Hin) as [Hold|Hlater]; [now left|].
      right. now apply listed_later.
Qed.

Lemma collect_keeps_keys (prefix : string) (torrents : Client.listing) :
  forall d d', collect prefix torrents d = Some d' ->
    forall k, In k (map fst d) -> In k (map fst d').
Proof.
  induction torrents as [|[hash v] rest IH]; intros d d'.
  - now intros [= <-].
  - collect_step v p Hp Hpre; intros Hrun k Hk.
    + apply (IH _ _ Hrun). apply dict_set_key. now right.
    + now apply (IH _ _ Hrun).
Qed.

Lemma collect_covers (prefix : string) (torrents : Client.listing) :
  forall d d', collect prefix torrents d = Some d' ->
    forall hash v p,
      In (hash, v) torrents ->
      nth_error v TORRENT_PATH_INDEX = Some p ->
      String.prefix prefix p = true ->
      In (Posixpath.basename p) (map fst d').
Proof.
  induction torrents as [|[hash0 v0] rest IH]; intros d d'.
  - intros _ hash v p [].
  - collect_step v0 p0 Hp Hpre; intros Hrun hash v p [[= -> ->]|Hin] Hv Hp'.
    + rewrite Hp in Hv. injection Hv as ->.
      apply (collect_keeps_keys _ _ _ _ Hrun). apply dict_set_key. now left.
    + now apply (IH _ _ Hrun hash v p).
    + rewrite Hp in Hv. injection Hv as ->. congruence.
    + now apply (IH _ _ Hrun hash v p).
Qed.

(** No torrent of the listing under [prefix] has the base name [bn]. *)
Definition unrivalled (prefix : string) (torrents : Client.listing)
    (bn : string) : Prop :=
  forall hash v p,
    In (hash, v) torrents ->
    nth_error v TORRENT_PATH_INDEX = Some p ->
    String.prefix prefix p = true ->
    Posixpath.basename p <> bn.

Lemma collect_keeps_entry (prefix : string) (torrents : Client.listing) :
  forall d d', collect prefix torrents d = Some d' ->
    forall bn x, In (bn, x) d -> unrivalled prefix torrents bn -> In (bn, x) d'.
Proof.
  induction torrents as [|[hash v] rest IH]; intros d d'.
  - now intros [= <-].
  - collect_step v p Hp Hpre; intros Hrun bn x Hin Hfree;
      assert (unrivalled prefix rest bn) as Hrest
        by (intros h' v' p' Hin' Hv' Hp'; apply (Hfree h' v' p'); trivial;
            now right).
    + apply (IH _ _ Hrun); trivial. apply dict_set_other; trivial.
      intros ->. apply (Hfree hash v p); trivial. now left.
    + now apply (IH _ _ Hrun).
Qed.

(** X29: the [names] dict built from the listing has one entry for each
    base name; every entry is a listed torrent whose path starts with the
    prefix looked for, filed under the base name of that path; every such
    torrent has its base name in the dict; and of several with the same
    base name the entry is the last one listed. *)
Theorem X29_names_keep_last (prefix : string) (torrents : Client.listing)
    (d : names) :
  collect prefix torrents [] = Some d ->
  NoDup (map fst d)
  /\ Forall (listed prefix torrents) d
  /\ (forall hash v p,
        In (hash, v) torrents ->
        nth_error v TORRENT_PATH_INDEX = Some p ->
        String.prefix prefix p = true ->
        In (Posixpath.basename p) (map fst d))
  /\ (forall before hash v p after,
        torrents = before ++ (hash, v) :: after ->
        nth_error v TORRENT_PATH_INDEX = Some p ->
        String.prefix prefix p = true ->
        unrivalled prefix after (Posixpath.basename p) ->
        In (Posixpath.basename p, (hash, p)) d).
Proof.
  intros Hrun. split; [|split; [|split]].
  - apply (collect_NoDup _ _ _ _ Hrun). constructor.
  - apply Forall_forall. intros entry Hin.
    now destruct (collect_listed _ _ _ _ Hrun entry Hin) as [[]|].
  - now apply (collect_covers _ _ _ _ Hrun).
  - intros before hash v p after -> Hv Hp Hfree.
    rewrite collect_app in Hrun.
    destruct (collect prefix before []) as [d1|]; [|discriminate].
    cbn [collect] in Hrun. rewrite Hv, Hp in Hrun. cbn [negb] in Hrun.
    apply (collect_keeps_entry _ _ _ _ Hrun); trivial. apply dict_set_has.
Qed.

(** ** After the mirroring *)

Lemma mem_filter (f : string -> bool) (l : list string) (h : string) :
  Sftp.mem h (filter f l) = Sftp.mem h l && f h.
Proof.
  apply eq_true_iff_eq.
  rewrite andb_true_iff, !MirrorFacts.mem_In, filter_In. tauto.
Qed.

(** [set_label_to_hashes] as [main] calls it: what it sends, and what must
    have held when it returns. *)
Lemma set_label_sent (srv : server) (hs : list string) (lbl : string)
    (s : session) :
  exists new out,
    set_label_to_hashes srv hs (Some lbl) true 5 0 s = ((s ++ new)%list, out)
    /\ Forall (asks_within hs lbl) new.
Proof.
  destruct (set_label_levels_spec srv (Some lbl) 5 (levels 5 0) hs true 0 s)
    as (new & out & Hrun & _ & _ & _ & Hasks); [unfold levels; lia|].
  exists new, out. unfold set_label_to_hashes. now rewrite Hrun.
Qed.

Lemma set_label_done (srv : server) (hs : list string) (lbl : string)
    (s s' : session) :
  set_label_to_hashes srv hs (Some lbl) true 5 0 s = (s', Done) ->
  hs <> [] /\ lbl <> EmptyString
  /\ exists rest,
       s' = (s ++ SetLabel hs (setlabel_data hs lbl) :: rest)%list
       /\ Forall (asks_within hs lbl) rest.
Proof.
  unfold set_label_to_hashes, levels. cbn [set_label_levels].
  destruct hs as [|h0 hs0]; [cbn; discriminate|].
  destruct lbl as [|c lbl0]; [cbn; discriminate|].
  cbn [is_nil str_truthy negb orb].
  set (hs := h0 :: hs0). set (lbl := String c lbl0).
  set (first := SetLabel hs (setlabel_data hs lbl)).
  destruct (setlabel_reply srv (setlabels_sent s)) as [json_len|];
    [|discriminate].
  assert (forall rest, Forall (asks_within hs lbl) rest ->
            hs <> [] /\ lbl <> EmptyString
            /\ exists rest', (s ++ first :: rest = s ++ first :: rest')%list
                             /\ Forall (asks_within hs lbl) rest') as Hok.
  { intros rest Hrest. repeat split; try discriminate. now exists rest. }
  destruct (negb (Nat.eqb json_len (length hs)));
    [|intros [= <-]; now apply (Hok [])].
  cbn [andb]. change (0 <? 5) with true. cbv iota.
  destruct (list_reply srv (lists_sent (s ++ [first]))) as [t|];
    [|discriminate].
  destruct (unlabelled t hs) as [new_hashes|] eqn:Hnew; [|discriminate].
  destruct (is_nil new_hashes).
  { intros [= <-]. rewrite <- !app_assoc. cbn [app].
    apply (Hok [ListTorrents]). now repeat constructor. }
  destruct (set_label_levels_spec srv (Some lbl) 5 (Z.to_nat (5 - 0))
              new_hashes true (0 + 1)
              ((s ++ [first]) ++ [ListTorrents])%list)
    as (new & out & Hrun & _ & _ & _ & Hasks); [lia|].
  rewrite Hrun. intros [= <- ->]. rewrite <- !app_assoc. cbn [app].
  apply (Hok (ListTorrents :: new)). constructor; [exact I|].
  apply (asks_within_incl hs new_hashes); trivial.
  now apply (unlabelled_incl t).
Qed.

Section Main.

Variable digest : bytes -> bytes.
Variable srv : server.
Variable get_torrent : string -> rt_exc + torrent_info.
Variable fs : filesystem.
Variables (local_dir target label : string).

Local Abbreviation verify_all :=
  (MirrorMain.verify_all digest get_torrent fs local_dir).
Local Abbreviation move_good := (MirrorMain.move_good srv target).
Local Abbreviation main_after_mirror :=
  (MirrorMain.main_after_mirror digest srv get_torrent fs local_dir target
     label).

(** What verifying the torrent with this hash comes to. *)
Definition verdict (hash : string) : option outcome :=
  match get_torrent hash with
  | inl _ => None
  | inr torrent =>
      Some (Torrent.verify_torrent_contents digest fs torrent local_dir)
  end.

Definition passes (hash : string) : bool :=
  match verdict hash with
  | Some Returns => true
  | _ => false
  end.

Definition fails (hash : string) : bool :=
  match verdict hash with
  | Some (Raises (VerificationError _)) => true
  | _ => false
  end.

Definition status_of (hs : list string) (exit_status : Z) : Z :=
  if is_nil (filter fails hs) then exit_status else 1.

Lemma verdict_cases (hash : string) :
  match get_torrent hash with
  | inl _ => passes hash = false /\ fails hash = false
  | inr torrent =>
      match Torrent.verify_torrent_contents digest fs torrent local_dir with
      | Returns => passes hash = true /\ fails hash = false
      | Raises (VerificationError _) => passes hash = false /\ fails hash = true
      | Raises _ => passes hash = false /\ fails hash = false
      end
  end.
Proof.
  unfold passes, fails, verdict.
  destruct (get_torrent hash) as [e|torrent]; [auto|].
  destruct (Torrent.verify_torrent_contents digest fs torrent local_dir)
    as [|[]]; auto.
Qed.

Lemma verify_all_spec (items : names) :
  forall exit_status bad exit_status' bad',
    verify_all items exit_status bad = inr (exit_status', bad') ->
    bad' = (bad ++ filter fails (hashes items))%list
    /\ exit_status' = status_of (hashes items) exit_status
    /\ Forall (fun h => passes h = negb (fails h)) (hashes items).
Proof.
  unfold status_of.
  induction items as [|[bn [hash fullpath]] rest IH];
    intros st bad st' bad'; cbn [MirrorMain.verify_all].
  - intros [= <- <-]. rewrite app_nil_r. repeat split. constructor.
  - cbn [hashes map fst snd filter]. fold (hashes rest).
    generalize (verdict_cases hash).
    destruct (get_torrent hash) as [e|torrent]; [discriminate|].
    destruct (Torrent.verify_torrent_contents digest fs torrent local_dir)
      as [|[msg|var|msg| |msg|name]]; try discriminate; intros [Hp Hf] Hrun;
      destruct (IH _ _ _ _ Hrun) as (-> & -> & Hrest); rewrite Hf.
    + repeat split; trivial. constructor; [now rewrite Hp, Hf | trivial].
    + rewrite <- app_assoc. cbn [app is_nil]. repeat split.
      * now destruct (is_nil (filter fails (hashes rest))).
      * constructor; [now rewrite Hp, Hf | trivial].
Qed.

Lemma verify_all_runs (items : names) :
  Forall (fun h => passes h = true \/ fails h = true) (hashes items) ->
  forall exit_status bad,
    verify_all items exit_status bad
    = inr (status_of (hashes items) exit_status,
           (bad ++ filter fails (hashes items))%list).
Proof.
  unfold status_of.
  induction items as [|[bn [hash fullpath]] rest IH]; intros Hall st bad;
    cbn [MirrorMain.verify_all hashes map fst snd filter].
  - now rewrite app_nil_r.
  - fold (hashes rest). cbn [hashes map fst snd] in Hall.
    inversion Hall as [|? ? Hone Hrest]; subst.
    generalize (verdict_cases hash).
    destruct (get_torrent hash) as [e|torrent];
      [intros [Hp Hf]; destruct Hone; congruence|].
    destruct (Torrent.verify_torrent_contents digest fs torrent local_dir)
      as [|[msg|var|msg| |msg|name]]; intros [Hp Hf];
      try (destruct Hone; congruence); rewrite (IH Hrest), Hf.
    + reflexivity.
    + rewrite <- app_assoc. cbn [app is_nil].
      now destruct (is_nil (filter fails (hashes rest))).
Qed.

(** When the first loop is over, [bad] holds exactly the hashes that
    did not pass. *)
Lemma bad_is_not_passing (items : names) (h : string) :
  Forall (fun h => passes h = negb (fails h)) (hashes items) ->
  In h (hashes items) ->
  Sftp.mem h (filter fails (hashes items)) = negb (passes h).
Proof.
  intros Hall Hin. rewrite mem_filter.
  rewrite Forall_forall in Hall. rewrite (Hall h Hin), negb_involutive.
  apply MirrorFacts.mem_In in Hin. now rewrite Hin.
Qed.

Lemma good_hashes_passing (items : names) (bad : list string) :
  (forall h, In h (hashes items) -> Sftp.mem h bad = negb (passes h)) ->
  good_hashes items bad = filter passes (hashes items).
Proof.
  induction items as [|[bn [hash fullpath]] rest IH]; intros Hbad;
    cbn [good_hashes flat_map hashes map fst snd filter]; [reflexivity|].
  fold (good_hashes rest bad). fold (hashes rest).
  rewrite (Hbad hash) by now left. rewrite negb_involutive.
  rewrite IH by (intros h Hh; apply Hbad; now right).
  now destruct (passes hash).
Qed.

Lemma good_hashes_none (items : names) (bad : list string) :
  (forall h, In h (hashes items) -> Sftp.mem h bad = true) ->
  good_hashes items bad = [].
Proof.
  induction items as [|[bn [hash fullpath]] rest IH]; intros Hbad;
    cbn [good_hashes flat_map]; [reflexivity|].
  fold (good_hashes rest bad).
  rewrite (Hbad hash) by now left.
  cbn [negb app]. apply IH. intros h Hh. apply Hbad. now right.
Qed.

Lemma move_good_none (items : names) (bad : list string) (s : session) :
  (forall h, In h (hashes items) -> Sftp.mem h bad = true) ->
  move_good items bad s = (s, Done).
Proof.
  induction items as [|[bn [hash fullpath]] rest IH]; intros Hbad;
    cbn [MirrorMain.move_good]; [reflexivity|].
  rewrite (Hbad hash) by now left.
  apply IH. intros h Hh. apply Hbad. now right.
Qed.

(** A request of the second loop. *)
Definition moves_good (items : names) (bad : list string) (r : request)
    : Prop :=
  exists h,
    r = MoveTorrent h target /\ In h (hashes items) /\ Sftp.mem h bad = false.

Lemma move_good_sent (items : names) (bad : list string) :
  forall s, exists new,
    fst (move_good items bad s) = (s ++ new)%list
    /\ Forall (moves_good items bad) new.
Proof.
  induction items as [|[bn [hash fullpath]] rest IH]; intros s;
    cbn [MirrorMain.move_good].
  - exists []. rewrite app_nil_r. split; [reflexivity | constructor].
  - assert (forall new, Forall (moves_good rest bad) new ->
              Forall (moves_good ((bn, (hash, fullpath)) :: rest) bad) new)
      as Hlater.
    { intros new. apply Forall_impl. intros r (h & -> & Hin & Hmem).
      exists h. repeat split; trivial. now right. }
    destruct (Sftp.mem hash bad) eqn:Hmem.
    { destruct (IH s) as (new & Hrun & Hnew). exists new. auto. }
    assert (moves_good ((bn, (hash, fullpath)) :: rest) bad
              (MoveTorrent hash target)) as Hnow
      by (exists hash; repeat split; trivial; now left).
    unfold move_torrent.
    destruct (IH (s ++ [MoveTorrent hash target])%list)
      as (new & Hrun & Hnew).
    destruct (move_reply srv hash target) as [| |errors]; cbn [fst].
    + exists (MoveTorrent hash target :: new). rewrite Hrun, <- app_assoc.
      split; [reflexivity|]. constructor; auto.
    + exists [MoveTorrent hash target]. split; [reflexivity|].
      now repeat constructor.
    + exists (MoveTorrent hash target :: new). rewrite Hrun, <- app_assoc.
      split; [reflexivity|]. constructor; auto.
Qed.

Lemma move_good_done (items : names) (bad : list string) :
  forall s s',
    move_good items bad s = (s', Done) ->
    s' = (s ++ map (fun h => MoveTorrent h target) (good_hashes items bad))%list.
Proof.
  induction items as [|[bn [hash fullpath]] rest IH]; intros s s';
    cbn [MirrorMain.move_good good_hashes flat_map].
  - intros [= <-]. cbn [map]. now rewrite app_nil_r.
  - fold (good_hashes rest bad).
    destruct (Sftp.mem hash bad); cbn [negb app]; [apply IH|].
    unfold move_torrent.
    destruct (move_reply srv hash target) as [| |errors];
      try discriminate; intros Hrun; rewrite (IH _ _ Hrun), <- app_assoc;
      reflexivity.
Qed.

(** Why a request may be posted after the mirroring. *)
Definition justified (items : names) (r : request) : Prop :=
  match r with
  | MoveTorrent h t =>
      t = target /\ In h (hashes items) /\ passes h = true
  | SetLabel hs data =>
      hs <> [] /\ data = setlabel_data hs label
      /\ Forall (fun h => In h (hashes items) /\ passes h = true) hs
  | ListTorrents => True
  end.

Lemma asks_justified (items : names) (new : session) :
  Forall (asks_within (filter passes (hashes items)) label) new ->
  Forall (justified items) new.
Proof.
  apply Forall_impl. intros [hs data| |h t]; cbn; trivial; [|tauto].
  intros (Hincl & Hne & ->). repeat split; trivial.
  apply Forall_forall. intros h Hh. apply Hincl, filter_In in Hh. tauto.
Qed.

(** X25: whatever the server answers and however [main] ends, every torrent
    it asks the server to move or to label is one of [names] whose content
    on the local disk passed [verify_torrent_contents]; every move is to the
    [--move-to] directory. *)
Theorem X25_only_verified_handled (items : names) :
  Forall (justified items) (fst (main_after_mirror items)).
Proof.
  unfold MirrorMain.main_after_mirror.
  destruct (verify_all items 0 []) as [e|[exit_status bad]] eqn:Hverify;
    [constructor|].
  apply verify_all_spec in Hverify as (-> & _ & Hall). cbn [app].
  pose proof (bad_is_not_passing items) as Hbad.
  destruct (move_good_sent items (filter fails (hashes items)) [])
    as (new & Hsent & Hnew).
  assert (Forall (justified items) new) as Hmoves.
  { eapply Forall_impl; [|exact Hnew].
    intros r (h & -> & Hin & Hmem). cbn. repeat split; trivial.
    rewrite (Hbad h Hall Hin) in Hmem. now destruct (passes h). }
  destruct (move_good items (filter fails (hashes items)) []) as [s out].
  cbn [fst app] in Hsent. subst s.
  destruct out as [|e]; [|exact Hmoves].
  rewrite (good_hashes_passing items) by (intros h; now apply Hbad).
  destruct (set_label_sent srv (filter passes (hashes items)) label new)
    as (new' & out' & -> & Hasks).
  assert (Forall (justified items) (new ++ new')) as Hboth
    by (apply Forall_app; split; [trivial | now apply asks_justified]).
  now destruct out'.
Qed.

(** X26: if every torrent of [names] fails verification, nothing is moved,
    [set_label_to_hashes] is called with no hashes and raises [TypeError],
    and [main] ends by that exception without having released the lock. *)
Theorem X26_all_bad_raises (items : names) :
  Forall (fun h => fails h = true) (hashes items) ->
  main_after_mirror items = ([], Crashes TypeError).
Proof.
  intros Hall. unfold MirrorMain.main_after_mirror.
  rewrite verify_all_runs
    by (eapply Forall_impl; [|exact Hall]; intros h Hh; now right).
  cbn [app].
  assert (forall h, In h (hashes items) ->
            Sftp.mem h (filter fails (hashes items)) = true) as Hbad.
  { intros h Hin. rewrite mem_filter. rewrite Forall_forall in Hall.
    rewrite (Hall h Hin). apply MirrorFacts.mem_In in Hin. now rewrite Hin. }
  rewrite move_good_none, good_hashes_none by trivial.
  reflexivity.
Qed.

Lemma status_of_passes (hs : list string) :
  Forall (fun h => passes h = negb (fails h)) hs ->
  status_of hs 0 = (if forallb passes hs then 0 else 1)
  /\ (filter passes hs <> [] -> existsb passes hs = true).
Proof.
  unfold status_of.
  induction hs as [|h hs IH]; intros Hall; cbn [filter forallb existsb is_nil].
  - split; [reflexivity | congruence].
  - inversion Hall as [|? ? Hone Hrest]; subst.
    destruct (IH Hrest) as [Hstatus Hsome]. rewrite Hone.
    destruct (fails h); cbn [negb andb orb is_nil]; auto.
Qed.

(** X27: when [main] exits after the mirroring, every torrent of [names]
    was fetched and either passed verification or raised
    [VerificationError]; the exit status is 0 if all passed and 1
    otherwise; at least one passed; and the label is not empty. *)
Theorem X27_exit_status (items : names) (exit_status : Z) :
  snd (main_after_mirror items) = Exits exit_status ->
  Forall (fun h => passes h = negb (fails h)) (hashes items)
  /\ exit_status = (if forallb passes (hashes items) then 0 else 1)
  /\ existsb passes (hashes items) = true
  /\ label <> EmptyString.
Proof.
  unfold MirrorMain.main_after_mirror.
  destruct (verify_all items 0 []) as [e|[st bad]] eqn:Hverify;
    [discriminate|].
  apply verify_all_spec in Hverify as (-> & -> & Hall). cbn [app].
  destruct (move_good items (filter fails (hashes items)) []) as [s [|e]];
    [|discriminate].
  rewrite (good_hashes_passing items)
    by (intros h; now apply bad_is_not_passing).
  destruct (set_label_to_hashes srv (filter passes (hashes items))
              (Some label) true 5 0 s) as [s' [|e]] eqn:Hlabel;
    [|discriminate].
  apply set_label_done in Hlabel as (Hsome & Hlabel & _).
  destruct (status_of_passes (hashes items) Hall) as [Hstatus Hexists].
  cbn [snd]. intros [= <-]. auto.
Qed.

(** X28: when [main] exits after the mirroring, what it posted starts with
    one move for each torrent that passed verification, in the order of
    [names], followed by one label request for exactly those torrents,
    whether or not the server answered a move with errors; what follows
    are list requests and label requests for some of them. *)
Theorem X28_moves_then_label (items : names) (exit_status : Z) :
  snd (main_after_mirror items) = Exits exit_status ->
  exists rest,
    fst (main_after_mirror items)
    = (map (fun h => MoveTorrent h target) (filter passes (hashes items))
       ++ SetLabel (filter passes (hashes items))
            (setlabel_data (filter passes (hashes items)) label)
       :: rest)%list
    /\ Forall (asks_within (filter passes (hashes items)) label) rest.
Proof.
  unfold MirrorMain.main_after_mirror.
  destruct (verify_all items 0 []) as [e|[st bad]] eqn:Hverify;
    [discriminate|].
  apply verify_all_spec in Hverify as (-> & -> & Hall). cbn [app].
  destruct (move_good items (filter fails (hashes items)) [])
    as [s [|e]] eqn:Hmoves; [|discriminate].
  apply move_good_done in Hmoves. cbn [app] in Hmoves.
  rewrite (good_hashes_passing items) in *
    by (intros h; now apply bad_is_not_passing).
  destruct (set_label_to_hashes srv (filter passes (hashes items))
              (Some label) true 5 0 s) as [s' [|e]] eqn:Hlabel;
    [|discriminate].
  apply set_label_done in Hlabel as (_ & _ & rest & -> & Hrest).
  intros _. exists rest. cbn [fst]. now rewrite Hmoves.
Qed.

End Main.

End MirrorMainFacts.

Module MirrorMainScenarios.

Import Client ClientFacts MirrorMain MirrorMainFacts.

Local Open Scope string_scope.

(** A row of the listing: 25 empty columns and the path. *)
Definition row (hash p : string) : string * list string :=
  (hash, repeat EmptyString 25 ++ [p])%list.

(** Three finished torrents under [/torrents/u/done/] and one elsewhere;
    the first and the third share the base name [t]. *)
Definition listed_torrents : Client.listing :=
  [row "h1" "/torrents/u/done/x/t";
   row "h2" "/torrents/u/done/s";
   row "h3" "/torrents/u/done/t";
   row "h4" "/torrents/u/other/w"].

Definition found : names :=
  [("t", ("h3", "/torrents/u/done/t")); ("s", ("h2", "/torrents/u/done/s"))].

Example listed_torrents_names :
  collect (look_for "u" "done") listed_torrents [] = Some found.
Proof. vm_compute. reflexivity. Qed.

Lemma X29_names_keep_last_witness :
  NoDup (map fst found)
  /\ Forall (listed (look_for "u" "done") listed_torrents) found
  /\ (forall hash v p,
        In (hash, v) listed_torrents ->
        nth_error v TORRENT_PATH_INDEX = Some p ->
        String.prefix (look_for "u" "done") p = true ->
        In (Posixpath.basename p) (map fst found))
  /\ (forall before hash v p after,
        listed_torrents = (before ++ (hash, v) :: after)%list ->
        nth_error v TORRENT_PATH_INDEX = Some p ->
        String.prefix (look_for "u" "done") p = true ->
        unrivalled (look_for "u" "done") after (Posixpath.basename p) ->
        In (Posixpath.basename p, (hash, p)) found).
Proof.
  apply (X29_names_keep_last (look_for "u" "done") listed_torrents found).
  vm_compute. reflexivity.
Defined.

Definition sha1 := Sha1.sha1.

(** The torrents [t] and [s], each of one four-byte file [a] in two-byte
    pieces with the digests of ["ab"] and ["cd"]. *)
Definition torrent_t : torrent_info :=
  mk_torrent "t" 2 (sha1 (Streamer.b "ab") ++ sha1 (Streamer.b "cd"))%list
    (Some [["a"]]).

Definition torrent_s : torrent_info :=
  mk_torrent "s" 2 (sha1 (Streamer.b "ab") ++ sha1 (Streamer.b "cd"))%list
    (Some [["a"]]).

Definition torrent_files (hash : string) : rt_exc + torrent_info :=
  if String.eqb hash "h3" then inr torrent_t
  else if String.eqb hash "h2" then inr torrent_s
  else inl HTTPError.

(** The mirrored copy of [t] is intact and that of [s] is not. *)
Definition mirrored : filesystem :=
  Streamer.fs_of
    [("/d/t", directory); ("/d/t/a", regular (Streamer.b "abcd"));
     ("/d/s", directory); ("/d/s/a", regular (Streamer.b "abxd"))].

(** The server accepts every label request and answers every move with
    errors. *)
Definition grudging : server :=
  mk_server (fun _ => Some 1%nat) (fun _ => Some [])
    (fun _ _ => MoveErrors "busy").

Definition after_mirror (items : names) : session * exit :=
  main_after_mirror sha1 grudging torrent_files mirrored "/d"
    (move_to "u" "seeding") "Seeding" items.

Example after_mirror_found :
  after_mirror found
  = ([MoveTorrent "h3" "/torrents/u/seeding";
      SetLabel ["h3"] "mode=setlabel&hash=h3&v=Seeding&s=label"],
     Exits 1).
Proof. vm_compute. reflexivity. Qed.

Lemma X26_all_bad_raises_witness :
  after_mirror [("s", ("h2", "/torrents/u/done/s"))] = ([], Crashes TypeError).
Proof.
  apply (X26_all_bad_raises sha1 grudging torrent_files mirrored "/d"
           (move_to "u" "seeding") "Seeding").
  repeat constructor.
Defined.

Lemma X27_exit_status_witness :
  Forall (fun h => passes sha1 torrent_files mirrored "/d" h
                   = negb (fails sha1 torrent_files mirrored "/d" h))
    (hashes found)
  /\ 1 = (if forallb (passes sha1 torrent_files mirrored "/d") (hashes found)
          then 0 else 1)
  /\ existsb (passes sha1 torrent_files mirrored "/d") (hashes found) = true
  /\ "Seeding" <> EmptyString.
Proof.
  apply (X27_exit_status sha1 grudging torrent_files mirrored "/d"
           (move_to "u" "seeding") "Seeding" found 1).
  vm_compute. reflexivity.
Defined.

Lemma X28_moves_then_label_witness :
  exists rest,
    fst (after_mirror found)
    = (map (fun h => MoveTorrent h (move_to "u" "seeding"))
         (filter (passes sha1 torrent_files mirrored "/d") (hashes found))
       ++ SetLabel
            (filter (passes sha1 torrent_files mirrored "/d") (hashes found))
            (setlabel_data
               (filter (passes sha1 torrent_files mirrored "/d") (hashes found))
               "Seeding")
       :: rest)%list
    /\ Forall (asks_within
                 (filter (passes sha1 torrent_files mirrored "/d")
                    (hashes found)) "Seeding") rest.
Proof.
  apply (X28_moves_then_label sha1 grudging torrent_files mirrored "/d"
           (move_to "u" "seeding") "Seeding" found 1).
  vm_compute. reflexivity.
Defined.

(** A path that is missing on the local disk is no [VerificationError]:
    [main] ends by the [IOError] before anything is moved or labelled. *)
Example missing_data_crashes :
  main_after_mirror sha1 grudging torrent_files (Streamer.fs_of []) "/d"
    (move_to "u" "seeding") "Seeding" found
  = ([], Crashes (Verifier Torrent.invalid_path)).
Proof. vm_compute. reflexivity. Qed.

End MirrorMainScenarios.
